(** * RoadMap: a COBOL call-structure scanner, embedded and verified

    The development follows two scripts of the repository:

    - [RoadMap.07.py], which scans one COBOL source for paragraphs, PERFORM
      edges and embedded SQL, filters the graph from a start paragraph and
      prints it as an indented tree (module [RoadMap] below);
    - [RoadMapCalls.py] (and its copy [RoadMapCalls.01.py], whose three
      functions are the same text), which collects CALL and EXEC CICS targets
      of one source (module [RoadMapCalls] below).

    Python values are embedded as follows.

    - A [str] is a list of Unicode code points ([N]).  The scripts open their
      input with [encoding='latin-1'], so a line read from a file holds code
      points below 256; upper-casing such a line can add U+039C and U+0178
      and turns U+00DF into two letters.  The character tables ([isspace],
      [upper_char], [es_palabra]) are Python's on that alphabet; other code
      points are left caseless, non-blank and non-word.
    - A [dict] is an association list in insertion order, keys unique.
    - [None] results are [option]; an exception is a constructor of
      [resultado]; a loop whose end is not structural takes fuel and returns
      [Agotado] when it runs out.
    - [re] patterns are terms of [regex], run by a backtracking matcher with
      Python's priorities (leftmost start, greedy or lazy repetition, first
      alternative first). *)

From Stdlib Require Import String Ascii.
From Stdlib Require Import NArith Bool Arith Lia List.
Import ListNotations.

Set Implicit Arguments.

(** ** Python strings *)

Module Py.

Definition char := N.
Definition str := list char.

(** A string literal of the source, as code points. *)
Definition lit (s : string) : str :=
  List.map N_of_ascii (list_ascii_of_string s).

Definition entre (a b c : N) : bool := ((a <=? c) && (c <=? b))%N.

(** [str.isspace] on one character. *)
Definition isspace (c : char) : bool :=
  (entre 9 13 c || entre 28 32 c || (c =? 133) || (c =? 160))%N.

(** [str.upper] on one character, for the characters of Latin-1, which
    is how the sources are read, and for what they become; U+00DF becomes
    two letters.  Any other character is left as it is, which is not
    always what Python does: what is said of text that does not come from
    a source line (a path, an argument of the command line) is said for
    Latin-1 text. *)
Definition upper_char (c : char) : str :=
  (if entre 97 122 c then [c - 32]
   else if c =? 181 then [924]
   else if c =? 223 then [83; 83]
   else if entre 224 254 c && negb (c =? 247) then [c - 32]
   else if c =? 255 then [376]
   else [c])%N.

Definition upper (s : str) : str := flat_map upper_char s.

(** The class [\w] of [re] on a [str] pattern: alphanumeric or underscore. *)
Definition es_palabra (c : char) : bool :=
  (entre 48 57 c || entre 65 90 c || (c =? 95) || entre 97 122 c
   || (c =? 170) || (c =? 178) || (c =? 179) || (c =? 181) || (c =? 185)
   || (c =? 186) || entre 188 190 c
   || (entre 192 255 c && negb (c =? 215) && negb (c =? 247))
   || (c =? 376) || (c =? 924))%N.

Definition str_eqb (a b : str) : bool :=
  if list_eq_dec N.eq_dec a b then true else false.

Definition vacia (s : str) : bool :=
  match s with [] => true | _ => false end.

Fixpoint quitar_mientras (p : char -> bool) (s : str) : str :=
  match s with
  | [] => []
  | c :: s' => if p c then quitar_mientras p s' else s
  end.

Definition lstrip (s : str) : str := quitar_mientras isspace s.
Definition rstrip (s : str) : str := rev (quitar_mientras isspace (rev s)).
Definition strip (s : str) : str := rstrip (lstrip s).

(** [s.rstrip(cs)] for a one-character [cs]. *)
Definition rstrip_car (c : char) (s : str) : str :=
  rev (quitar_mientras (N.eqb c) (rev s)).

Fixpoint startswith (p s : str) : bool :=
  match p, s with
  | [], _ => true
  | _ :: _, [] => false
  | a :: p', b :: s' => (a =? b)%N && startswith p' s'
  end.

(** [sub in s]. *)
Fixpoint contiene (sub s : str) : bool :=
  startswith sub s ||
  match s with
  | [] => false
  | _ :: s' => contiene sub s'
  end.

(** [s.split()]: the maximal runs of non-blank characters. *)
Fixpoint split_desde (actual : str) (s : str) : list str :=
  match s with
  | [] => if vacia actual then [] else [actual]
  | c :: s' =>
      if isspace c
      then (if vacia actual then split_desde [] s' else actual :: split_desde [] s')
      else split_desde (actual ++ [c]) s'
  end.

Definition split (s : str) : list str := split_desde [] s.

(** [sep.join(xs)]. *)
Fixpoint join (sep : str) (xs : list str) : str :=
  match xs with
  | [] => []
  | [x] => x
  | x :: xs' => x ++ sep ++ join sep xs'
  end.

(** [x in xs] for a list or set of strings. *)
Definition pertenece (x : str) (xs : list str) : bool :=
  existsb (str_eqb x) xs.

(** [xs.index(x)]: [None] stands for [ValueError]. *)
Fixpoint index (x : str) (xs : list str) : option nat :=
  match xs with
  | [] => None
  | y :: xs' => if str_eqb y x then Some 0 else option_map S (index x xs')
  end.

(** *** Dictionaries, in insertion order *)

Definition dict (V : Type) := list (str * V).

Fixpoint buscar {V} (k : str) (d : dict V) : option V :=
  match d with
  | [] => None
  | (k', v) :: d' => if str_eqb k' k then Some v else buscar k d'
  end.

Definition tiene {V} (k : str) (d : dict V) : bool :=
  match buscar k d with Some _ => true | None => false end.

(** [d.get(k, v0)]. *)
Definition get {V} (k : str) (v0 : V) (d : dict V) : V :=
  match buscar k d with Some v => v | None => v0 end.

(** [d[k] = v]: in place for a present key, at the end for a new one. *)
Fixpoint poner {V} (k : str) (v : V) (d : dict V) : dict V :=
  match d with
  | [] => [(k, v)]
  | (k', v') :: d' =>
      if str_eqb k' k then (k', v) :: d' else (k', v') :: poner k v d'
  end.

(** [d.setdefault(k, []).append(x)]. *)
Definition anexar (k : str) (x : str) (d : dict (list str)) : dict (list str) :=
  poner k (get k [] d ++ [x]) d.

Definition claves {V} (d : dict V) : list str := List.map fst d.

(** *** Regular expressions

    The patterns of the source only repeat single characters, so [Rep]
    repeats a class; there is one capturing group.  Under [re.IGNORECASE]
    the literals and ranges of the source, all ASCII, match either case of
    an ASCII letter. *)

Inductive regex : Type :=
| Vacio
| Car (c : char)
| Clase (p : char -> bool)
| Cat (r1 r2 : regex)
| Alt (r1 r2 : regex)
| Rep (codicioso : bool) (minimo : nat) (maximo : option nat) (p : char -> bool)
| Grupo (r : regex)
| Inicio
| Borde.

Fixpoint texto (s : str) : regex :=
  match s with
  | [] => Vacio
  | [c] => Car c
  | c :: s' => Cat (Car c) (texto s')
  end.

Definition otra_caja (c : char) : char :=
  (if entre 65 90 c then c + 32 else if entre 97 122 c then c - 32 else c)%N.

Definition en_clase (ic : bool) (p : char -> bool) (c : char) : bool :=
  p c || (ic && p (otra_caja c)).

Definition queda (maximo : option nat) : bool :=
  match maximo with Some 0 => false | _ => true end.

Definition menos (maximo : option nat) : option nat := option_map pred maximo.

Definition palabra_en (c : option char) : bool :=
  match c with Some x => es_palabra x | None => false end.

Section Motor.
Variable R : Type.

(** Greedy repetition: one more character first, the rest of the pattern
    ([k]) at this point only when that fails. *)
Fixpoint rep_codicioso (p : char -> bool) (minimo : nat) (maximo : option nat)
    (prev : option char) (s : str) (k : option char -> str -> option R)
    : option R :=
  match s with
  | c :: s' =>
      if p c && queda maximo then
        match rep_codicioso p (pred minimo) (menos maximo) (Some c) s' k with
        | Some r => Some r
        | None => if (minimo =? 0)%nat then k prev s else None
        end
      else if (minimo =? 0)%nat then k prev s else None
  | [] => if (minimo =? 0)%nat then k prev s else None
  end.

(** Lazy repetition: the rest of the pattern first, one more character only
    when that fails. *)
Fixpoint rep_perezoso (p : char -> bool) (minimo : nat) (maximo : option nat)
    (prev : option char) (s : str) (k : option char -> str -> option R)
    : option R :=
  match (if (minimo =? 0)%nat then k prev s else None) with
  | Some r => Some r
  | None =>
      match s with
      | c :: s' =>
          if p c && queda maximo
          then rep_perezoso p (pred minimo) (menos maximo) (Some c) s' k
          else None
      | [] => None
      end
  end.

(** [casa ic r prev s g k]: match [r] at the point whose previous character
    is [prev] and whose remaining text is [s], with group 1 holding [g];
    [k] is the rest of the pattern. *)
Fixpoint casa (ic : bool) (r : regex) (prev : option char) (s : str)
    (g : option str) (k : option char -> str -> option str -> option R)
    : option R :=
  match r with
  | Vacio => k prev s g
  | Car c =>
      match s with
      | x :: s' => if en_clase ic (N.eqb c) x then k (Some x) s' g else None
      | [] => None
      end
  | Clase p =>
      match s with
      | x :: s' => if en_clase ic p x then k (Some x) s' g else None
      | [] => None
      end
  | Cat r1 r2 =>
      casa ic r1 prev s g (fun prev' s' g' => casa ic r2 prev' s' g' k)
  | Alt r1 r2 =>
      match casa ic r1 prev s g k with
      | Some x => Some x
      | None => casa ic r2 prev s g k
      end
  | Rep codicioso minimo maximo p =>
      (if codicioso then rep_codicioso else rep_perezoso)
        (en_clase ic p) minimo maximo prev s (fun prev' s' => k prev' s' g)
  | Grupo r1 =>
      casa ic r1 prev s g
        (fun prev' s' _ =>
           k prev' s' (Some (firstn (length s - length s') s)))
  | Inicio =>
      match prev with
      | None => k prev s g
      | Some _ => None
      end
  | Borde =>
      if xorb (palabra_en prev) (palabra_en (hd_error s))
      then k prev s g else None
  end.

End Motor.

(** A match object: where it starts, the text after it, and group 1. *)
Record coincidencia : Type := Coincide {
  comienzo : nat;
  despues : str;
  grupo1 : option str
}.

(** [m.group(1)]; the group takes part in every match of the patterns here. *)
Definition group (m : coincidencia) : str :=
  match grupo1 m with Some g => g | None => [] end.

Definition casa_aqui (ic : bool) (r : regex) (prev : option char) (s : str)
    (i : nat) : option coincidencia :=
  casa ic r prev s None (fun _ s' g => Some (Coincide i s' g)).

(** [re.match(r, s)]. *)
Definition re_match (ic : bool) (r : regex) (s : str) : option coincidencia :=
  casa_aqui ic r None s 0.

Fixpoint buscar_desde (ic : bool) (r : regex) (prev : option char) (s : str)
    (i : nat) : option coincidencia :=
  match casa_aqui ic r prev s i with
  | Some m => Some m
  | None =>
      match s with
      | [] => None
      | x :: s' => buscar_desde ic r (Some x) s' (S i)
      end
  end.

(** [re.search(r, s)]. *)
Definition re_search (ic : bool) (r : regex) (s : str) : option coincidencia :=
  buscar_desde ic r None s 0.

Definition ultimo_de (prev : option char) (s : str) : option char :=
  match rev s with
  | c :: _ => Some c
  | [] => prev
  end.

(** [re.finditer(r, s)]: each search resumes where the last match ended.
    The fuel is the number of characters left; a match of the patterns here
    is never empty, and an empty one stops the iteration of this model. *)
Fixpoint finditer_desde (fuel : nat) (ic : bool) (r : regex)
    (prev : option char) (s : str) (i : nat) : list coincidencia :=
  match fuel with
  | O => []
  | S fuel' =>
      match buscar_desde ic r prev s i with
      | None => []
      | Some m =>
          let consumido := (length s - length (despues m))%nat in
          if (consumido =? 0)%nat then [m]
          else m :: finditer_desde fuel' ic r
                      (ultimo_de prev (firstn consumido s)) (despues m)
                      (i + consumido)
      end
  end.

Definition finditer (ic : bool) (r : regex) (s : str) : list coincidencia :=
  finditer_desde (S (length s)) ic r None s 0.

End Py.

Declare Scope regex_scope.
Delimit Scope regex_scope with regex.
Infix ">>" := Py.Cat (at level 62, right associativity) : regex_scope.

(** ** Outcomes of a call *)

Inductive excepcion : Type :=
| KeyError (k : Py.str).

Inductive resultado (A : Type) : Type :=
| Devuelve (a : A)
| Lanza (e : excepcion)
| Agotado.

Arguments Devuelve {A} a.
Arguments Lanza {A} e.
Arguments Agotado {A}.

(** ** RoadMap.07.py *)

Module RoadMap.
Import Py.

Definition punto (c : char) : bool := negb (c =? 10)%N.

Definition espacios : regex := Rep true 1 None isspace.
Definition nombre_sql : regex := Grupo (Rep true 1 None es_palabra).

(** [SELECT .*?FROM\s+(\w+)] *)
Definition patron_select : regex :=
  (texto (lit "SELECT ") >> Rep false 0 None punto >> texto (lit "FROM")
   >> espacios >> nombre_sql)%regex.

(** [INSERT\s+INTO\s+(\w+)] *)
Definition patron_insert : regex :=
  (texto (lit "INSERT") >> espacios >> texto (lit "INTO") >> espacios
   >> nombre_sql)%regex.

(** [UPDATE\s+(\w+)] *)
Definition patron_update : regex :=
  (texto (lit "UPDATE") >> espacios >> nombre_sql)%regex.

(** [DELETE\s+FROM\s+(\w+)] *)
Definition patron_delete : regex :=
  (texto (lit "DELETE") >> espacios >> texto (lit "FROM") >> espacios
   >> nombre_sql)%regex.

(** [OPEN\s+(\w+)], [CLOSE\s+(\w+)], [FETCH\s+(\w+)] *)
Definition patron_open : regex :=
  (texto (lit "OPEN") >> espacios >> nombre_sql)%regex.
Definition patron_close : regex :=
  (texto (lit "CLOSE") >> espacios >> nombre_sql)%regex.
Definition patron_fetch : regex :=
  (texto (lit "FETCH") >> espacios >> nombre_sql)%regex.

(** One [for match in re.finditer(...)] loop of [extraer_sentencias_sql]. *)
Definition sentencias_de (tipo : str) (r : regex) (bloque_sql : str)
    : list (str * str) :=
  List.map (fun m => (tipo, group m)) (finditer true r bloque_sql).

Definition extraer_sentencias_sql (bloque_sql : str) : list (str * str) :=
  let bloque_sql := upper bloque_sql in
  sentencias_de (lit "SELECT") patron_select bloque_sql
  ++ sentencias_de (lit "INSERT") patron_insert bloque_sql
  ++ sentencias_de (lit "UPDATE") patron_update bloque_sql
  ++ sentencias_de (lit "DELETE") patron_delete bloque_sql
  ++ sentencias_de (lit "OPEN CURSOR") patron_open bloque_sql
  ++ sentencias_de (lit "CLOSE CURSOR") patron_close bloque_sql
  ++ sentencias_de (lit "FETCH CURSOR") patron_fetch bloque_sql
  ++ (if contiene (lit "COMMIT") bloque_sql then [(lit "COMMIT", [])] else [])
  ++ (if contiene (lit "ROLLBACK") bloque_sql then [(lit "ROLLBACK", [])] else []).

(** The reading loop of [procesar_bloque_sql]: the stripped lines up to and
    including the first one that holds END-EXEC, and the lines left in the
    file after it. *)
Fixpoint leer_bloque (archivo : list str) (bloque_sql : list str)
    : list str * list str :=
  match archivo with
  | [] => (bloque_sql, [])
  | linea :: resto =>
      let bloque_sql := bloque_sql ++ [strip linea] in
      if contiene (lit "END-EXEC") (upper linea)
      then (bloque_sql, resto)
      else leer_bloque resto bloque_sql
  end.

(** The storing loop of [procesar_bloque_sql]. *)
Fixpoint anotar (parrafo_actual : str) (sentencias : list (str * str))
    (selects_por_parrafo : dict (list str)) : dict (list str) :=
  match sentencias with
  | [] => selects_por_parrafo
  | (tipo, tabla) :: resto =>
      anotar parrafo_actual resto
        (anexar parrafo_actual (tipo ++ lit " ... " ++ tabla)
           selects_por_parrafo)
  end.

(** [procesar_bloque_sql]: it reads from the open file, so the lines it
    leaves are returned with the index. *)
Definition procesar_bloque_sql (archivo : list str) (parrafo_actual : str)
    (selects_por_parrafo : dict (list str)) : list str * dict (list str) :=
  let (bloque_sql, resto) := leer_bloque archivo [] in
  let bloque_completo := upper (join (lit " ") bloque_sql) in
  (resto,
   anotar parrafo_actual (extraer_sentencias_sql bloque_completo)
     selects_por_parrafo).

Definition asterisco : char := 42%N.

Definition columna_7_es_asterisco (linea : str) : bool :=
  (7 <=? length linea)%nat &&
  match nth_error linea 6 with
  | Some c => (c =? asterisco)%N
  | None => false
  end.

Definition es_linea_ignorable (linea : str) : bool :=
  vacia linea || columna_7_es_asterisco linea.

(** [^\s*([A-Z0-9][A-Z0-9-]{0,60})\s*(?:\.|\bSECTION\b)] *)
Definition letra_o_digito (c : char) : bool :=
  entre 65 90 c || entre 48 57 c.
Definition letra_digito_o_guion (c : char) : bool :=
  entre 65 90 c || entre 48 57 c || (c =? 45)%N.

Definition patron_parrafo : regex :=
  (Inicio >> Rep true 0 None isspace
   >> Grupo (Clase letra_o_digito >> Rep true 0 (Some 60) letra_digito_o_guion)
   >> Rep true 0 None isspace
   >> Alt (Car 46%N) (Borde >> texto (lit "SECTION") >> Borde))%regex.

Definition sentencias_iniciales : list str :=
  [lit "PERFORM "; lit "IF "; lit "ELSE "; lit "EVALUATE "; lit "MOVE ";
   lit "SET "].

Definition excluidos : list str :=
  [lit "VARYING"; lit "UNTIL"; lit "WITH"; lit "END-IF"; lit "END-EXEC";
   lit "STOP"; lit "STOP-RUN"; lit "EXIT"; lit "CONTINUE"; lit "PERFORM";
   lit "EVALUATE"; lit "IF"; lit "ELSE"; lit "MOVE"; lit "SET"].

Definition code_area_de (linea : str) : str :=
  if (7 <? length linea)%nat then skipn 7 linea else lstrip linea.

Definition detectar_parrafo (linea : str) : option str :=
  if vacia linea || vacia (strip linea) then None
  else if columna_7_es_asterisco linea then None
  else
    let code_area := code_area_de linea in
    if existsb (fun p => startswith p (upper (strip code_area)))
         sentencias_iniciales
    then None
    else
      match re_match true patron_parrafo code_area with
      | None => None
      | Some m =>
          let posible_parrafo := strip (group m) in
          if pertenece (upper posible_parrafo) excluidos then None
          else Some posible_parrafo
      end.

Definition no_destinos : list str :=
  [lit "VARYING"; lit "UNTIL"; lit "WITH"; lit "END-IF"; lit "END-EXEC";
   lit "STOP RUN"; lit "EXIT"; lit "CONTINUE"].

(** [detectar_perform]; the two [None] of the inner matches are the
    [ValueError] of [index] and the [IndexError] of [partes[idx + 1]]. *)
Definition detectar_perform (linea : str) : option str :=
  if contiene (lit "PERFORM") (upper linea) then
    let partes := split (upper (strip linea)) in
    match index (lit "PERFORM") partes with
    | None => None
    | Some idx =>
        match nth_error partes (idx + 1) with
        | None => None
        | Some siguiente =>
            let destino := rstrip_car 46%N siguiente in
            if pertenece destino no_destinos then None else Some destino
        end
    end
  else None.

(** *** The filter

    [resultado] has one key, the start paragraph, and its value is the very
    list object that [llamadas] holds for that key ([llamadas.get] returns
    it, not a copy).  The model keeps the lists in [llamadas] and the keys
    of [resultado] in [en_resultado]: an append to [resultado[origen]] is an
    append to the list of [origen] in [llamadas], and [destinos.copy()]
    reads that list as it is when the turn of [origen] comes. *)

(** The [while pendientes] loop for one [origen]. *)
Fixpoint vaciar_pendientes (fuel : nat) (llamadas : dict (list str))
    (en_resultado : list str) (origen : str) (pendientes : list str)
    : resultado (dict (list str)) :=
  match rev pendientes with
  | [] => Devuelve llamadas
  | destino :: quedan =>
      match fuel with
      | O => Agotado
      | S fuel' =>
          let pendientes := rev quedan in
          if pertenece destino en_resultado then
            vaciar_pendientes fuel' llamadas en_resultado origen pendientes
          else if tiene destino llamadas then
            if pertenece origen en_resultado then
              vaciar_pendientes fuel' (anexar origen destino llamadas)
                en_resultado origen pendientes
            else Lanza (KeyError origen)
          else
            vaciar_pendientes fuel' llamadas en_resultado origen
              (pendientes ++ get destino [] llamadas)
      end
  end.

(** The [for origen, destinos in list(llamadas.items())] loop. *)
Fixpoint recorrer_origenes (origenes : list str) (llamadas : dict (list str))
    (en_resultado : list str) : resultado (dict (list str)) :=
  match origenes with
  | [] => Devuelve llamadas
  | origen :: resto =>
      let pendientes := get origen [] llamadas in
      match vaciar_pendientes (length pendientes) llamadas en_resultado
              origen pendientes with
      | Devuelve llamadas' => recorrer_origenes resto llamadas' en_resultado
      | Lanza e => Lanza e
      | Agotado => Agotado
      end
  end.

Definition no_existe (parrafo_inicio : str) : str :=
  lit "El parrafo '" ++ parrafo_inicio ++ lit "' no existe en el archivo".

(** [filtrar_desde_parrafo_inicio]: what it prints and how it ends. *)
Definition filtrar_desde_parrafo_inicio (llamadas : dict (list str))
    (parrafo_inicio : str) : list str * resultado (dict (list str)) :=
  if negb (tiene parrafo_inicio llamadas) then
    ([no_existe parrafo_inicio], Devuelve [])
  else
    match recorrer_origenes (claves llamadas) llamadas [parrafo_inicio] with
    | Devuelve llamadas' =>
        ([], Devuelve [(parrafo_inicio, get parrafo_inicio [] llamadas')])
    | Lanza e => ([], Lanza e)
    | Agotado => ([], Agotado)
    end.

(** [obtener_parrafos_accesibles]: the set is returned as the list of its
    members, last found first. *)
Fixpoint accesibles_desde (fuel : nat) (llamadas : dict (list str))
    (accesibles : list str) (pendientes : list str) : option (list str) :=
  match rev pendientes with
  | [] => Some accesibles
  | actual :: quedan =>
      match fuel with
      | O => None
      | S fuel' =>
          let pendientes := rev quedan in
          if pertenece actual accesibles
          then accesibles_desde fuel' llamadas accesibles pendientes
          else accesibles_desde fuel' llamadas (actual :: accesibles)
                 (pendientes ++ get actual [] llamadas)
      end
  end.

Definition obtener_parrafos_accesibles (fuel : nat)
    (llamadas : dict (list str)) (parrafo_inicio : str) : option (list str) :=
  accesibles_desde fuel llamadas []
    [if vacia parrafo_inicio then lit "__START__" else parrafo_inicio].

(** *** The scan *)

Record estado : Type := Estado {
  llamadas : dict (list str);
  selects_por_parrafo : dict (list str);
  en_procedure_division : bool;
  (** [None] while the local name is not bound yet. *)
  esperar_punto_despues_de_proc : option bool;
  parrafo_actual : str;
  bloque_sql_count : nat
}.

Definition estado_inicial : estado :=
  Estado [] [] false None (lit "__START__") 0.

(** The steps of the loop body past the SQL test, for a line that is
    already upper-cased and not ignorable. *)
Definition paso_sin_sql (linea : str) (e : estado) : estado :=
  if negb (en_procedure_division e) then
    if contiene (lit "PROCEDURE DIVISION") (upper linea) then
      Estado (llamadas e) (selects_por_parrafo e) true
        (Some (negb (contiene (lit ".") linea)))
        (parrafo_actual e) (bloque_sql_count e)
    else e
  else
    match esperar_punto_despues_de_proc e with
    | Some true =>
        if contiene (lit ".") linea then
          Estado (llamadas e) (selects_por_parrafo e)
            (en_procedure_division e) (Some false)
            (parrafo_actual e) (bloque_sql_count e)
        else e
    | _ =>
        match detectar_parrafo linea with
        | Some (c :: nuevo) =>
            let nuevo_parrafo := c :: nuevo in
            Estado
              (if tiene nuevo_parrafo (llamadas e) then llamadas e
               else poner nuevo_parrafo [] (llamadas e))
              (selects_por_parrafo e) (en_procedure_division e)
              (esperar_punto_despues_de_proc e) nuevo_parrafo
              (bloque_sql_count e)
        | _ =>
            if vacia (parrafo_actual e) then e
            else
              match detectar_perform linea with
              | Some (c :: d) =>
                  Estado (anexar (parrafo_actual e) (c :: d) (llamadas e))
                    (selects_por_parrafo e) (en_procedure_division e)
                    (esperar_punto_despues_de_proc e) (parrafo_actual e)
                    (bloque_sql_count e)
              | _ => e
              end
        end
    end.

(** The [for linea in archivo] loop.  [procesar_bloque_sql] takes lines
    from the same file, so the loop goes on with what it leaves; the fuel
    counts lines.  The trace that the scan prints of [llamadas] is left
    out. *)
Fixpoint recorrer_archivo (fuel : nat) (analizar_sql : bool)
    (archivo : list str) (e : estado) : option estado :=
  match archivo with
  | [] => Some e
  | linea :: resto =>
      match fuel with
      | O => None
      | S fuel' =>
          let linea := upper linea in
          if es_linea_ignorable linea then
            recorrer_archivo fuel' analizar_sql resto e
          else if analizar_sql && contiene (lit "EXEC SQL") (upper linea) then
            let (resto', selects) :=
              procesar_bloque_sql resto (parrafo_actual e)
                (selects_por_parrafo e) in
            recorrer_archivo fuel' analizar_sql resto'
              (Estado (llamadas e) selects (en_procedure_division e)
                 (esperar_punto_despues_de_proc e) (parrafo_actual e)
                 (S (bloque_sql_count e)))
          else recorrer_archivo fuel' analizar_sql resto (paso_sin_sql linea e)
      end
  end.

Definition verdadero (s : option str) : option str :=
  match s with
  | Some (c :: s') => Some (c :: s')
  | _ => None
  end.

(** What follows the loop: the optional filter and the choice of the SQL
    entries.  Any exception ends in the handler, which returns the empty
    triple. *)
Definition cerrar (parrafo_inicio : option str) (analizar_sql : bool)
    (e : estado) : option (dict (list str) * nat * dict (list str)) :=
  let filtrado :=
    match verdadero parrafo_inicio with
    | Some inicio => snd (filtrar_desde_parrafo_inicio (llamadas e) inicio)
    | None => Devuelve (llamadas e)
    end in
  match filtrado with
  | Agotado => None
  | Lanza _ => Some ([], 0, [])
  | Devuelve llamadas =>
      let accesibles := llamadas in
      Some (llamadas, bloque_sql_count e,
            if analizar_sql then
              filter (fun kv => tiene (fst kv) accesibles
                                || str_eqb (fst kv) (lit "__START__"))
                (selects_por_parrafo e)
            else [])
  end.

(** [analizar_cobol]: [contenido] is the text of the file as its lines, or
    [None] when it cannot be opened.  The outer [None] is the model running
    out of fuel, which [analizar_cobol_termina] excludes. *)
Definition analizar_cobol (contenido : option (list str))
    (parrafo_inicio : option str) (analizar_sql : bool)
    : option (dict (list str) * nat * dict (list str)) :=
  match contenido with
  | None => Some ([], 0, [])
  | Some archivo =>
      match recorrer_archivo (length archivo) analizar_sql archivo
              estado_inicial with
      | None => None
      | Some e => cerrar parrafo_inicio analizar_sql e
      end
  end.

(** *** The tree printer *)

Fixpoint sangria (nivel : nat) : str :=
  match nivel with
  | O => []
  | S n => lit "   " ++ sangria n
  end.

(** A [for] loop whose body prints lines and may run out of fuel. *)
Fixpoint por_cada (A B : Type) (cuerpo : A -> option (list B)) (xs : list A)
    : option (list B) :=
  match xs with
  | [] => Some []
  | x :: xs' =>
      match cuerpo x with
      | None => None
      | Some a =>
          match por_cada cuerpo xs' with
          | None => None
          | Some b => Some (a ++ b)
          end
      end
  end.

Definition diccionario_vacio : str :=
  lit "Diccionario vacio. No hay llamadas que mostrar." ++ [10%N].

(** The root of a call: [nodo], or the first key when [nodo] is empty. *)
Definition raiz (diccionario : dict (list str)) (nodo : str) : option str :=
  if vacia nodo then
    match diccionario with
    | (k, _) :: _ => Some k
    | [] => None
    end
  else Some nodo.

(** [imprimir_arbol_llamadas]: the lines it prints, in order; with a file
    the same lines are written to it.  [visitados] is [None] for the
    default argument.  A child gets a copy of the set, so the set of a call
    is its own. *)
Fixpoint imprimir_arbol_llamadas (fuel : nat) (diccionario : dict (list str))
    (selects_por_parrafo : dict (list str)) (nodo : str) (nivel : nat)
    (visitados : option (list str)) : option (list str) :=
  match fuel with
  | O => None
  | S fuel' =>
      match raiz diccionario nodo with
      | None => Some [diccionario_vacio]
      | Some nodo =>
          let visitados :=
            match visitados with Some v => v | None => [] end in
          let indent := sangria nivel in
          let visitados := nodo :: visitados in
          let anotaciones :=
            if tiene nodo selects_por_parrafo then
              List.map (fun sel => indent ++ lit "   - " ++ sel)
                (get nodo [] selects_por_parrafo)
            else [] in
          match
            por_cada
              (fun hijo =>
                 if pertenece hijo visitados then Some []
                 else imprimir_arbol_llamadas fuel' diccionario
                        selects_por_parrafo hijo (S nivel) (Some visitados))
              (get nodo [] diccionario)
          with
          | None => None
          | Some abajo => Some ((indent ++ nodo) :: anotaciones ++ abajo)
          end
      end
  end.

(** *** The main program

    The loop over [sys.argv[2:]]: an argument that reads SQL in any letter
    case turns the SQL analysis on, any other becomes the start
    paragraph.  The test goes through [upper], which is that of Python on
    Latin-1 text. *)
Definition leer_argumentos (argumentos : list str) : bool * option str :=
  fold_left
    (fun (estado : bool * option str) (arg : str) =>
       if str_eqb (upper arg) (lit "SQL") then (true, snd estado)
       else (fst estado, Some arg))
    argumentos (false, None).

(** *** The drawing

    What [generar_grafo] works out before it renders: the root, the level
    of each node met from the root and the number of each edge.
    [orden_llamadas] is a dictionary whose keys are pairs. *)

Fixpoint poner_arista (k : str * str) (v : nat)
    (d : list (str * str * nat)) : list (str * str * nat) :=
  match d with
  | [] => [(k, v)]
  | (k', v') :: d' =>
      if str_eqb (fst k') (fst k) && str_eqb (snd k') (snd k)
      then (k', v) :: d'
      else (k', v') :: poner_arista k v d'
  end.

Record trazado : Type := Trazado {
  visitados : list str;
  niveles : dict nat;
  contador : nat;
  orden_llamadas : list (str * str * nat)
}.

Definition trazado_inicial : trazado := Trazado [] [] 1 [].

(** The [for hijo in diccionario.get(nodo, [])] loop of
    [asignar_niveles]. *)
Definition visitar_hijos (asignar : str -> trazado -> option trazado)
    (nodo : str) (hijos : list str) (t : option trazado) : option trazado :=
  fold_left
    (fun (ot : option trazado) (hijo : str) =>
       match ot with
       | None => None
       | Some t =>
           asignar hijo
             (Trazado (visitados t) (niveles t) (S (contador t))
                (poner_arista (nodo, hijo) (contador t) (orden_llamadas t)))
       end)
    hijos t.

(** [asignar_niveles], the inner function of [generar_grafo]; the fuel
    bounds the depth of the recursion. *)
Fixpoint asignar_niveles (fuel : nat) (diccionario : dict (list str))
    (nodo : str) (nivel : nat) (t : trazado) : option trazado :=
  match fuel with
  | O => None
  | S fuel' =>
      if pertenece nodo (visitados t) then Some t
      else
        visitar_hijos
          (fun hijo t' => asignar_niveles fuel' diccionario hijo (S nivel) t')
          nodo (get nodo [] diccionario)
          (Some (Trazado (nodo :: visitados t)
                   (poner nodo nivel (niveles t))
                   (contador t) (orden_llamadas t)))
  end.

(** The root of the drawing: [__START__] when it is a key, otherwise the
    first key; [None] stands for the [StopIteration] of
    [next(iter(diccionario))] on an empty dictionary. *)
Definition nodo_raiz (diccionario : dict (list str)) : option str :=
  if tiene (lit "__START__") diccionario then Some (lit "__START__")
  else
    match diccionario with
    | (k, _) :: _ => Some k
    | [] => None
    end.

Inductive fin_del_trazado : Type :=
| Trazado_hecho (t : trazado)
| StopIteration
| Sin_fuel.

(** [generar_grafo] up to the trace of the calls: the root and
    [asignar_niveles].  The nodes and edges it adds afterwards for the SQL
    annotations, and the rendering, are left out. *)
Definition trazar (fuel : nat) (diccionario : dict (list str))
    : fin_del_trazado :=
  match nodo_raiz diccionario with
  | None => StopIteration
  | Some raiz =>
      match asignar_niveles fuel diccionario raiz 0 trazado_inicial with
      | Some t => Trazado_hecho t
      | None => Sin_fuel
      end
  end.

End RoadMap.

(** ** RoadMapCalls.py *)

Module RoadMapCalls.
Import Py.

Definition comilla (c : char) : bool := (c =? 39)%N || (c =? 34)%N.
Definition palabra_o_guion (c : char) : bool := es_palabra c || (c =? 45)%N.

Definition espacios : regex := Rep true 1 None isspace.
Definition comilla_opcional : regex := Rep true 0 (Some 1) comilla.
Definition nombre_modulo : regex := Grupo (Rep true 1 None palabra_o_guion).

(** [\bCALL\s+['\"]?([\w-]+)['\"]?] *)
Definition patron_call : regex :=
  (Borde >> texto (lit "CALL") >> espacios >> comilla_opcional
   >> nombre_modulo >> comilla_opcional)%regex.

(** [EXEC\s+CICS\s+(?:LINK|START|INVOKE)\s+PROGRAM\s*\(['\"]?([\w-]+)['\"]?\)] *)
Definition patron_cics : regex :=
  (texto (lit "EXEC") >> espacios >> texto (lit "CICS") >> espacios
   >> Alt (texto (lit "LINK")) (Alt (texto (lit "START")) (texto (lit "INVOKE")))
   >> espacios >> texto (lit "PROGRAM") >> Rep true 0 None isspace
   >> Car 40%N >> comilla_opcional >> nombre_modulo >> comilla_opcional
   >> Car 41%N)%regex.

Definition detectar_call (linea : str) : option str :=
  let linea := upper linea in
  match re_search false patron_call linea with
  | Some m => Some (group m)
  | None =>
      match re_search false patron_cics linea with
      | Some m => Some (lit "CICS-" ++ group m)
      | None => None
      end
  end.

Definition es_linea_ignorable (linea : str) : bool :=
  vacia (strip linea) ||
  ((6 <? length linea)%nat &&
   match nth_error linea 6 with
   | Some c => (c =? 42)%N
   | None => false
   end).

(** [os.path.basename] and [os.path.splitext], as [posixpath] has them. *)
Fixpoint rfind_desde (c : char) (p : str) (i : nat) (visto : option nat)
    : option nat :=
  match p with
  | [] => visto
  | x :: p' => rfind_desde c p' (S i) (if (x =? c)%N then Some i else visto)
  end.

Definition rfind (c : char) (p : str) : option nat := rfind_desde c p 0 None.

Definition basename (p : str) : str :=
  match rfind 47%N p with
  | Some i => skipn (S i) p
  | None => p
  end.

Definition splitext (p : str) : str * str :=
  match rfind 46%N p with
  | None => (p, [])
  | Some dot =>
      let nombre := match rfind 47%N p with Some i => S i | None => 0 end in
      if (nombre <=? dot)%nat &&
         existsb (fun x => negb (x =? 46)%N)
           (firstn (dot - nombre) (skipn nombre p))
      then (firstn dot p, skipn dot p)
      else (p, [])
  end.

(** The key of the mapping; the path comes from the command line, and
    [upper] is that of Python on Latin-1 text. *)
Definition origen_de (ruta_archivo : str) : str :=
  upper (fst (splitext (basename ruta_archivo))).

(** The loop of [analizar_cobol] over the lines of the file; [llamadas] is
    a [defaultdict(list)], so the first append creates the key. *)
Fixpoint recorrer_archivo (origen : str) (archivo : list str)
    (llamadas : dict (list str)) : dict (list str) :=
  match archivo with
  | [] => llamadas
  | linea :: resto =>
      let linea := upper linea in
      if es_linea_ignorable linea then recorrer_archivo origen resto llamadas
      else
        match detectar_call linea with
        | Some (c :: d) =>
            recorrer_archivo origen resto
              (anexar origen (upper (c :: d)) llamadas)
        | _ => recorrer_archivo origen resto llamadas
        end
  end.

(** [analizar_cobol]: [contenido] is [None] when the file cannot be opened;
    the handler prints and the empty mapping is returned. *)
Definition analizar_cobol (ruta_archivo : str) (contenido : option (list str))
    : dict (list str) :=
  let origen := origen_de ruta_archivo in
  match contenido with
  | None => []
  | Some archivo => recorrer_archivo origen archivo []
  end.

(** The count the main program prints:
    [sum(len(v) for v in llamadas.values())]. *)
Definition total_llamadas (llamadas : dict (list str)) : nat :=
  list_sum (List.map (fun kv => length (snd kv)) llamadas).

End RoadMapCalls.

(** * Properties *)

Unset Implicit Arguments.
Import Py.

(** ** Vocabulary of the statements *)

(** [a] has an edge to [b] in the call graph [g]. *)
Definition arista (g : dict (list str)) (a b : str) : Prop :=
  In b (get a [] g).

(** [b] is [a] or is reached from [a] along edges of [g]. *)
Inductive alcanzable (g : dict (list str)) : str -> str -> Prop :=
| alcanzable_aqui : forall a, alcanzable g a a
| alcanzable_paso : forall a b c,
    alcanzable g a b -> arista g b c -> alcanzable g a c.

(** [n] is a node of [g]: a key, or a destination of some key. *)
Definition nodo_de (g : dict (list str)) (n : str) : Prop :=
  In n (claves g) \/ exists k, In k (claves g) /\ arista g k n.

(** A blank line: empty or made of white space only. *)
Definition en_blanco (linea : str) : Prop :=
  Forall (fun c => isspace c = true) linea.

(** Column 7 (index 6) of the line holds an asterisk. *)
Definition comentario_columna_7 (linea : str) : Prop :=
  nth_error linea 6 = Some RoadMap.asterisco.

(** The words that may follow PERFORM without being a paragraph. *)
Definition palabras_de_continuacion : list str :=
  [lit "VARYING"; lit "UNTIL"; lit "WITH"; lit "END-IF"; lit "END-EXEC";
   lit "STOP RUN"; lit "EXIT"; lit "CONTINUE"].

(** A source whose EXEC SQL block stands before the PROCEDURE DIVISION
    header. *)
Definition fuente_con_sql_en_cabecera : list str :=
  [lit "       EXEC SQL" ++ [10%N];
   lit "           SELECT A FROM T" ++ [10%N];
   lit "       END-EXEC." ++ [10%N];
   lit "       PROCEDURE DIVISION." ++ [10%N];
   lit "       P1." ++ [10%N]].

(** *** What a pattern matches

    [den ic r prev s g prev' s' g'] reads [r] as a relation: from the point
    with previous character [prev], remaining text [s] and group [g], the
    pattern can take a piece of [s] and leave [s'], with previous character
    [prev'] and group [g']. *)

Definition dentro (maximo : option nat) (n : nat) : Prop :=
  match maximo with Some h => n <= h | None => True end.

Definition todos (p : char -> bool) (w : str) : Prop :=
  Forall (fun c => p c = true) w.

Fixpoint den (ic : bool) (r : regex) (prev : option char) (s : str)
    (g : option str) (prev' : option char) (s' : str) (g' : option str)
    {struct r} : Prop :=
  match r with
  | Vacio => prev' = prev /\ s' = s /\ g' = g
  | Car c =>
      exists x, s = x :: s' /\ en_clase ic (N.eqb c) x = true /\
                prev' = Some x /\ g' = g
  | Clase p =>
      exists x, s = x :: s' /\ en_clase ic p x = true /\
                prev' = Some x /\ g' = g
  | Cat r1 r2 =>
      exists pm sm gm,
        den ic r1 prev s g pm sm gm /\ den ic r2 pm sm gm prev' s' g'
  | Alt r1 r2 =>
      den ic r1 prev s g prev' s' g' \/ den ic r2 prev s g prev' s' g'
  | Rep _ minimo maximo p =>
      exists w, s = w ++ s' /\ todos (en_clase ic p) w /\
                minimo <= length w /\ dentro maximo (length w) /\
                prev' = ultimo_de prev w /\ g' = g
  | Grupo r1 =>
      exists g1, den ic r1 prev s g prev' s' g1 /\
                 g' = Some (firstn (length s - length s') s)
  | Inicio => prev = None /\ prev' = prev /\ s' = s /\ g' = g
  | Borde =>
      xorb (palabra_en prev) (palabra_en (hd_error s)) = true /\
      prev' = prev /\ s' = s /\ g' = g
  end.

(** One or more blanks. *)
Definition blancos (w : str) : Prop := w <> [] /\ en_blanco w.

(** Nothing, an apostrophe or a double quote. *)
Definition comilla_o_nada (q : str) : Prop :=
  q = [] \/ q = [39%N] \/ q = [34%N].

(** A module name: one or more word characters or hyphens. *)
Definition es_nombre (n : str) : Prop :=
  n <> [] /\ todos RoadMapCalls.palabra_o_guion n.

(** [u] holds a CALL order: the word CALL, not glued to a word character on
    its left, then blanks and a name that a quote may precede. *)
Definition orden_call (u : str) : Prop :=
  exists antes b q nombre resto,
    u = antes ++ lit "CALL" ++ b ++ q ++ nombre ++ resto /\
    palabra_en (ultimo_de None antes) = false /\
    blancos b /\ comilla_o_nada q /\ es_nombre nombre.

(** [s] begins with an order EXEC CICS LINK (or START or INVOKE)
    PROGRAM(...) that names [nombre], bare or in quotes, and goes on with
    [resto]. *)
Definition orden_cics_aqui (s nombre resto : str) : Prop :=
  exists b1 b2 verbo b3 b4 q1 q2,
    s = lit "EXEC" ++ b1 ++ lit "CICS" ++ b2 ++ verbo ++ b3
        ++ lit "PROGRAM" ++ b4 ++ [40%N] ++ q1 ++ nombre ++ q2
        ++ [41%N] ++ resto /\
    blancos b1 /\ blancos b2 /\
    In verbo [lit "LINK"; lit "START"; lit "INVOKE"] /\
    blancos b3 /\ en_blanco b4 /\
    comilla_o_nada q1 /\ comilla_o_nada q2 /\ es_nombre nombre.

(** [u] holds such an order after [antes]. *)
Definition orden_cics (antes u nombre : str) : Prop :=
  exists s resto, u = antes ++ s /\ orden_cics_aqui s nombre resto.

(** The targets of a source, line by line: what [detectar_call] returns on
    each upper-cased line that is not ignorable, upper-cased. *)
Definition destinos_detectados (archivo : list str) : list str :=
  flat_map
    (fun linea =>
       let linea := upper linea in
       if RoadMapCalls.es_linea_ignorable linea then []
       else match RoadMapCalls.detectar_call linea with
            | Some destino => [upper destino]
            | None => []
            end)
    archivo.

(** The mapping with the one key [origen], or none when there is no
    target. *)
Definition de_un_origen (origen : str) (destinos : list str)
    : dict (list str) :=
  match destinos with
  | [] => []
  | _ :: _ => [(origen, destinos)]
  end.

(** A line with a CICS order and, after it, a CALL. *)
Definition linea_cics_y_call : str :=
  lit "           EXEC CICS LINK PROGRAM('PGMX') END-EXEC. CALL 'PGMA'".

(** A line with a CICS order alone, in lower case. *)
Definition linea_cics : str :=
  lit "           exec cics link program('pgmx') end-exec".

(** The text [s] does not go on with a character of the class [p]. *)
Definition no_sigue (p : char -> bool) (s : str) : Prop :=
  match s with y :: _ => p y = false | [] => True end.

(** Every destination of the graph is a name, that is, not empty. *)
Definition nombres_validos (dic : dict (list str)) : Prop :=
  forall k ds d, In (k, ds) dic -> In d ds -> d <> [].

Definition str_eq_dec : forall a b : str, {a = b} + {a <> b} :=
  list_eq_dec N.eq_dec.

Definition destinos_de (dic : dict (list str)) : list str :=
  flat_map snd dic.

(** The destinations of the graph that are not in [visitados]. *)
Definition faltan (dic : dict (list str)) (visitados : list str) : list str :=
  filter (fun u => negb (pertenece u visitados))
    (nodup str_eq_dec (destinos_de dic)).

(** A printed line with its ghost: for the line of a node, the set
    [visitados] of the call that printed it, which lists the node and then
    its callers up to the root; [None] for a line of SQL or the message of
    the empty dictionary. *)
Definition renglon : Type := (option (list str) * str)%type.

(** [imprimir_arbol_llamadas] again, each line with its ghost. *)
Fixpoint imprimir_con_camino (fuel : nat) (diccionario : dict (list str))
    (selects_por_parrafo : dict (list str)) (nodo : str) (nivel : nat)
    (visitados : option (list str)) : option (list renglon) :=
  match fuel with
  | O => None
  | S fuel' =>
      match RoadMap.raiz diccionario nodo with
      | None => Some [(None, RoadMap.diccionario_vacio)]
      | Some nodo =>
          let visitados :=
            match visitados with Some v => v | None => [] end in
          let indent := RoadMap.sangria nivel in
          let visitados := nodo :: visitados in
          let anotaciones :=
            if tiene nodo selects_por_parrafo then
              List.map (fun sel => (None, indent ++ lit "   - " ++ sel))
                (get nodo [] selects_por_parrafo)
            else [] in
          match
            RoadMap.por_cada
              (fun hijo =>
                 if pertenece hijo visitados then Some []
                 else imprimir_con_camino fuel' diccionario
                        selects_por_parrafo hijo (S nivel) (Some visitados))
              (get nodo [] diccionario)
          with
          | None => None
          | Some abajo =>
              Some ((Some visitados, indent ++ nodo) :: anotaciones ++ abajo)
          end
      end
  end.


Definition o_vacio (visitados : option (list str)) : list str :=
  match visitados with Some v => v | None => [] end.


(** The graph of two paragraphs that perform each other. *)
Definition ciclo_a_b : dict (list str) :=
  [(lit "A", [lit "B"]); (lit "B", [lit "A"])].

(** *** Labels *)

(** What may follow a paragraph name [t]: blanks, if any, and then a period
    or the word SECTION, that is, SECTION with no word character just
    before it nor just after it. *)
Definition fin_de_etiqueta (t s : str) : Prop :=
  exists b r,
    s = b ++ r /\ en_blanco b /\
    ((exists r', r = 46%N :: r') \/
     (exists r', r = lit "SECTION" ++ r' /\
                 palabra_en (ultimo_de None (t ++ b)) = false /\
                 palabra_en (hd_error r') = false)).

(** The code area starts, after blanks if any, with the token [t] of 1 to
    61 letters, digits and hyphens, followed by a period or the word
    SECTION. *)
Definition es_etiqueta_literal (code_area t : str) : Prop :=
  exists b s,
    code_area = b ++ t ++ s /\ en_blanco b /\ t <> [] /\
    todos RoadMap.letra_digito_o_guion t /\ length t <= 61 /\
    fin_de_etiqueta t s.

(** The same, for a token that begins with a letter or a digit. *)
Definition es_etiqueta (code_area t : str) : Prop :=
  es_etiqueta_literal code_area t /\
  match t with c :: _ => RoadMap.letra_o_digito c = true | [] => False end.

Definition palabras_de_sentencia : list str :=
  [lit "PERFORM"; lit "IF"; lit "ELSE"; lit "EVALUATE"; lit "MOVE";
   lit "SET"].

(** The code area starts, after blanks if any, with a statement keyword and
    a space. *)
Definition empieza_por_sentencia (code_area : str) : Prop :=
  exists b k r,
    code_area = b ++ k ++ 32%N :: r /\ en_blanco b /\
    In k palabras_de_sentencia.

Definition palabras_excluidas : list str :=
  [lit "VARYING"; lit "UNTIL"; lit "WITH"; lit "END-IF"; lit "END-EXEC";
   lit "STOP"; lit "STOP-RUN"; lit "EXIT"; lit "CONTINUE"; lit "PERFORM";
   lit "EVALUATE"; lit "IF"; lit "ELSE"; lit "MOVE"; lit "SET"].

(** A text without lower-case ASCII letters, and a class and a pattern
    that accept none. *)
Definition sin_minusculas (s : str) : Prop :=
  Forall (fun c => entre 97 122 c = false) s.

Definition clase_mayuscula (p : char -> bool) : Prop :=
  forall x, entre 97 122 x = true -> p x = false.

Fixpoint patron_mayusculo (r : regex) : Prop :=
  match r with
  | Car c => clase_mayuscula (N.eqb c)
  | Clase p => clase_mayuscula p
  | Rep _ _ _ p => clase_mayuscula p
  | Cat r1 r2 => patron_mayusculo r1 /\ patron_mayusculo r2
  | Alt r1 r2 => patron_mayusculo r1 /\ patron_mayusculo r2
  | Grupo r1 => patron_mayusculo r1
  | _ => True
  end.

(** What follows the name in the label pattern:
    [\s*(?:\.|\bSECTION\b)]. *)
Definition cola_de_etiqueta : regex :=
  (Rep true 0 None isspace
   >> Alt (Car 46%N) (Borde >> texto (lit "SECTION") >> Borde))%regex.

(** A line that starts with a hyphen, and a label line. *)
Definition linea_con_guion : str := lit "-A.".
Definition linea_de_parrafo : str := lit "       MAIN-PARA.".

(** An upper-case ASCII letter. *)
Definition letra (c : char) : bool := entre 65 90 c.

(** *** Further vocabulary *)

(** The node a search starts from: [parrafo_inicio or '__START__']. *)
Definition inicio_o_start (parrafo_inicio : str) : str :=
  if vacia parrafo_inicio then lit "__START__" else parrafo_inicio.

(** The destinations still to be met by the search: those of the keys that
    are not in [accesibles]. *)
Definition por_visitar (g : dict (list str)) (accesibles : list str)
    : list str :=
  flat_map (fun kv => if pertenece (fst kv) accesibles then [] else snd kv) g.

(** What the loop of the search from [r] keeps true of the nodes met and
    the nodes pending. *)
Definition busqueda_bien (g : dict (list str)) (r : str)
    (acc pend : list str) : Prop :=
  (forall n, In n acc \/ In n pend -> alcanzable g r n) /\
  (forall n m, In n acc -> arista g n m -> In m acc \/ In m pend) /\
  NoDup acc /\
  (In r acc \/ In r pend).

(** A destination the filter appends to the entry of the start: a key of
    the graph other than the start. *)
Definition clave_ajena (g : dict (list str)) (inicio d : str) : bool :=
  negb (str_eqb d inicio) && tiene d g.

(** An origin the filter cannot serve: a key other than the start that
    lists a key other than the start. *)
Definition conflicto (g : dict (list str)) (inicio o : str) : Prop :=
  o <> inicio /\
  exists d, In d (get o [] g) /\ d <> inicio /\ In d (claves g).

Definition conflictivo (g : dict (list str)) (inicio o : str) : bool :=
  negb (str_eqb o inicio) && existsb (clave_ajena g inicio) (get o [] g).

(** Two graphs with the same keys and, the start apart, the same lists. *)
Definition salvo_inicio (inicio : str) (g g' : dict (list str)) : Prop :=
  (forall k, tiene k g' = tiene k g) /\
  (forall k, k <> inicio -> get k [] g' = get k [] g).

(** The annotation [f"{tipo} ... {tabla}"] of one statement. *)
Definition anotacion (sentencia : str * str) : str :=
  fst sentencia ++ lit " ... " ++ snd sentencia.

(** The text [procesar_bloque_sql] hands to the extractor for the lines it
    has read. *)
Definition bloque_de (lineas : list str) : str :=
  upper (join (lit " ") (List.map strip lineas)).

(** A line that closes a block. *)
Definition cierra_bloque (linea : str) : bool :=
  contiene (lit "END-EXEC") (upper linea).
(** The statement kinds that come with the name of a table or cursor. *)
Definition tipos_con_objeto : list str :=
  [lit "SELECT"; lit "INSERT"; lit "UPDATE"; lit "DELETE";
   lit "OPEN CURSOR"; lit "CLOSE CURSOR"; lit "FETCH CURSOR"].

(** A table or cursor name: one or more word characters. *)
Definition nombre_de_objeto (o : str) : Prop :=
  o <> [] /\ todos es_palabra o.

(** [t] is a piece of [s]. *)
Definition trozo_de (t s : str) : Prop :=
  exists antes despues, s = antes ++ t ++ despues.

(** A pattern whose last factor is a group of one or more characters of
    [\w]. *)
Fixpoint acaba_en_nombre (r : regex) : Prop :=
  match r with
  | Cat _ r2 => acaba_en_nombre r2
  | Grupo (Rep _ (S _) _ p) => forall c, p c = es_palabra c
  | _ => False
  end.

(** A line that opens the procedure division for the scan. *)
Definition abre_procedure_division (linea : str) : bool :=
  contiene (lit "PROCEDURE DIVISION") (upper linea).

(** The names of a graph come from the lines of a file: each key is
    [__START__] or a label the paragraph detector finds in a line, and each
    destination is what the PERFORM detector finds in a line. *)
Definition de_las_lineas (archivo : list str) (g : dict (list str)) : Prop :=
  (forall k, In k (claves g) ->
     k = lit "__START__" \/
     exists l, In l archivo /\ RoadMap.detectar_parrafo (upper l) = Some k) /\
  (forall k d, In d (get k [] g) ->
     exists l, In l archivo /\ RoadMap.detectar_perform (upper l) = Some d).

(** Every destination listed in [g] has [P]; every key of [g] has [Q]. *)
Definition todo_destino (P : str -> Prop) (g : dict (list str)) : Prop :=
  forall k ds d, In (k, ds) g -> In d ds -> P d.

Definition toda_clave (Q : str -> Prop) (g : dict (list str)) : Prop :=
  forall k, In k (claves g) -> Q k.

(** What the scan keeps true of its state, for a property [P] of the
    destinations and a property [Q] of the paragraph names. *)
Definition estado_bien (P Q : str -> Prop) (e : RoadMap.estado) : Prop :=
  todo_destino P (RoadMap.llamadas e) /\
  toda_clave Q (RoadMap.llamadas e) /\
  Q (RoadMap.parrafo_actual e).

(** [u] holds, after [antes], a CALL order that names [nombre]: the word
    CALL, not glued to a word character on its left, blanks, an optional
    quote, and the whole run of name characters that follows. *)
Definition orden_call_en (antes u nombre : str) : Prop :=
  exists b q resto,
    u = antes ++ lit "CALL" ++ b ++ q ++ nombre ++ resto /\
    palabra_en (ultimo_de None antes) = false /\
    blancos b /\ comilla_o_nada q /\ es_nombre nombre /\
    no_sigue RoadMapCalls.palabra_o_guion resto.
(** A path: a directory prefix, empty or ending in a slash, a file name and
    an extension after the last period. *)
Definition ruta_de (prefijo nombre ext : str) : str :=
  prefijo ++ nombre ++ [46%N] ++ ext.

(** A paragraph name as the scan accepts it: 1 to 61 letters, digits and
    hyphens, the first a letter or a digit, and none of the excluded
    words. *)
Definition nombre_de_parrafo (k : str) : Prop :=
  match k with c :: _ => RoadMap.letra_o_digito c = true | [] => False end /\
  todos RoadMap.letra_digito_o_guion k /\
  length k <= 61 /\
  ~ In k palabras_excluidas.

(** An argument that asks for the SQL analysis. *)
Definition pide_sql (arg : str) : bool := str_eqb (upper arg) (lit "SQL").

(** A line on which the external-call analyzer records a target. *)
Definition linea_con_llamada (linea : str) : bool :=
  negb (RoadMapCalls.es_linea_ignorable (upper linea)) &&
  match RoadMapCalls.detectar_call linea with
  | Some _ => true
  | None => false
  end.

(** The nodes that a visit from the trace [t] to the trace [t'] has met. *)
Definition nuevos (t t' : RoadMap.trazado) (x : str) : Prop :=
  In x (RoadMap.visitados t') /\ ~ In x (RoadMap.visitados t).

(** The edges numbered so far. *)
Definition aristas_de (t : RoadMap.trazado) : list (str * str) :=
  List.map fst (RoadMap.orden_llamadas t).

(** What a visit started at the nodes [origenes], which numbers the edges
    [propias] itself, has done between [t] and [t']. *)
Definition visita_bien (dic : dict (list str)) (origenes : list str)
    (propias : list (str * str)) (t t' : RoadMap.trazado) : Prop :=
  incl (RoadMap.visitados t) (RoadMap.visitados t') /\
  (forall x, nuevos t t' x ->
     exists o, In o origenes /\ alcanzable dic o x) /\
  (forall x y, nuevos t t' x -> arista dic x y ->
     In y (RoadMap.visitados t')) /\
  (forall x, In x (claves (RoadMap.niveles t')) <->
     In x (claves (RoadMap.niveles t)) \/ nuevos t t' x) /\
  (forall x, In x (RoadMap.visitados t) ->
     buscar x (RoadMap.niveles t') = buscar x (RoadMap.niveles t)) /\
  (forall a b, In (a, b) (aristas_de t') <->
     In (a, b) (aristas_de t) \/ In (a, b) propias \/
     (nuevos t t' a /\ arista dic a b)).

(** When a visit with this fuel is sure to return. *)
Definition fuel_basta (dic : dict (list str)) (fuel : nat) (nodo : str)
    (t : RoadMap.trazado) : Prop :=
  1 <= fuel /\
  (~ In nodo (RoadMap.visitados t) ->
   length (faltan dic (nodo :: RoadMap.visitados t)) + 2 <= fuel).

(** The paragraph under which the scan files what it finds, and the
    paragraphs of the SQL index, are [__START__] or keys of the graph. *)
Definition indice_bien (e : RoadMap.estado) : Prop :=
  (RoadMap.parrafo_actual e = lit "__START__" \/
   In (RoadMap.parrafo_actual e) (claves (RoadMap.llamadas e))) /\
  forall k, In k (claves (RoadMap.selects_por_parrafo e)) ->
            k = lit "__START__" \/ In k (claves (RoadMap.llamadas e)).

(** A class that [re.IGNORECASE] does not widen on a text without
    lower-case ASCII letters, and a pattern made of such classes. *)
Definition clase_sin_caja (p : char -> bool) : Prop :=
  forall x, entre 97 122 x = false -> en_clase true p x = p x.

Fixpoint patron_sin_caja (r : regex) : Prop :=
  match r with
  | Car c => clase_sin_caja (N.eqb c)
  | Clase p => clase_sin_caja p
  | Rep _ _ _ p => clase_sin_caja p
  | Cat r1 r2 => patron_sin_caja r1 /\ patron_sin_caja r2
  | Alt r1 r2 => patron_sin_caja r1 /\ patron_sin_caja r2
  | Grupo r1 => patron_sin_caja r1
  | _ => True
  end.

(** The statement kinds found by a key word, blanks and a name, with the
    key word of each. *)
Definition ordenes_de_una_palabra : list (str * str) :=
  [(lit "UPDATE", lit "UPDATE"); (lit "OPEN CURSOR", lit "OPEN");
   (lit "CLOSE CURSOR", lit "CLOSE"); (lit "FETCH CURSOR", lit "FETCH")].

(** [u] holds the key word [palabra], blanks and a word character. *)
Definition orden_sql_en (palabra u : str) : Prop :=
  exists antes b c resto,
    u = antes ++ palabra ++ b ++ c :: resto /\
    blancos b /\ es_palabra c = true.

(** *** Text that comes from the command line

    [upper] and the character classes are those of Python on the
    characters of Latin-1, which is all a source line can hold; a path or
    an argument of the command line can hold any character, and the
    statements about them are made for Latin-1 text. *)
Definition latin1 (s : str) : Prop :=
  Forall (fun c => (c <? 256)%N = true) s.

(** A directory prefix: empty, or ending in a slash. *)
Definition prefijo_de_ruta (prefijo : str) : Prop :=
  prefijo = [] \/ exists dir, prefijo = dir ++ [47%N].

(** [nombre] is the base name of the path [ruta] without its extension:
    what follows the last slash, up to its last period when a character
    other than a period comes before that period, and whole otherwise
    (periods at the start of a name begin no extension). *)
Inductive nombre_base (ruta nombre : str) : Prop :=
| nombre_con_extension (prefijo ext : str) :
    ruta = prefijo ++ nombre ++ [46%N] ++ ext ->
    prefijo_de_ruta prefijo ->
    ~ In 47%N nombre -> ~ In 47%N ext -> ~ In 46%N ext ->
    Exists (fun c => c <> 46%N) nombre ->
    nombre_base ruta nombre
| nombre_sin_extension (prefijo puntos resto : str) :
    ruta = prefijo ++ nombre ->
    nombre = puntos ++ resto ->
    prefijo_de_ruta prefijo ->
    Forall (fun c => c = 46%N) puntos ->
    ~ In 46%N resto -> ~ In 47%N resto ->
    nombre_base ruta nombre.

(** An argument that reads SQL in some letter case. *)
Definition lee_sql (arg : str) : Prop :=
  exists x y z,
    arg = [x; y; z] /\ (x = 83%N \/ x = 115%N) /\ (y = 81%N \/ y = 113%N) /\
    (z = 76%N \/ z = 108%N).

(** A source with the block of one line inside paragraph P1, and the same
    source without that line. *)
Definition bloque_customers : str :=
  lit "EXEC SQL SELECT A, B FROM CUSTOMERS END-EXEC".

Definition fuente_sin_bloque : list str :=
  [lit "       PROCEDURE DIVISION.";
   lit "       P1.";
   lit "           PERFORM P2.";
   lit "       P2.";
   lit "           PERFORM P3."].

Definition fuente_con_bloque_en_una_linea : list str :=
  [lit "       PROCEDURE DIVISION.";
   lit "       P1.";
   lit "           " ++ bloque_customers;
   lit "           PERFORM P2.";
   lit "       P2.";
   lit "           PERFORM P3."].

(** ** Strings and dictionaries *)

Lemma str_eqb_eq (a b : str) : str_eqb a b = true <-> a = b.
Proof.
  unfold str_eqb. destruct (list_eq_dec N.eq_dec a b); split; congruence.
Qed.

Lemma str_eqb_refl (a : str) : str_eqb a a = true.
Proof. apply str_eqb_eq. reflexivity. Qed.

Lemma str_eqb_neq (a b : str) : str_eqb a b = false <-> a <> b.
Proof.
  unfold str_eqb. destruct (list_eq_dec N.eq_dec a b); split; congruence.
Qed.

Lemma pertenece_In (x : str) (xs : list str) :
  pertenece x xs = true <-> In x xs.
Proof.
  unfold pertenece. rewrite existsb_exists. split.
  - intros (y & Hy & E). apply str_eqb_eq in E. subst. exact Hy.
  - intros H. exists x. split; [exact H | apply str_eqb_refl].
Qed.

Lemma tiene_In (V : Type) (k : str) (d : dict V) :
  tiene k d = true <-> In k (claves d).
Proof.
  unfold tiene. induction d as [|[k' v] d IH]; simpl.
  - split; [discriminate | tauto].
  - destruct (str_eqb k' k) eqn:E.
    + apply str_eqb_eq in E. subst. tauto.
    + apply str_eqb_neq in E. rewrite IH. split; [tauto |].
      intros [H | H]; [contradiction | exact H].
Qed.

Lemma tiene_false (V : Type) (k : str) (d : dict V) :
  tiene k d = false <-> ~ In k (claves d).
Proof.
  rewrite <- tiene_In. destruct (tiene k d); split; congruence.
Qed.

Lemma get_ausente (V : Type) (k : str) (v0 : V) (d : dict V) :
  tiene k d = false -> get k v0 d = v0.
Proof.
  unfold tiene, get. destruct (buscar k d); [discriminate | reflexivity].
Qed.

(** ** Characters *)

Ltac partir_car :=
  repeat
    (match goal with
     | H : context [N.leb ?a ?b] |- _ => destruct (N.leb_spec a b)
     | H : context [N.eqb ?a ?b] |- _ => destruct (N.eqb_spec a b)
     | |- context [N.leb ?a ?b] => destruct (N.leb_spec a b)
     | |- context [N.eqb ?a ?b] => destruct (N.eqb_spec a b)
     end;
     simpl in *; try discriminate; try lia).

Lemma isspace_upper_char (c : char) :
  isspace c = true -> upper_char c = [c].
Proof.
  unfold isspace, upper_char, entre. intros H. partir_car; reflexivity.
Qed.

(** ** Stripping, splitting and searching *)

Lemma quitar_mientras_descompone (p : char -> bool) (s : str) :
  exists a, s = a ++ quitar_mientras p s /\ Forall (fun c => p c = true) a.
Proof.
  induction s as [|c s (a & Ha & Fa)]; simpl.
  - exists []. split; [reflexivity | constructor].
  - destruct (p c) eqn:E.
    + exists (c :: a). split; [simpl; congruence | constructor; assumption].
    + exists []. split; [reflexivity | constructor].
Qed.

Lemma quitar_mientras_todos (p : char -> bool) (s : str) :
  quitar_mientras p s = [] <-> Forall (fun c => p c = true) s.
Proof.
  induction s as [|x s IH]; simpl.
  - split; [constructor | reflexivity].
  - destruct (p x) eqn:E.
    + rewrite IH. split; [constructor; assumption | inversion 1; assumption].
    + split; [discriminate | inversion 1; congruence].
Qed.

Lemma strip_descompone (l : str) :
  exists a b, l = a ++ strip l ++ b /\ en_blanco a /\ en_blanco b.
Proof.
  unfold strip, rstrip, lstrip, en_blanco.
  destruct (quitar_mientras_descompone isspace l) as (a & Ha & Fa).
  destruct (quitar_mientras_descompone isspace (rev (quitar_mientras isspace l)))
    as (b & Hb & Fb).
  exists a, (rev b). split; [| split].
  - rewrite <- rev_app_distr, <- Hb, rev_involutive. exact Ha.
  - exact Fa.
  - apply Forall_rev. exact Fb.
Qed.

Lemma strip_vacia (l : str) : strip l = [] <-> en_blanco l.
Proof.
  split.
  - intros H. destruct (strip_descompone l) as (a & b & E & Fa & Fb).
    rewrite H in E. rewrite E. apply Forall_app. split; assumption.
  - intros H. unfold strip, rstrip, lstrip.
    apply (quitar_mientras_todos isspace) in H. rewrite H. reflexivity.
Qed.

Lemma upper_app (a b : str) : upper (a ++ b) = upper a ++ upper b.
Proof. unfold upper. apply flat_map_app. Qed.

Lemma upper_en_blanco (ws : str) : en_blanco ws -> upper ws = ws.
Proof.
  induction 1 as [|c ws Hc _ IH]; [reflexivity |].
  change (upper (c :: ws)) with (upper_char c ++ upper ws).
  rewrite (isspace_upper_char c Hc), IH. reflexivity.
Qed.

Lemma split_desde_blancos_delante (ws s : str) :
  en_blanco ws -> split_desde [] (ws ++ s) = split_desde [] s.
Proof.
  induction 1 as [|c ws Hc _ IH]; [reflexivity |].
  simpl. rewrite Hc. exact IH.
Qed.

Lemma split_desde_blancos (ws : str) :
  en_blanco ws ->
  forall actual,
    split_desde actual ws = if vacia actual then [] else [actual].
Proof.
  induction 1 as [|c ws Hc _ IH]; intros actual; [reflexivity |].
  simpl. rewrite Hc, (IH []). destruct (vacia actual); reflexivity.
Qed.

Lemma split_desde_blancos_detras (ws : str) :
  en_blanco ws ->
  forall s actual, split_desde actual (s ++ ws) = split_desde actual s.
Proof.
  intros Hws. induction s as [|c s IH]; intros actual.
  - simpl. rewrite (split_desde_blancos ws Hws).
    reflexivity.
  - simpl. destruct (isspace c); [| apply IH].
    rewrite (IH []). reflexivity.
Qed.

(** Stripping first does not change the tokens of the upper-cased line. *)
Lemma split_upper_strip (l : str) :
  split (upper (strip l)) = split (upper l).
Proof.
  destruct (strip_descompone l) as (a & b & E & Fa & Fb).
  rewrite E at 2. rewrite !upper_app.
  rewrite (upper_en_blanco a Fa), (upper_en_blanco b Fb).
  unfold split. rewrite (split_desde_blancos_delante a _ Fa).
  rewrite (split_desde_blancos_detras b Fb). reflexivity.
Qed.

Lemma startswith_iff (p s : str) :
  startswith p s = true <-> exists b, s = p ++ b.
Proof.
  revert s. induction p as [|a p IH]; intros s; simpl.
  - split; [intros _; exists s; reflexivity | reflexivity].
  - destruct s as [|x s].
    + split; [discriminate | intros (b & H); discriminate H].
    + rewrite andb_true_iff, N.eqb_eq, IH. split.
      * intros (-> & b & ->). exists b. reflexivity.
      * intros (b & H). injection H as -> ->. split; [reflexivity | exists b; reflexivity].
Qed.

Lemma contiene_iff (sub s : str) :
  contiene sub s = true <-> exists a b, s = a ++ sub ++ b.
Proof.
  induction s as [|x s IH].
  - simpl. rewrite orb_false_r, startswith_iff. split.
    + intros (b & H). exists [], b. exact H.
    + intros (a & b & H). destruct a; [exists b; exact H | discriminate H].
  - simpl. rewrite orb_true_iff, startswith_iff, IH. split.
    + intros [(b & H) | (a & b & H)].
      * exists [], b. exact H.
      * exists (x :: a), b. simpl. congruence.
    + intros (a & b & H). destruct a as [|y a].
      * left. exists b. exact H.
      * right. injection H as -> H. exists a, b. exact H.
Qed.

(** Every token of a line is a piece of the line. *)
Lemma split_desde_subcadena (s : str) :
  forall actual t,
    In t (split_desde actual s) -> exists a b, actual ++ s = a ++ t ++ b.
Proof.
  induction s as [|c s IH]; intros actual t; simpl.
  - destruct actual as [|x actual]; simpl; [tauto |].
    intros [<- | []]. exists [], []. rewrite !app_nil_r. reflexivity.
  - destruct (isspace c).
    + destruct actual as [|x actual]; simpl.
      * intros H. destruct (IH [] t H) as (a & b & E). simpl in E.
        exists (c :: a), b. simpl. congruence.
      * intros [<- | H].
        -- exists [], (c :: s). reflexivity.
        -- destruct (IH [] t H) as (a & b & E). simpl in E.
           exists ((x :: actual) ++ c :: a), b. rewrite E.
           rewrite <- !app_assoc. reflexivity.
    + intros H. destruct (IH (actual ++ [c]) t H) as (a & b & E).
      exists a, b. rewrite <- E, <- app_assoc. reflexivity.
Qed.

Lemma split_contiene (s t : str) : In t (split s) -> contiene t s = true.
Proof.
  intros H. apply contiene_iff. exact (split_desde_subcadena s [] t H).
Qed.

Lemma index_ausente (x : str) (xs : list str) :
  ~ In x xs -> index x xs = None.
Proof.
  induction xs as [|y xs IH]; simpl; [reflexivity |].
  intros H. destruct (str_eqb y x) eqn:E.
  - apply str_eqb_eq in E. tauto.
  - rewrite IH by tauto. reflexivity.
Qed.

Lemma index_primero (x : str) (pre post : list str) :
  ~ In x pre -> index x (pre ++ x :: post) = Some (length pre).
Proof.
  induction pre as [|y pre IH]; simpl; intros H.
  - rewrite str_eqb_refl. reflexivity.
  - destruct (str_eqb y x) eqn:E.
    + apply str_eqb_eq in E. tauto.
    + rewrite IH by tauto. reflexivity.
Qed.

(** ** The filter *)

(** C8: when the start name is not a key of the graph, the filter prints
    that the paragraph does not exist and returns the empty graph; it
    neither raises nor runs on. *)
Theorem filtrar_inicio_ausente (g : dict (list str)) (inicio : str) :
  ~ In inicio (claves g) ->
  RoadMap.filtrar_desde_parrafo_inicio g inicio
  = ([RoadMap.no_existe inicio], Devuelve []).
Proof.
  intros H. apply tiene_false in H.
  unfold RoadMap.filtrar_desde_parrafo_inicio. rewrite H. reflexivity.
Qed.

Lemma filtrar_inicio_ausente_testigo :
  ~ In (lit "NOPE") (claves [(lit "A", [lit "B"]); (lit "B", [lit "A"])]) /\
  RoadMap.filtrar_desde_parrafo_inicio
    [(lit "A", [lit "B"]); (lit "B", [lit "A"])] (lit "NOPE")
  = ([lit "El parrafo 'NOPE' no existe en el archivo"], Devuelve []).
Proof.
  assert (H : ~ In (lit "NOPE")
                (claves [(lit "A", [lit "B"]); (lit "B", [lit "A"])])).
  { apply tiene_false. vm_compute. reflexivity. }
  split; [exact H |].
  exact (filtrar_inicio_ausente
           [(lit "A", [lit "B"]); (lit "B", [lit "A"])] (lit "NOPE") H).
Defined.

(** The pending list never outlasts its fuel: a destination that is not a
    key brings nothing new. *)
Lemma vaciar_pendientes_no_agota (fuel : nat) :
  forall g en_res origen pendientes,
    length pendientes <= fuel ->
    RoadMap.vaciar_pendientes fuel g en_res origen pendientes <> Agotado.
Proof.
  induction fuel as [|fuel IH]; intros g en_res origen pendientes Hlen.
  - destruct pendientes; [simpl; discriminate | simpl in Hlen; lia].
  - simpl. destruct (rev pendientes) as [|destino quedan] eqn:Hrev.
    + discriminate.
    + assert (Hq : length (rev quedan) <= fuel).
      { apply (f_equal (@length _)) in Hrev. rewrite length_rev in Hrev.
        rewrite length_rev. simpl in Hrev. lia. }
      destruct (pertenece destino en_res); [apply IH; exact Hq |].
      destruct (tiene destino g) eqn:Ht.
      * destruct (pertenece origen en_res); [apply IH; exact Hq | discriminate].
      * rewrite get_ausente, app_nil_r by exact Ht. apply IH; exact Hq.
Qed.

Lemma recorrer_origenes_no_agota (origenes : list str) :
  forall g en_res, RoadMap.recorrer_origenes origenes g en_res <> Agotado.
Proof.
  induction origenes as [|o os IH]; intros g en_res; simpl.
  - discriminate.
  - destruct (RoadMap.vaciar_pendientes _ g en_res o (get o [] g)) eqn:E.
    + apply IH.
    + discriminate.
    + exfalso. revert E. apply vaciar_pendientes_no_agota. lia.
Qed.

(** The filter always ends: it returns or raises. *)
Lemma filtrar_termina (g : dict (list str)) (inicio : str) :
  snd (RoadMap.filtrar_desde_parrafo_inicio g inicio) <> Agotado.
Proof.
  unfold RoadMap.filtrar_desde_parrafo_inicio.
  destruct (negb (tiene inicio g)); [simpl; discriminate |].
  destruct (RoadMap.recorrer_origenes (claves g) g [inicio]) eqn:E; simpl;
    try discriminate.
  exfalso. revert E. apply recorrer_origenes_no_agota.
Qed.

(** C1, at the graph A -> B, B -> X started from A: the filter returns the
    single entry A with B listed twice; X, reached from A through B, is no
    node of the result. *)
Theorem filtrar_pierde_alcanzables :
  let g := [(lit "A", [lit "B"]); (lit "B", [lit "X"])] in
  let r := [(lit "A", [lit "B"; lit "B"])] in
  In (lit "A") (claves g) /\
  RoadMap.filtrar_desde_parrafo_inicio g (lit "A") = ([], Devuelve r) /\
  alcanzable g (lit "A") (lit "X") /\
  ~ nodo_de r (lit "X").
Proof.
  intros g r. split; [| split; [| split]].
  - left. reflexivity.
  - vm_compute. reflexivity.
  - apply alcanzable_paso with (b := lit "B").
    + apply alcanzable_paso with (b := lit "A"); [apply alcanzable_aqui |].
      left. reflexivity.
    + left. reflexivity.
  - intros [H | (k & Hk & H)].
    + vm_compute in H. destruct H as [H | []]. discriminate H.
    + destruct Hk as [Hk | []]. subst k. vm_compute in H.
      destruct H as [H | [H | []]]; discriminate H.
Qed.

(** The search of [obtener_parrafos_accesibles], which the scan does not
    call, does reach X on that graph. *)
Example obtener_parrafos_accesibles_alcanza :
  RoadMap.obtener_parrafos_accesibles 3
    [(lit "A", [lit "B"]); (lit "B", [lit "X"])] (lit "A")
  = Some [lit "X"; lit "B"; lit "A"].
Proof. vm_compute. reflexivity. Qed.

(** On A -> B, B -> C with C a key, started from A, the append to the
    entry of B, which the result does not have, raises [KeyError]. *)
Lemma filtrar_lanza_KeyError :
  RoadMap.filtrar_desde_parrafo_inicio
    [(lit "A", [lit "B"]); (lit "B", [lit "C"]); (lit "C", [])] (lit "A")
  = ([], Lanza (KeyError (lit "B"))).
Proof. vm_compute. reflexivity. Qed.

(** ** Ignorable lines *)

(** What [es_linea_ignorable] of RoadMap.07.py decides. *)
Lemma es_linea_ignorable_exacto (linea : str) :
  RoadMap.es_linea_ignorable linea = true <->
  linea = [] \/ (7 <= length linea /\ comentario_columna_7 linea).
Proof.
  unfold RoadMap.es_linea_ignorable, RoadMap.columna_7_es_asterisco,
    comentario_columna_7.
  rewrite orb_true_iff, andb_true_iff, Nat.leb_le.
  assert (Hv : vacia linea = true <-> linea = []).
  { destruct linea; simpl; split; congruence. }
  rewrite Hv. apply or_iff_compat_l. apply and_iff_compat_l.
  destruct (nth_error linea 6) as [x|]; [| split; discriminate].
  rewrite N.eqb_eq. split; congruence.
Qed.

(** C3, at a line of three spaces and at the line of an empty source row
    (a line feed alone): both are blank, and [es_linea_ignorable] of
    RoadMap.07.py answers false for both. *)
Theorem es_linea_ignorable_no_ve_blancos :
  en_blanco (lit "   ") /\ RoadMap.es_linea_ignorable (lit "   ") = false /\
  en_blanco [10%N] /\ RoadMap.es_linea_ignorable [10%N] = false.
Proof.
  repeat split; try reflexivity; repeat constructor.
Qed.

(** The function of the same name in RoadMapCalls.py strips the line first
    and so decides what RoadMap.07.py misses. *)
Lemma es_linea_ignorable_de_calls (linea : str) :
  RoadMapCalls.es_linea_ignorable linea = true <->
  en_blanco linea \/ (7 <= length linea /\ comentario_columna_7 linea).
Proof.
  unfold RoadMapCalls.es_linea_ignorable, comentario_columna_7.
  rewrite orb_true_iff, andb_true_iff, Nat.ltb_lt, <- strip_vacia.
  assert (Hv : forall s : str, vacia s = true <-> s = []).
  { intros [|x s]; simpl; split; congruence. }
  rewrite Hv. apply or_iff_compat_l. split; intros (H7 & H).
  - split; [lia |].
    destruct (nth_error linea 6) as [x|]; [| discriminate H].
    apply N.eqb_eq in H. unfold RoadMap.asterisco. congruence.
  - split; [lia |]. rewrite H. apply N.eqb_refl.
Qed.

(** ** The PERFORM detector *)

(** C5: on the tokens of the upper-cased line, [detectar_perform] returns
    nothing when PERFORM is no token or the last one; otherwise it takes the
    token after the first PERFORM, drops its trailing periods, and returns
    it unless it is a continuation word. *)
Theorem detectar_perform_correcto (linea : str) :
  let palabras := split (upper linea) in
  (~ In (lit "PERFORM") palabras -> RoadMap.detectar_perform linea = None) /\
  (forall antes,
     palabras = antes ++ [lit "PERFORM"] -> ~ In (lit "PERFORM") antes ->
     RoadMap.detectar_perform linea = None) /\
  (forall antes siguiente despues,
     palabras = antes ++ lit "PERFORM" :: siguiente :: despues ->
     ~ In (lit "PERFORM") antes ->
     let destino := rstrip_car 46%N siguiente in
     (In destino palabras_de_continuacion ->
      RoadMap.detectar_perform linea = None) /\
     (~ In destino palabras_de_continuacion ->
      RoadMap.detectar_perform linea = Some destino)).
Proof.
  intros palabras. unfold RoadMap.detectar_perform.
  rewrite split_upper_strip. fold palabras.
  split; [| split].
  - intros H. rewrite (index_ausente _ _ H).
    destruct (contiene _ _); reflexivity.
  - intros antes E H. rewrite E, (index_primero _ _ _ H).
    rewrite nth_error_app2 by lia.
    replace (length antes + 1 - length antes) with 1 by lia.
    destruct (contiene _ _); reflexivity.
  - intros antes siguiente despues E H. cbv zeta.
    assert (Hc : contiene (lit "PERFORM") (upper linea) = true).
    { apply split_contiene. fold palabras. rewrite E.
      apply in_or_app. right. left. reflexivity. }
    rewrite Hc, E, (index_primero _ _ _ H).
    rewrite nth_error_app2 by lia.
    replace (length antes + 1 - length antes) with 1 by lia.
    simpl nth_error. cbv beta iota.
    change RoadMap.no_destinos with palabras_de_continuacion.
    destruct (pertenece (rstrip_car 46%N siguiente) palabras_de_continuacion)
      eqn:P.
    + apply pertenece_In in P. split; [reflexivity | tauto].
    + split; [| reflexivity]. intros HP. apply pertenece_In in HP. congruence.
Qed.

Lemma detectar_perform_correcto_testigo :
  split (upper (lit "       perform p2."))
  = [] ++ lit "PERFORM" :: lit "P2." :: [] /\
  RoadMap.detectar_perform (lit "       perform p2.") = Some (lit "P2").
Proof.
  assert (E : split (upper (lit "       perform p2."))
              = [] ++ lit "PERFORM" :: lit "P2." :: []).
  { vm_compute. reflexivity. }
  split; [exact E |].
  destruct (detectar_perform_correcto (lit "       perform p2."))
    as (_ & _ & H).
  destruct (H [] (lit "P2.") [] E (fun F : False => F)) as (_ & H2).
  apply H2. vm_compute.
  intros F. repeat (destruct F as [F | F]; [discriminate F |]). exact F.
Defined.

(** ** The SQL block aggregator *)

Lemma leer_bloque_resto (archivo : list str) :
  forall bloque, length (snd (RoadMap.leer_bloque archivo bloque)) <= length archivo.
Proof.
  induction archivo as [|l ls IH]; intros bloque; simpl; [lia |].
  destruct (contiene _ _); simpl; [lia |].
  specialize (IH (bloque ++ [strip l])). lia.
Qed.

Lemma procesar_bloque_sql_resto (archivo : list str) (p : str)
    (indice : dict (list str)) :
  length (fst (RoadMap.procesar_bloque_sql archivo p indice)) <= length archivo.
Proof.
  unfold RoadMap.procesar_bloque_sql.
  pose proof (leer_bloque_resto archivo []) as H.
  destruct (RoadMap.leer_bloque archivo []) as [b r]. exact H.
Qed.

(** Handed to the aggregator as the next line of the file, the block
    [EXEC SQL SELECT A, B FROM CUSTOMERS END-EXEC] yields the single
    statement (SELECT, CUSTOMERS) and, with P1 the current paragraph, the
    one annotation [SELECT ... CUSTOMERS] in the entry of P1.  In the scan
    the line that holds EXEC SQL is read before the aggregator is called,
    so that a block written on one line never reaches it this way. *)
Lemma bloque_select_customers (resto : list str) (indice : dict (list str)) :
  let bloque := lit "EXEC SQL SELECT A, B FROM CUSTOMERS END-EXEC" in
  RoadMap.extraer_sentencias_sql bloque = [(lit "SELECT", lit "CUSTOMERS")] /\
  RoadMap.procesar_bloque_sql (bloque :: resto) (lit "P1") indice
  = (resto, anexar (lit "P1") (lit "SELECT ... CUSTOMERS") indice) /\
  RoadMap.procesar_bloque_sql (bloque :: resto) (lit "P1") []
  = (resto, [(lit "P1", [lit "SELECT ... CUSTOMERS"])]).
Proof.
  intros bloque.
  assert (E : RoadMap.extraer_sentencias_sql bloque
              = [(lit "SELECT", lit "CUSTOMERS")]).
  { vm_compute. reflexivity. }
  assert (L : RoadMap.leer_bloque (bloque :: resto) [] = ([bloque], resto)).
  { unfold RoadMap.leer_bloque.
    replace (contiene (lit "END-EXEC") (upper bloque)) with true
      by (vm_compute; reflexivity).
    replace (strip bloque) with bloque by (vm_compute; reflexivity).
    reflexivity. }
  assert (U : upper (join (lit " ") [bloque]) = bloque).
  { vm_compute. reflexivity. }
  assert (P : forall i, RoadMap.procesar_bloque_sql (bloque :: resto) (lit "P1") i
              = (resto, anexar (lit "P1") (lit "SELECT ... CUSTOMERS") i)).
  { intros i. unfold RoadMap.procesar_bloque_sql. rewrite L, U, E.
    reflexivity. }
  split; [exact E | split; [apply P |]]. rewrite P. reflexivity.
Qed.

(** ** The scan *)

Lemma recorrer_archivo_no_agota (fuel : nat) :
  forall sql archivo e,
    length archivo <= fuel ->
    RoadMap.recorrer_archivo fuel sql archivo e <> None.
Proof.
  induction fuel as [|fuel IH]; intros sql archivo e Hlen.
  - destruct archivo; [simpl; discriminate | simpl in Hlen; lia].
  - destruct archivo as [|l ls]; [simpl; discriminate |].
    simpl in Hlen. simpl.
    destruct (RoadMap.es_linea_ignorable (upper l)); [apply IH; lia |].
    destruct (sql && contiene (lit "EXEC SQL") (upper (upper l))).
    + pose proof (procesar_bloque_sql_resto ls (RoadMap.parrafo_actual e)
                    (RoadMap.selects_por_parrafo e)) as H.
      destruct (RoadMap.procesar_bloque_sql ls _ _) as [r s]. simpl in H.
      apply IH. lia.
    + apply IH. lia.
Qed.

(** The model of [analizar_cobol] never runs out of fuel: the scan returns
    a triple for every file, start paragraph and mode. *)
Lemma analizar_cobol_termina (contenido : option (list str))
    (inicio : option str) (sql : bool) :
  exists r, RoadMap.analizar_cobol contenido inicio sql = Some r.
Proof.
  unfold RoadMap.analizar_cobol. destruct contenido as [archivo|]; [| eauto].
  destruct (RoadMap.recorrer_archivo (length archivo) sql archivo
              RoadMap.estado_inicial) as [e|] eqn:E.
  - unfold RoadMap.cerrar. destruct (RoadMap.verdadero inicio) as [i|].
    + pose proof (filtrar_termina (RoadMap.llamadas e) i) as H.
      destruct (snd (RoadMap.filtrar_desde_parrafo_inicio _ i));
        [eauto | eauto | contradiction].
    + eauto.
  - exfalso. revert E. apply recorrer_archivo_no_agota. lia.
Qed.

(** With the SQL analysis off, the lines that come before the PROCEDURE
    DIVISION header change nothing: the scan goes on from the header in the
    state it started with. *)
Lemma cabecera_descartada (antes : list str) :
  forall resto fuel e,
    RoadMap.en_procedure_division e = false ->
    Forall (fun linea =>
              contiene (lit "PROCEDURE DIVISION") (upper (upper linea)) = false)
      antes ->
    RoadMap.recorrer_archivo (length antes + fuel) false (antes ++ resto) e
    = RoadMap.recorrer_archivo fuel false resto e.
Proof.
  induction antes as [|l ls IH]; intros resto fuel e He Hf; [reflexivity |].
  inversion Hf as [|? ? Hl Hls]; subst. simpl.
  destruct (RoadMap.es_linea_ignorable (upper l)); [apply IH; assumption |].
  unfold RoadMap.paso_sin_sql. rewrite He, Hl. simpl. apply IH; assumption.
Qed.

(** C2, at a source whose EXEC SQL block stands before the PROCEDURE
    DIVISION header, scanned with the SQL analysis on: the block is counted
    and its SELECT is filed under [__START__]; without the three lines of
    the block the counter is 0 and the index empty. *)
Theorem sql_antes_de_procedure_division :
  RoadMap.analizar_cobol (Some fuente_con_sql_en_cabecera) None true
  = Some ([(lit "P1", [])], 1, [(lit "__START__", [lit "SELECT ... T"])]) /\
  RoadMap.analizar_cobol (Some (skipn 3 fuente_con_sql_en_cabecera)) None true
  = Some ([(lit "P1", [])], 0, []).
Proof. split; vm_compute; reflexivity. Qed.

(** A block laid out over three lines inside paragraph P1 is counted once
    and filed under P1. *)
Lemma select_customers_en_el_fuente :
  RoadMap.analizar_cobol
    (Some [lit "       PROCEDURE DIVISION." ++ [10%N];
           lit "       P1." ++ [10%N];
           lit "           EXEC SQL" ++ [10%N];
           lit "             SELECT A, B FROM CUSTOMERS" ++ [10%N];
           lit "           END-EXEC." ++ [10%N];
           lit "           PERFORM P2." ++ [10%N];
           lit "       P2." ++ [10%N]])
    None true
  = Some ([(lit "P1", [lit "P2"]); (lit "P2", [])], 1,
          [(lit "P1", [lit "SELECT ... CUSTOMERS"])]).
Proof. vm_compute. reflexivity. Qed.

(** ** The matcher *)

Lemma ultimo_de_cons (prev : option char) (c : char) (w : str) :
  ultimo_de prev (c :: w) = ultimo_de (Some c) w.
Proof.
  unfold ultimo_de. simpl. destruct (rev w); reflexivity.
Qed.

Lemma ultimo_de_app (prev : option char) (a b : str) :
  ultimo_de prev (a ++ b) = ultimo_de (ultimo_de prev a) b.
Proof.
  revert prev. induction a as [|c a IH]; intros prev; [reflexivity |].
  simpl app. rewrite !ultimo_de_cons. apply IH.
Qed.

Lemma dentro_menos (maximo : option nat) (n : nat) :
  queda maximo = true -> dentro (menos maximo) n <-> dentro maximo (S n).
Proof.
  destruct maximo as [[|h]|]; simpl; intros H; try discriminate; split; lia || auto.
Qed.

Lemma dentro_no_queda (maximo : option nat) (n : nat) :
  queda maximo = false -> dentro maximo n -> n = 0.
Proof.
  destruct maximo as [[|h]|]; simpl; intros H; try discriminate. lia.
Qed.

Section Repeticiones.
Variable R : Type.
Variable p : char -> bool.
Variable k : option char -> str -> option R.

(** A repetition that fails has no piece to take after which the rest of
    the pattern succeeds. *)
Lemma rep_codicioso_none (s : str) :
  forall minimo maximo prev,
    rep_codicioso p minimo maximo prev s k = None ->
    forall w s', s = w ++ s' -> todos p w -> minimo <= length w ->
                 dentro maximo (length w) ->
                 k (ultimo_de prev w) s' = None.
Proof.
  induction s as [|c s IH]; intros minimo maximo prev H w s' E Fw Hlo Hhi.
  - destruct w; [| discriminate E]. simpl in E. subst s'.
    simpl in H, Hlo. replace minimo with 0 in H by lia. exact H.
  - simpl in H. destruct w as [|x w].
    + simpl in E. subst s'. simpl in Hlo. replace minimo with 0 in H by lia.
      simpl in H. destruct (p c && queda maximo); [| exact H].
      destruct (rep_codicioso p _ _ _ s k); [discriminate H | exact H].
    + simpl in E. injection E as <- E. inversion Fw as [|? ? Hx Fw']; subst.
      rewrite ultimo_de_cons. simpl in Hlo, Hhi.
      destruct (queda maximo) eqn:Q.
      * rewrite Hx in H. simpl in H.
        destruct (rep_codicioso p (pred minimo) (menos maximo) (Some c)
                    (w ++ s') k) eqn:Er; [discriminate H |].
        apply (IH _ _ _ Er w s' eq_refl Fw'); [lia |].
        apply dentro_menos; assumption.
      * apply dentro_no_queda in Hhi; [discriminate Hhi | exact Q].
Qed.

(** A repetition that succeeds took the longest piece after which the rest
    of the pattern succeeds. *)
Lemma rep_codicioso_some (s : str) :
  forall minimo maximo prev x,
    rep_codicioso p minimo maximo prev s k = Some x ->
    exists w s',
      s = w ++ s' /\ todos p w /\ minimo <= length w /\
      dentro maximo (length w) /\ k (ultimo_de prev w) s' = Some x /\
      forall w2 s2, s = w2 ++ s2 -> todos p w2 -> minimo <= length w2 ->
                    dentro maximo (length w2) -> length w < length w2 ->
                    k (ultimo_de prev w2) s2 = None.
Proof.
  induction s as [|c s IH]; intros minimo maximo prev x H.
  - simpl in H. destruct (minimo =? 0) eqn:E0; [| discriminate H].
    apply Nat.eqb_eq in E0. subst minimo.
    exists [], []. repeat split; try constructor; try exact H.
    + destruct maximo; simpl; lia || auto.
    + intros w2 s2 E. destruct w2; [simpl; lia | discriminate E].
  - simpl in H.
    assert (Hstop : (if minimo =? 0 then k prev (c :: s) else None) = Some x ->
                    (forall w2 s2, c :: s = w2 ++ s2 -> todos p w2 ->
                       minimo <= length w2 -> dentro maximo (length w2) ->
                       0 < length w2 -> k (ultimo_de prev w2) s2 = None) ->
                    exists w s',
                      c :: s = w ++ s' /\ todos p w /\ minimo <= length w /\
                      dentro maximo (length w) /\
                      k (ultimo_de prev w) s' = Some x /\
                      forall w2 s2, c :: s = w2 ++ s2 -> todos p w2 ->
                        minimo <= length w2 -> dentro maximo (length w2) ->
                        length w < length w2 ->
                        k (ultimo_de prev w2) s2 = None).
    { intros Hk Hmax. destruct (minimo =? 0) eqn:E0; [| discriminate Hk].
      apply Nat.eqb_eq in E0. subst minimo.
      exists [], (c :: s). repeat split; try constructor; try exact Hk.
      - destruct maximo; simpl; lia || auto.
      - exact Hmax. }
    destruct (p c && queda maximo) eqn:Epc.
    + apply andb_true_iff in Epc. destruct Epc as (Hc & Q).
      destruct (rep_codicioso p (pred minimo) (menos maximo) (Some c) s k)
        as [y|] eqn:Er.
      * injection H as ->.
        destruct (IH _ _ _ _ Er) as (w & s' & E & Fw & Hlo & Hhi & Hk & Hmax).
        exists (c :: w), s'. rewrite ultimo_de_cons. simpl length.
        repeat split.
        -- simpl. congruence.
        -- constructor; assumption.
        -- lia.
        -- apply dentro_menos; assumption.
        -- exact Hk.
        -- intros w2 s2 E2 Fw2 Hlo2 Hhi2 Hlen. destruct w2 as [|x2 w2];
             [simpl in Hlen; lia |].
           simpl in E2. injection E2 as <- E2. rewrite ultimo_de_cons.
           inversion Fw2; subst.
           apply (Hmax w2 s2 E2); simpl in *; try assumption; try lia.
           apply dentro_menos; assumption.
      * apply Hstop; [exact H |].
        intros w2 s2 E2 Fw2 Hlo2 Hhi2 Hlen. destruct w2 as [|x2 w2];
          [simpl in Hlen; lia |].
        simpl in E2. injection E2 as <- E2. rewrite ultimo_de_cons.
        inversion Fw2; subst.
        apply (rep_codicioso_none _ _ _ _ Er w2 s2 eq_refl);
          simpl in *; try assumption; try lia.
        apply dentro_menos; assumption.
    + apply Hstop; [exact H |].
      intros w2 s2 E2 Fw2 Hlo2 Hhi2 Hlen. destruct w2 as [|x2 w2];
        [simpl in Hlen; lia |].
      simpl in E2. injection E2 as <- E2. inversion Fw2 as [|? ? Hx ?]; subst.
      rewrite Hx in Epc. simpl in Epc.
      apply dentro_no_queda in Hhi2; [discriminate Hhi2 | exact Epc].
Qed.

Lemma rep_perezoso_none (s : str) :
  forall minimo maximo prev,
    rep_perezoso p minimo maximo prev s k = None ->
    forall w s', s = w ++ s' -> todos p w -> minimo <= length w ->
                 dentro maximo (length w) ->
                 k (ultimo_de prev w) s' = None.
Proof.
  induction s as [|c s IH]; intros minimo maximo prev H w s' E Fw Hlo Hhi.
  - destruct w; [| discriminate E]. simpl in E. subst s'.
    simpl in H, Hlo. replace minimo with 0 in H by lia. simpl in H.
    change (ultimo_de prev []) with prev.
    destruct (k prev []); [discriminate H | reflexivity].
  - simpl in H. destruct w as [|x w].
    + simpl in E. subst s'. simpl in Hlo. replace minimo with 0 in H by lia.
      simpl in H. change (ultimo_de prev []) with prev.
      destruct (k prev (c :: s)); [discriminate H | reflexivity].
    + simpl in E. injection E as <- E. inversion Fw as [|? ? Hx Fw']; subst.
      rewrite ultimo_de_cons. simpl in Hlo, Hhi.
      destruct (if minimo =? 0 then k prev (c :: w ++ s') else None);
        [discriminate H |].
      destruct (queda maximo) eqn:Q.
      * rewrite Hx in H. simpl in H.
        apply (IH _ _ _ H w s' eq_refl Fw'); [lia |].
        apply dentro_menos; assumption.
      * apply dentro_no_queda in Hhi; [discriminate Hhi | exact Q].
Qed.

Lemma rep_perezoso_some (s : str) :
  forall minimo maximo prev x,
    rep_perezoso p minimo maximo prev s k = Some x ->
    exists w s',
      s = w ++ s' /\ todos p w /\ minimo <= length w /\
      dentro maximo (length w) /\ k (ultimo_de prev w) s' = Some x.
Proof.
  induction s as [|c s IH]; intros minimo maximo prev x H.
  - simpl in H. destruct (minimo =? 0) eqn:E0.
    + apply Nat.eqb_eq in E0. subst minimo.
      destruct (k prev []) eqn:Ek; [| discriminate H]. injection H as ->.
      exists [], []. repeat split; try constructor; try exact Ek.
      destruct maximo; simpl; lia || auto.
    + discriminate H.
  - simpl in H.
    destruct (if minimo =? 0 then k prev (c :: s) else None) as [y|] eqn:Ek.
    + injection H as ->. destruct (minimo =? 0) eqn:E0; [| discriminate Ek].
      apply Nat.eqb_eq in E0. subst minimo.
      exists [], (c :: s). repeat split; try constructor; try exact Ek.
      destruct maximo; simpl; lia || auto.
    + destruct (p c && queda maximo) eqn:Epc; [| discriminate H].
      apply andb_true_iff in Epc. destruct Epc as (Hc & Q).
      destruct (IH _ _ _ _ H) as (w & s' & E & Fw & Hlo & Hhi & Hk).
      exists (c :: w), s'. rewrite ultimo_de_cons. simpl length.
      repeat split.
      * simpl. congruence.
      * constructor; assumption.
      * lia.
      * apply dentro_menos; assumption.
      * exact Hk.
Qed.

End Repeticiones.

Section Motor.
Variable R : Type.
Variable ic : bool.

(** A successful match went through a point the pattern allows. *)
Lemma casa_some (r : regex) :
  forall prev s g (k : option char -> str -> option str -> option R) x,
    casa ic r prev s g k = Some x ->
    exists prev' s' g',
      den ic r prev s g prev' s' g' /\ k prev' s' g' = Some x.
Proof.
  induction r as [| c | p | r1 IH1 r2 IH2 | r1 IH1 r2 IH2
                 | cod minimo maximo p | r1 IH1 | |];
    intros prev s g k x H; simpl in H.
  - exists prev, s, g. simpl. auto.
  - destruct s as [|y s]; [discriminate H |].
    destruct (en_clase ic (N.eqb c) y) eqn:E; [| discriminate H].
    exists (Some y), s, g. split; [| exact H]. exists y. auto.
  - destruct s as [|y s]; [discriminate H |].
    destruct (en_clase ic p y) eqn:E; [| discriminate H].
    exists (Some y), s, g. split; [| exact H]. exists y. auto.
  - destruct (IH1 _ _ _ _ _ H) as (pm & sm & gm & D1 & H2).
    destruct (IH2 _ _ _ _ _ H2) as (p' & s' & g' & D2 & Hk).
    exists p', s', g'. split; [| exact Hk]. exists pm, sm, gm. auto.
  - destruct (casa ic r1 prev s g k) as [y|] eqn:E1.
    + injection H as ->.
      destruct (IH1 _ _ _ _ _ E1) as (p' & s' & g' & D & Hk).
      exists p', s', g'. simpl. auto.
    + destruct (IH2 _ _ _ _ _ H) as (p' & s' & g' & D & Hk).
      exists p', s', g'. simpl. auto.
  - destruct cod.
    + destruct (rep_codicioso_some _ _ _ _ _ _ _ _ H)
        as (w & s' & E & Fw & Hlo & Hhi & Hk & _).
      exists (ultimo_de prev w), s', g. split; [| exact Hk].
      exists w. auto 6.
    + destruct (rep_perezoso_some _ _ _ _ _ _ _ _ H)
        as (w & s' & E & Fw & Hlo & Hhi & Hk).
      exists (ultimo_de prev w), s', g. split; [| exact Hk].
      exists w. auto 6.
  - destruct (IH1 _ _ _ _ _ H) as (p' & s' & g' & D & Hk).
    exists p', s', (Some (firstn (length s - length s') s)).
    split; [| exact Hk]. exists g'. auto.
  - destruct prev; [discriminate H |]. exists None, s, g. simpl. auto.
  - destruct (xorb _ _) eqn:E; [| discriminate H].
    exists prev, s, g. simpl. auto.
Qed.

(** A failed match means that the rest of the pattern fails at every point
    the pattern allows. *)
Lemma casa_none (r : regex) :
  forall prev s g (k : option char -> str -> option str -> option R),
    casa ic r prev s g k = None ->
    forall prev' s' g', den ic r prev s g prev' s' g' -> k prev' s' g' = None.
Proof.
  induction r as [| c | p | r1 IH1 r2 IH2 | r1 IH1 r2 IH2
                 | cod minimo maximo p | r1 IH1 | |];
    intros prev s g k H prev' s' g' D; simpl in H, D.
  - destruct D as (-> & -> & ->). exact H.
  - destruct D as (y & -> & E & -> & ->). rewrite E in H. exact H.
  - destruct D as (y & -> & E & -> & ->). rewrite E in H. exact H.
  - destruct D as (pm & sm & gm & D1 & D2).
    apply (IH2 _ _ _ _ (IH1 _ _ _ _ H _ _ _ D1) _ _ _ D2).
  - destruct (casa ic r1 prev s g k) eqn:E1; [discriminate H |].
    destruct D as [D | D]; [apply (IH1 _ _ _ _ E1 _ _ _ D) |
                            apply (IH2 _ _ _ _ H _ _ _ D)].
  - destruct D as (w & E & Fw & Hlo & Hhi & -> & ->). destruct cod.
    + apply (rep_codicioso_none _ _ _ _ _ _ _ H w s' E Fw Hlo Hhi).
    + apply (rep_perezoso_none _ _ _ _ _ _ _ H w s' E Fw Hlo Hhi).
  - destruct D as (g1 & D & ->).
    apply (IH1 _ _ _ _ H _ _ _ D).
  - destruct D as (-> & -> & -> & ->). exact H.
  - destruct D as (E & -> & -> & ->). rewrite E in H. exact H.
Qed.

End Motor.

Lemma casa_aqui_some (ic : bool) (r : regex) (prev : option char) (s : str)
    (i : nat) (m : coincidencia) :
  casa_aqui ic r prev s i = Some m ->
  comienzo m = i /\
  exists prev', den ic r prev s None prev' (despues m) (grupo1 m).
Proof.
  unfold casa_aqui. intros H.
  destruct (casa_some _ _ _ _ _ _ _ _ H) as (p' & s' & g' & D & Hk).
  injection Hk as <-. simpl. split; [reflexivity | exists p'; exact D].
Qed.

Lemma casa_aqui_none (ic : bool) (r : regex) (prev : option char) (s : str)
    (i : nat) :
  casa_aqui ic r prev s i = None ->
  forall prev' s' g', ~ den ic r prev s None prev' s' g'.
Proof.
  unfold casa_aqui. intros H prev' s' g' D.
  pose proof (casa_none _ _ _ _ _ _ _ H _ _ _ D) as Hk. discriminate Hk.
Qed.

(** [re.search] tries the starts from the left. *)
Lemma buscar_desde_none (ic : bool) (r : regex) (s : str) :
  forall prev i,
    buscar_desde ic r prev s i = None ->
    forall a b, s = a ++ b ->
                casa_aqui ic r (ultimo_de prev a) b (i + length a) = None.
Proof.
  induction s as [|c s IH]; intros prev i H a b E; simpl in H.
  - destruct a; [| discriminate E]. simpl in E. subst b.
    simpl. rewrite Nat.add_0_r. change (ultimo_de prev []) with prev.
    destruct (casa_aqui ic r prev [] i); [discriminate H | reflexivity].
  - destruct (casa_aqui ic r prev (c :: s) i) eqn:E0; [discriminate H |].
    destruct a as [|x a].
    + simpl in E. subst b. simpl. rewrite Nat.add_0_r. exact E0.
    + simpl in E. injection E as <- E. rewrite ultimo_de_cons. simpl length.
      rewrite Nat.add_succ_r. apply (IH _ _ H a b E).
Qed.

Lemma buscar_desde_some (ic : bool) (r : regex) (s : str) :
  forall prev i m,
    buscar_desde ic r prev s i = Some m ->
    exists a b,
      s = a ++ b /\
      casa_aqui ic r (ultimo_de prev a) b (i + length a) = Some m /\
      forall a' b', s = a' ++ b' -> length a' < length a ->
        casa_aqui ic r (ultimo_de prev a') b' (i + length a') = None.
Proof.
  induction s as [|c s IH]; intros prev i m H; simpl in H.
  - destruct (casa_aqui ic r prev [] i) eqn:E0; [| discriminate H].
    injection H as ->. exists [], []. simpl. rewrite Nat.add_0_r.
    repeat split; [exact E0 |]. intros a' b' _ Hl. lia.
  - destruct (casa_aqui ic r prev (c :: s) i) eqn:E0.
    + injection H as ->. exists [], (c :: s). simpl. rewrite Nat.add_0_r.
      repeat split; [exact E0 |]. intros a' b' _ Hl. lia.
    + destruct (IH _ _ _ H) as (a & b & E & Hm & Hmin).
      exists (c :: a), b. rewrite ultimo_de_cons. simpl length.
      rewrite Nat.add_succ_r. repeat split.
      * simpl. congruence.
      * exact Hm.
      * intros a' b' E' Hl. destruct a' as [|x a'].
        -- simpl in E'. subst b'. simpl. rewrite Nat.add_0_r. exact E0.
        -- simpl in E'. injection E' as <- E'. rewrite ultimo_de_cons.
           simpl length. rewrite Nat.add_succ_r. apply (Hmin a' b' E').
           simpl in Hl. lia.
Qed.

(** ** Pieces of the patterns *)

Lemma en_clase_false (p : char -> bool) (x : char) : en_clase false p x = p x.
Proof. unfold en_clase. simpl. apply orb_false_r. Qed.

Lemma todos_en_clase_false (p : char -> bool) (w : str) :
  todos (en_clase false p) w <-> todos p w.
Proof.
  unfold todos. rewrite !Forall_forall.
  split; intros H x Hx; specialize (H x Hx); rewrite en_clase_false in *;
    exact H.
Qed.

Lemma firstn_tomado (w s : str) :
  firstn (length (w ++ s) - length s) (w ++ s) = w.
Proof.
  rewrite length_app. replace (length w + length s - length s) with (length w) by lia.
  rewrite firstn_app, Nat.sub_diag, firstn_all. simpl. apply app_nil_r.
Qed.

(** A literal text matches itself, character by character. *)
Lemma den_texto (t : str) :
  forall prev s g prev' s' g',
    den false (texto t) prev s g prev' s' g' ->
    s = t ++ s' /\ prev' = ultimo_de prev t /\ g' = g.
Proof.
  induction t as [|c t IH]; intros prev s g prev' s' g' D.
  - simpl in D. destruct D as (-> & -> & ->). auto.
  - assert (Hc : forall q, (exists x, s = x :: q /\ en_clase false (N.eqb c) x = true /\
                             prev' = Some x /\ g' = g) ->
                      s = c :: q /\ prev' = Some c /\ g' = g).
    { intros q (x & -> & E & -> & ->). rewrite en_clase_false in E.
      apply N.eqb_eq in E. subst x. auto. }
    destruct t as [|c2 t].
    + simpl in D. destruct (Hc _ D) as (-> & -> & ->). auto.
    + change (texto (c :: c2 :: t)) with (Cat (Car c) (texto (c2 :: t))) in D.
      simpl den in D. destruct D as (pm & sm & gm & (x & -> & E & -> & ->) & D2).
      rewrite en_clase_false in E. apply N.eqb_eq in E. subst x.
      destruct (IH _ _ _ _ _ _ D2) as (-> & -> & ->).
      rewrite !ultimo_de_cons. auto.
Qed.

Section Avance.
Variable R : Type.

(** Running a literal text over itself. *)
Lemma casa_texto (t : str) :
  forall prev s g (k : option char -> str -> option str -> option R),
    t <> [] ->
    casa false (texto t) prev (t ++ s) g k = k (ultimo_de prev t) s g.
Proof.
  induction t as [|c t IH]; intros prev s g k Hn; [congruence |].
  destruct t as [|c2 t].
  - simpl. rewrite en_clase_false, N.eqb_refl. reflexivity.
  - change (texto (c :: c2 :: t)) with (Cat (Car c) (texto (c2 :: t))).
    simpl casa. rewrite en_clase_false, N.eqb_refl.
    rewrite ultimo_de_cons.
    change (c2 :: t ++ s) with ((c2 :: t) ++ s).
    apply IH. discriminate.
Qed.

(** A greedy repetition takes its longest run first: when the run cannot
    go on and the rest of the pattern succeeds after it, that is the
    result. *)
Lemma rep_codicioso_largo (p : char -> bool)
    (k : option char -> str -> option R) (w : str) :
  forall minimo maximo prev s x,
    todos p w -> minimo <= length w -> dentro maximo (length w) ->
    match s with y :: _ => p y = false | [] => True end ->
    k (ultimo_de prev w) s = Some x ->
    rep_codicioso p minimo maximo prev (w ++ s) k = Some x.
Proof.
  induction w as [|c w IH]; intros minimo maximo prev s x Fw Hlo Hhi Hs Hk.
  - simpl in Hlo. replace minimo with 0 by lia. simpl app.
    change (ultimo_de prev []) with prev in Hk.
    destruct s as [|y s]; simpl; [exact Hk |].
    rewrite Hs. simpl. exact Hk.
  - inversion Fw as [|? ? Hc Fw']; subst. simpl in Hlo, Hhi.
    rewrite ultimo_de_cons in Hk. simpl.
    assert (Q : queda maximo = true).
    { destruct maximo as [[|h]|]; simpl in *; try reflexivity; lia. }
    rewrite Hc, Q. simpl.
    rewrite (IH (pred minimo) (menos maximo) (Some c) s x); try assumption.
    + reflexivity.
    + lia.
    + apply dentro_menos; assumption.
Qed.

End Avance.


Lemma den_cat (ic : bool) (r1 r2 : regex) (prev : option char) (s : str)
    (g : option str) (prev' : option char) (s' : str) (g' : option str) :
  den ic (Cat r1 r2) prev s g prev' s' g' ->
  exists pm sm gm,
    den ic r1 prev s g pm sm gm /\ den ic r2 pm sm gm prev' s' g'.
Proof. exact (fun H => H). Qed.

Lemma den_rep (cod : bool) (minimo : nat) (maximo : option nat)
    (p : char -> bool) (prev : option char) (s : str) (g : option str)
    (prev' : option char) (s' : str) (g' : option str) :
  den false (Rep cod minimo maximo p) prev s g prev' s' g' ->
  exists w, s = w ++ s' /\ todos p w /\ minimo <= length w /\
            dentro maximo (length w) /\ prev' = ultimo_de prev w /\ g' = g.
Proof.
  intros (w & E & Fw & H). exists w. rewrite todos_en_clase_false in Fw. auto.
Qed.

Lemma den_car (c : char) (prev : option char) (s : str) (g : option str)
    (prev' : option char) (s' : str) (g' : option str) :
  den false (Car c) prev s g prev' s' g' ->
  s = c :: s' /\ prev' = Some c /\ g' = g.
Proof.
  intros (x & -> & E & -> & ->). rewrite en_clase_false in E.
  apply N.eqb_eq in E. subst x. auto.
Qed.

Lemma den_espacios (prev : option char) (s : str) (g : option str)
    (prev' : option char) (s' : str) (g' : option str) :
  den false RoadMapCalls.espacios prev s g prev' s' g' ->
  exists w, s = w ++ s' /\ blancos w /\ prev' = ultimo_de prev w /\ g' = g.
Proof.
  intros D. apply den_rep in D. destruct D as (w & E & Fw & Hlo & _ & P & G).
  exists w. repeat split; try assumption.
  intros ->. simpl in Hlo. lia.
Qed.

Lemma comilla_o_nada_todos (q : str) :
  todos RoadMapCalls.comilla q -> length q <= 1 -> comilla_o_nada q.
Proof.
  intros Fq Hl. destruct q as [|c [|c2 q]]; [left; reflexivity | | simpl in Hl; lia].
  inversion Fq as [|? ? Hc _]; subst. unfold RoadMapCalls.comilla in Hc.
  apply orb_true_iff in Hc. rewrite !N.eqb_eq in Hc.
  destruct Hc as [-> | ->]; [right; left | right; right]; reflexivity.
Qed.

Lemma den_comilla (prev : option char) (s : str) (g : option str)
    (prev' : option char) (s' : str) (g' : option str) :
  den false RoadMapCalls.comilla_opcional prev s g prev' s' g' ->
  exists q, s = q ++ s' /\ comilla_o_nada q /\ g' = g.
Proof.
  intros D. apply den_rep in D. destruct D as (q & E & Fq & _ & Hhi & _ & G).
  exists q. repeat split; try assumption.
  apply comilla_o_nada_todos; assumption.
Qed.

Lemma den_nombre (prev : option char) (s : str) (g : option str)
    (prev' : option char) (s' : str) (g' : option str) :
  den false RoadMapCalls.nombre_modulo prev s g prev' s' g' ->
  exists n, s = n ++ s' /\ es_nombre n /\ g' = Some n.
Proof.
  intros (g1 & D & ->). apply den_rep in D.
  destruct D as (n & -> & Fn & Hlo & _ & _ & _).
  exists n. rewrite firstn_tomado. repeat split; try assumption.
  intros ->. simpl in Hlo. lia.
Qed.

(** What a match of the CALL pattern has read. *)
Lemma den_patron_call (prev : option char) (s : str)
    (prev' : option char) (s' : str) (g' : option str) :
  den false RoadMapCalls.patron_call prev s None prev' s' g' ->
  palabra_en prev = false /\
  exists b q nombre resto,
    s = lit "CALL" ++ b ++ q ++ nombre ++ resto /\
    blancos b /\ comilla_o_nada q /\ es_nombre nombre /\ g' = Some nombre.
Proof.
  unfold RoadMapCalls.patron_call. intros D.
  apply den_cat in D. destruct D as (p1 & s1 & g1 & (Hb & -> & -> & ->) & D).
  apply den_cat in D. destruct D as (p2 & s2 & g2 & D2 & D).
  apply den_texto in D2. destruct D2 as (-> & -> & ->).
  apply den_cat in D. destruct D as (p3 & s3 & g3 & D3 & D).
  apply den_espacios in D3. destruct D3 as (b & -> & Hbl & -> & ->).
  apply den_cat in D. destruct D as (p4 & s4 & g4 & D4 & D).
  apply den_comilla in D4. destruct D4 as (q & -> & Hq & ->).
  apply den_cat in D. destruct D as (p5 & s5 & g5 & D5 & D).
  apply den_nombre in D5. destruct D5 as (n & -> & Hn & ->).
  apply den_comilla in D. destruct D as (q2 & -> & _ & ->).
  split.
  - simpl in Hb. destruct (palabra_en prev); [discriminate Hb | reflexivity].
  - exists b, q, n, (q2 ++ s'). auto 6.
Qed.

(** What a match of the CICS pattern has read. *)
Lemma den_patron_cics (prev : option char) (s : str)
    (prev' : option char) (s' : str) (g' : option str) :
  den false RoadMapCalls.patron_cics prev s None prev' s' g' ->
  exists nombre, orden_cics_aqui s nombre s' /\ g' = Some nombre.
Proof.
  unfold RoadMapCalls.patron_cics. intros D.
  apply den_cat in D. destruct D as (p1 & s1 & g1 & D1 & D).
  apply den_texto in D1. destruct D1 as (-> & -> & ->).
  apply den_cat in D. destruct D as (p2 & s2 & g2 & D2 & D).
  apply den_espacios in D2. destruct D2 as (b1 & -> & Hb1 & -> & ->).
  apply den_cat in D. destruct D as (p3 & s3 & g3 & D3 & D).
  apply den_texto in D3. destruct D3 as (-> & -> & ->).
  apply den_cat in D. destruct D as (p4 & s4 & g4 & D4 & D).
  apply den_espacios in D4. destruct D4 as (b2 & -> & Hb2 & -> & ->).
  apply den_cat in D. destruct D as (p5 & s5 & g5 & D5 & D).
  assert (Hv : exists verbo,
             In verbo [lit "LINK"; lit "START"; lit "INVOKE"] /\
             s4 = verbo ++ s5 /\ g5 = None).
  { destruct D5 as [D5 | [D5 | D5]]; apply den_texto in D5;
      destruct D5 as (-> & _ & ->);
      [exists (lit "LINK") | exists (lit "START") | exists (lit "INVOKE")];
      simpl; auto. }
  destruct Hv as (verbo & Hv & -> & ->). clear D5.
  apply den_cat in D. destruct D as (p6 & s6 & g6 & D6 & D).
  apply den_espacios in D6. destruct D6 as (b3 & -> & Hb3 & -> & ->).
  apply den_cat in D. destruct D as (p7 & s7 & g7 & D7 & D).
  apply den_texto in D7. destruct D7 as (-> & -> & ->).
  apply den_cat in D. destruct D as (p8 & s8 & g8 & D8 & D).
  apply den_rep in D8. destruct D8 as (b4 & -> & Hb4 & _ & _ & -> & ->).
  apply den_cat in D. destruct D as (p9 & s9 & g9 & D9 & D).
  apply den_car in D9. destruct D9 as (-> & -> & ->).
  apply den_cat in D. destruct D as (p10 & s10 & g10 & D10 & D).
  apply den_comilla in D10. destruct D10 as (q1 & -> & Hq1 & ->).
  apply den_cat in D. destruct D as (p11 & s11 & g11 & D11 & D).
  apply den_nombre in D11. destruct D11 as (n & -> & Hn & ->).
  apply den_cat in D. destruct D as (p12 & s12 & g12 & D12 & D).
  apply den_comilla in D12. destruct D12 as (q2 & -> & Hq2 & ->).
  apply den_car in D. destruct D as (-> & -> & ->).
  exists n. split; [| reflexivity].
  exists b1, b2, verbo, b3, b4, q1, q2. repeat split; try assumption;
    try apply Hb1; try apply Hb2; try apply Hb3; try apply Hn.
Qed.

Section AvancePatron.
Variable R : Type.
Variable k : option char -> str -> option str -> option R.

Lemma avance_texto (t : str) (r : regex) (prev : option char) (s : str)
    (g : option str) :
  t <> [] ->
  casa false (Cat (texto t) r) prev (t ++ s) g k
  = casa false r (ultimo_de prev t) s g k.
Proof. intros Hn. simpl. apply casa_texto. exact Hn. Qed.

Lemma avance_car (c : char) (r : regex) (prev : option char) (s : str)
    (g : option str) :
  casa false (Cat (Car c) r) prev (c :: s) g k = casa false r (Some c) s g k.
Proof. simpl. rewrite en_clase_false, N.eqb_refl. reflexivity. Qed.

Lemma avance_rep (p : char -> bool) (minimo : nat) (maximo : option nat)
    (r : regex) (w s : str) (prev : option char) (g : option str) (x : R) :
  todos p w -> minimo <= length w -> dentro maximo (length w) ->
  no_sigue p s ->
  casa false r (ultimo_de prev w) s g k = Some x ->
  casa false (Cat (Rep true minimo maximo p) r) prev (w ++ s) g k = Some x.
Proof.
  intros Fw Hlo Hhi Hs Hk. simpl.
  apply rep_codicioso_largo; try assumption.
  - apply todos_en_clase_false. exact Fw.
  - destruct s; [exact I |]. rewrite en_clase_false. exact Hs.
Qed.

Lemma avance_grupo_rep (p : char -> bool) (minimo : nat)
    (maximo : option nat) (r : regex) (w s : str) (prev : option char)
    (g : option str) (x : R) :
  todos p w -> minimo <= length w -> dentro maximo (length w) ->
  no_sigue p s ->
  casa false r (ultimo_de prev w) s (Some w) k = Some x ->
  casa false (Cat (Grupo (Rep true minimo maximo p)) r) prev (w ++ s) g k
  = Some x.
Proof.
  intros Fw Hlo Hhi Hs Hk. simpl.
  apply rep_codicioso_largo; try assumption.
  - apply todos_en_clase_false. exact Fw.
  - destruct s; [exact I |]. rewrite en_clase_false. exact Hs.
  - rewrite firstn_tomado. exact Hk.
Qed.

Lemma avance_alt_izq (r1 r2 r : regex) (prev : option char) (s : str)
    (g : option str) (x : R) :
  casa false r1 prev s g (fun p' s' g' => casa false r p' s' g' k) = Some x ->
  casa false (Cat (Alt r1 r2) r) prev s g k = Some x.
Proof. intros H. simpl. rewrite H. reflexivity. Qed.

Lemma avance_alt_der (r1 r2 r : regex) (prev : option char) (s : str)
    (g : option str) :
  casa false r1 prev s g (fun p' s' g' => casa false r p' s' g' k) = None ->
  casa false (Cat (Alt r1 r2) r) prev s g k
  = casa false (Cat r2 r) prev s g k.
Proof. intros H. simpl. rewrite H. reflexivity. Qed.

End AvancePatron.

Lemma palabra_o_guion_no_comilla (c : char) :
  RoadMapCalls.palabra_o_guion c = true -> RoadMapCalls.comilla c = false.
Proof.
  unfold RoadMapCalls.palabra_o_guion, RoadMapCalls.comilla, es_palabra, entre.
  intros H. partir_car; reflexivity.
Qed.

(** The CICS pattern, run at the start of an order, reads the order and
    keeps its name. *)
Lemma casa_orden_cics (s nombre resto : str) (prev : option char) (i : nat) :
  orden_cics_aqui s nombre resto ->
  casa_aqui false RoadMapCalls.patron_cics prev s i
  = Some (Coincide i resto (Some nombre)).
Proof.
  intros (b1 & b2 & verbo & b3 & b4 & q1 & q2 & -> & (N1 & B1) & (N2 & B2)
          & Hv & (N3 & B3) & B4 & Q1 & Q2 & (Nn & Fn)).
  unfold casa_aqui, RoadMapCalls.patron_cics.
  rewrite avance_texto by discriminate.
  assert (L1 : forall w : str, w <> [] -> 1 <= length w).
  { intros [|? ?] H; [congruence | simpl; lia]. }
  apply avance_rep; try assumption; [apply L1; exact N1 | exact I | reflexivity |].
  rewrite avance_texto by discriminate.
  apply avance_rep; try assumption; [apply L1; exact N2 | exact I | |].
  { destruct Hv as [<- | [<- | [<- | []]]]; reflexivity. }
  set (cola := (RoadMapCalls.espacios >> texto (lit "PROGRAM")
                >> Rep true 0 None isspace >> Car 40%N
                >> RoadMapCalls.comilla_opcional >> RoadMapCalls.nombre_modulo
                >> RoadMapCalls.comilla_opcional >> Car 41%N)%regex).
  assert (Hcola : forall p0,
            casa false cola p0
              (b3 ++ lit "PROGRAM" ++ b4 ++ [40%N] ++ q1 ++ nombre ++ q2
               ++ [41%N] ++ resto) None
              (fun _ s' g => Some (Coincide i s' g))
            = Some (Coincide i resto (Some nombre))).
  { intros p0. unfold cola, RoadMapCalls.espacios.
    apply avance_rep; try assumption; [apply L1; exact N3 | exact I | reflexivity |].
    rewrite avance_texto by discriminate.
    apply avance_rep; try assumption; [lia | exact I | reflexivity |].
    change ([40%N] ++ q1 ++ nombre ++ q2 ++ [41%N] ++ resto)
      with (40%N :: q1 ++ nombre ++ q2 ++ [41%N] ++ resto).
    rewrite avance_car.
    assert (Hq : forall q, comilla_o_nada q ->
                   todos RoadMapCalls.comilla q /\ dentro (Some 1) (length q)).
    { intros q [-> | [-> | ->]]; split; simpl; try lia; repeat constructor. }
    unfold RoadMapCalls.comilla_opcional.
    apply avance_rep; try apply Hq; try assumption; [lia | |].
    { destruct nombre as [|c n]; [congruence |]. simpl.
      apply palabra_o_guion_no_comilla. inversion Fn; assumption. }
    unfold RoadMapCalls.nombre_modulo.
    apply avance_grupo_rep; try assumption; [apply L1; exact Nn | exact I | |].
    { destruct Q2 as [-> | [-> | ->]]; reflexivity. }
    assert (Hfin : forall p1,
              casa false (Rep true 0 (Some 1) RoadMapCalls.comilla >> Car 41%N)%regex
                p1 (q2 ++ [41%N] ++ resto) (Some nombre)
                (fun _ s' g => Some (Coincide i s' g))
              = Some (Coincide i resto (Some nombre))).
    { intros p1. apply avance_rep; try apply Hq; try assumption;
        [lia | reflexivity |].
      reflexivity. }
    apply Hfin. }
  destruct Hv as [<- | [<- | [<- | []]]].
  - apply avance_alt_izq. rewrite casa_texto by discriminate. apply Hcola.
  - rewrite avance_alt_der by reflexivity.
    apply avance_alt_izq. rewrite casa_texto by discriminate. apply Hcola.
  - rewrite avance_alt_der by reflexivity.
    rewrite avance_alt_der by reflexivity.
    rewrite avance_texto by discriminate. apply Hcola.
Qed.

(** ** The CALL and CICS detector *)

Lemma app_igual_largo (A : Type) (a a' b b' : list A) :
  a ++ b = a' ++ b' -> length a = length a' -> a = a' /\ b = b'.
Proof.
  revert a'. induction a as [|x a IH]; intros [|y a'] E Hl;
    simpl in *; try discriminate; auto.
  injection E as -> E. destruct (IH a' E) as (-> & ->); auto.
Qed.

Lemma den_texto_intro (t : str) :
  forall prev s g, den false (texto t) prev (t ++ s) g (ultimo_de prev t) s g.
Proof.
  induction t as [|c t IH]; intros prev s g.
  - simpl. auto.
  - destruct t as [|c2 t].
    + simpl. exists c. rewrite en_clase_false, N.eqb_refl. auto.
    + change (texto (c :: c2 :: t)) with (Cat (Car c) (texto (c2 :: t))).
      exists (Some c), ((c2 :: t) ++ s), g. split.
      * exists c. rewrite en_clase_false, N.eqb_refl. auto.
      * rewrite ultimo_de_cons. apply IH.
Qed.

(** A CALL order is what the CALL pattern finds. *)
Lemma re_search_orden_call (u : str) :
  orden_call u <-> re_search false RoadMapCalls.patron_call u <> None.
Proof.
  split.
  - intros (antes & b & q & n & resto & -> & Hp & (Nb & Bb) & Hq & (Nn & Fn)) H.
    pose proof (buscar_desde_none _ _ _ _ _ H antes _ eq_refl) as H0.
    revert H0. unfold casa_aqui. intros H0.
    assert (D : exists p',
                den false RoadMapCalls.patron_call (ultimo_de None antes)
                  (lit "CALL" ++ b ++ q ++ n ++ resto) None p' resto (Some n)).
    { eexists.
      exists (ultimo_de None antes), (lit "CALL" ++ b ++ q ++ n ++ resto), None.
      split; [simpl; rewrite Hp; auto |].
      eexists _, _, _. split; [apply den_texto_intro |].
      eexists _, _, _. split.
      { exists b. repeat split.
        - apply todos_en_clase_false. exact Bb.
        - destruct b; [congruence | simpl; lia]. }
      eexists _, _, _. split.
      { exists q. repeat split.
        - apply todos_en_clase_false.
          destruct Hq as [-> | [-> | ->]]; repeat constructor.
        - lia.
        - destruct Hq as [-> | [-> | ->]]; simpl; lia. }
      eexists _, _, _. split.
      { exists None. split; [| rewrite firstn_tomado; reflexivity].
        exists n. repeat split.
        - apply todos_en_clase_false. exact Fn.
        - destruct n; [congruence | simpl; lia]. }
      exists []. repeat split; try constructor. simpl. lia. }
    destruct D as (p' & D).
    pose proof (casa_none _ _ _ _ _ _ _ H0 _ _ _ D) as F. discriminate F.
  - intros H. destruct (re_search false RoadMapCalls.patron_call u) as [m|] eqn:E;
      [| congruence].
    apply buscar_desde_some in E. destruct E as (a & b & -> & Hm & _).
    apply casa_aqui_some in Hm. destruct Hm as (_ & p' & D).
    apply den_patron_call in D.
    destruct D as (Hp & b0 & q & n & resto & -> & Hb & Hq & Hn & _).
    exists a, b0, q, n, resto. auto 6.
Qed.

(** The first CICS order of a line is where the CICS pattern is found. *)
Lemma re_search_primera_orden_cics (u : str) (m : coincidencia) :
  re_search false RoadMapCalls.patron_cics u = Some m ->
  forall antes nombre, orden_cics antes u nombre -> comienzo m <= length antes.
Proof.
  intros E antes nombre (s & resto & -> & Ho).
  apply buscar_desde_some in E. destruct E as (a & b & Eu & Hm & Hmin).
  destruct (casa_aqui_some _ _ _ _ _ _ Hm) as (Hc & _). rewrite Hc. simpl.
  destruct (Nat.le_gt_cases (length a) (length antes)) as [Hle | Hgt];
    [exact Hle |].
  exfalso. pose proof (Hmin antes s eq_refl Hgt) as F.
  rewrite (casa_orden_cics _ _ _ _ _ Ho) in F. discriminate F.
Qed.

(** C7, as amended: on a line with no CALL order, whose first order EXEC
    CICS LINK (or START or INVOKE) PROGRAM(...) names [nombre],
    [detectar_call] returns [nombre] with the prefix CICS-, which is not
    the bare name. *)
Theorem detectar_call_cics (linea antes nombre : str) :
  ~ orden_call (upper linea) ->
  orden_cics antes (upper linea) nombre ->
  (forall antes' nombre',
     orden_cics antes' (upper linea) nombre' -> length antes <= length antes') ->
  RoadMapCalls.detectar_call linea = Some (lit "CICS-" ++ nombre) /\
  lit "CICS-" ++ nombre <> nombre.
Proof.
  intros Hcall Ho Hmin. split.
  - unfold RoadMapCalls.detectar_call.
    destruct (re_search false RoadMapCalls.patron_call (upper linea)) eqn:Ec.
    { exfalso. apply Hcall. apply re_search_orden_call. congruence. }
    destruct Ho as (s & resto & Eu & Ho).
    pose proof (casa_orden_cics _ _ _ (ultimo_de None antes) (0 + length antes) Ho)
      as Haqui.
    destruct (re_search false RoadMapCalls.patron_cics (upper linea))
      as [m|] eqn:Em.
    + apply buscar_desde_some in Em. destruct Em as (a & b & Eab & Hm & Hprev).
      assert (Hlen : length a = length antes).
      { destruct (Nat.lt_trichotomy (length a) (length antes)) as [Hl | [He | Hg]].
        - exfalso. apply casa_aqui_some in Hm. destruct Hm as (_ & p' & D).
          apply den_patron_cics in D. destruct D as (n' & Ho' & _).
          assert (Hx : orden_cics a (upper linea) n').
          { exists b, (despues m). auto. }
          specialize (Hmin a n' Hx). lia.
        - exact He.
        - exfalso. rewrite (Hprev antes s Eu Hg) in Haqui. discriminate Haqui. }
      rewrite Eu in Eab.
      destruct (app_igual_largo _ _ _ _ _ Eab (eq_sym Hlen)) as (Ea & Eb).
      subst a b.
      rewrite Haqui in Hm. injection Hm as <-. reflexivity.
    + exfalso. pose proof (buscar_desde_none _ _ _ _ _ Em antes s Eu) as F.
      rewrite Haqui in F. discriminate F.
  - intros E. apply (f_equal (@length _)) in E. rewrite length_app in E.
    simpl in E. lia.
Qed.

Lemma orden_cics_de_linea (resto : str) :
  orden_cics (lit "           ")
    (lit "           EXEC CICS LINK PROGRAM('PGMX')" ++ resto) (lit "PGMX").
Proof.
  exists (lit "EXEC CICS LINK PROGRAM('PGMX')" ++ resto), resto.
  split; [reflexivity |].
  exists (lit " "), (lit " "), (lit "LINK"), (lit " "), [], [39%N], [39%N].
  assert (B : blancos (lit " ")) by (split; [discriminate | repeat constructor]).
  split; [reflexivity |].
  split; [exact B |]. split; [exact B |].
  split; [left; reflexivity |].
  split; [exact B |]. split; [constructor |].
  split; [right; left; reflexivity |]. split; [right; left; reflexivity |].
  split; [discriminate | repeat constructor].
Qed.

Lemma detectar_call_cics_testigo :
  ~ orden_call (upper linea_cics) /\
  orden_cics (lit "           ") (upper linea_cics) (lit "PGMX") /\
  RoadMapCalls.detectar_call linea_cics = Some (lit "CICS-" ++ lit "PGMX").
Proof.
  assert (H1 : ~ orden_call (upper linea_cics)).
  { intros H. apply re_search_orden_call in H. apply H.
    vm_compute. reflexivity. }
  assert (H2 : orden_cics (lit "           ") (upper linea_cics) (lit "PGMX")).
  { exact (orden_cics_de_linea (lit " END-EXEC")). }
  assert (H3 : forall antes' nombre',
             orden_cics antes' (upper linea_cics) nombre' ->
             length (lit "           ") <= length antes').
  { intros a n Ho.
    assert (E : re_search false RoadMapCalls.patron_cics (upper linea_cics)
                = Some (Coincide 11 (lit " END-EXEC") (Some (lit "PGMX")))).
    { vm_compute. reflexivity. }
    exact (re_search_primera_orden_cics _ _ E a n Ho). }
  split; [exact H1 | split; [exact H2 |]].
  exact (proj1 (detectar_call_cics linea_cics (lit "           ") (lit "PGMX")
                  H1 H2 H3)).
Defined.

(** C7 as stated fails on a line that also holds a CALL: the CALL pattern
    is tried first, and its target is returned without prefix. *)
Lemma detectar_call_prefiere_call :
  orden_cics (lit "           ") (upper linea_cics_y_call) (lit "PGMX") /\
  RoadMapCalls.detectar_call linea_cics_y_call = Some (lit "PGMA") /\
  RoadMapCalls.detectar_call linea_cics_y_call
  <> Some (lit "CICS-" ++ lit "PGMX").
Proof.
  split; [exact (orden_cics_de_linea (lit " END-EXEC. CALL 'PGMA'")) |].
  assert (E : RoadMapCalls.detectar_call linea_cics_y_call = Some (lit "PGMA")).
  { vm_compute. reflexivity. }
  split; [exact E |]. rewrite E. discriminate.
Qed.

(** What [detectar_call] returns is never the empty string. *)
Lemma detectar_call_no_vacio (linea destino : str) :
  RoadMapCalls.detectar_call linea = Some destino -> destino <> [].
Proof.
  unfold RoadMapCalls.detectar_call.
  destruct (re_search false RoadMapCalls.patron_call (upper linea))
    as [m|] eqn:E.
  - intros H. injection H as <-.
    apply buscar_desde_some in E. destruct E as (a & b & _ & Hm & _).
    apply casa_aqui_some in Hm. destruct Hm as (_ & p' & D).
    apply den_patron_call in D.
    destruct D as (_ & b0 & q & n & resto & _ & _ & _ & (Hn & _) & Hg).
    unfold group. rewrite Hg. exact Hn.
  - destruct (re_search false RoadMapCalls.patron_cics (upper linea));
      [| discriminate].
    intros H. injection H as <-. discriminate.
Qed.

(** ** The external-call analyzer *)

Lemma anexar_de_un_origen (origen x : str) (destinos : list str) :
  anexar origen x (de_un_origen origen destinos)
  = de_un_origen origen (destinos ++ [x]).
Proof.
  destruct destinos as [|d ds]; [reflexivity |].
  unfold anexar, get. simpl. rewrite str_eqb_refl. reflexivity.
Qed.

Lemma recorrer_archivo_calls (origen : str) (archivo : list str) :
  forall destinos,
    RoadMapCalls.recorrer_archivo origen archivo (de_un_origen origen destinos)
    = de_un_origen origen (destinos ++ destinos_detectados archivo).
Proof.
  induction archivo as [|l ls IH]; intros destinos.
  - simpl. rewrite app_nil_r. reflexivity.
  - simpl. destruct (RoadMapCalls.es_linea_ignorable (upper l)).
    + apply IH.
    + destruct (RoadMapCalls.detectar_call (upper l)) as [d|] eqn:E.
      * pose proof (detectar_call_no_vacio _ _ E) as Hn.
        destruct d as [|c d]; [congruence |].
        rewrite anexar_de_un_origen, IH, <- app_assoc. reflexivity.
      * apply IH.
Qed.

(** The mapping returned for a source has no key when no target is
    detected and otherwise the single key [origen_de ruta], whose list
    holds the detected targets, upper-cased, in line order; a source that
    cannot be opened gives the empty mapping.  The key is left as the
    code computes it. *)
Lemma analizar_cobol_un_origen (ruta : str) (archivo : list str) :
  let r := RoadMapCalls.analizar_cobol ruta (Some archivo) in
  r = de_un_origen (RoadMapCalls.origen_de ruta) (destinos_detectados archivo) /\
  length (claves r) <= 1 /\
  (forall k, In k (claves r) -> k = RoadMapCalls.origen_de ruta) /\
  get (RoadMapCalls.origen_de ruta) [] r = destinos_detectados archivo /\
  RoadMapCalls.analizar_cobol ruta None = [].
Proof.
  intros r.
  assert (E : r = de_un_origen (RoadMapCalls.origen_de ruta)
                    (destinos_detectados archivo)).
  { unfold r, RoadMapCalls.analizar_cobol.
    apply (recorrer_archivo_calls (RoadMapCalls.origen_de ruta) archivo []). }
  split; [exact E |]. rewrite E.
  destruct (destinos_detectados archivo) as [|d ds]; simpl.
  - repeat split; auto. intros k [].
  - unfold get. simpl. rewrite str_eqb_refl. repeat split; auto.
    intros k [<- | []]. reflexivity.
Qed.

(** ** The tree printer *)

Arguments pertenece : simpl never.

Lemma buscar_In (V : Type) (k : str) (v : V) (d : dict V) :
  buscar k d = Some v -> In (k, v) d.
Proof.
  induction d as [|[k' v'] d IH]; simpl; [discriminate |].
  destruct (str_eqb k' k) eqn:E.
  - apply str_eqb_eq in E. intros H. injection H as ->. subst. left. reflexivity.
  - intros H. right. apply IH. exact H.
Qed.

Lemma get_In (k d0 : str) (dic : dict (list str)) :
  In d0 (get k [] dic) -> exists ds, In (k, ds) dic /\ In d0 ds.
Proof.
  unfold get. destruct (buscar k dic) as [ds|] eqn:E; [| intros []].
  intros H. exists ds. split; [apply buscar_In; exact E | exact H].
Qed.

Lemma pertenece_cons (x u : str) (v : list str) :
  pertenece x (u :: v) = str_eqb x u || pertenece x v.
Proof. reflexivity. Qed.

Lemma pertenece_false (x : str) (xs : list str) :
  pertenece x xs = false <-> ~ In x xs.
Proof.
  rewrite <- pertenece_In. destruct (pertenece x xs); split; congruence.
Qed.

Lemma filtro_menos (u : str) (v : list str) (l : list str) :
  NoDup l -> In u l -> ~ In u v ->
  S (length (filter (fun x => negb (pertenece x (u :: v))) l))
  = length (filter (fun x => negb (pertenece x v)) l).
Proof.
  intros Hnd Hin Hv. induction l as [|x l IH]; [destruct Hin |].
  inversion Hnd as [|? ? Hx Hnd']; subst. cbn [filter].
  rewrite pertenece_cons.
  destruct (str_eqb x u) eqn:E.
  - apply str_eqb_eq in E. subst x. cbn [orb negb].
    apply pertenece_false in Hv. rewrite Hv. cbn [negb length]. f_equal.
    apply (f_equal (@length _)). apply filter_ext_in. intros y Hy.
    rewrite pertenece_cons.
    replace (str_eqb y u) with false; [reflexivity |].
    symmetry. apply str_eqb_neq. intros ->. contradiction.
  - apply str_eqb_neq in E. destruct Hin as [-> | Hin]; [congruence |].
    cbn [orb]. destruct (pertenece x v); cbn [negb length];
      rewrite <- (IH Hnd' Hin); reflexivity.
Qed.

Lemma faltan_decrece (dic : dict (list str)) (u : str) (v : list str) :
  In u (destinos_de dic) -> ~ In u v ->
  length (faltan dic (u :: v)) < length (faltan dic v).
Proof.
  intros Hin Hv. unfold faltan.
  rewrite <- (filtro_menos u v); [lia | apply NoDup_nodup | | exact Hv].
  apply nodup_In. exact Hin.
Qed.

Lemma faltan_cota (dic : dict (list str)) (v : list str) :
  length (faltan dic v) <= length (nodup str_eq_dec (destinos_de dic)).
Proof. unfold faltan. apply filter_length_le. Qed.

Lemma destino_en_destinos (dic : dict (list str)) (k d0 : str) :
  In d0 (get k [] dic) -> In d0 (destinos_de dic).
Proof.
  intros H. destruct (get_In _ _ _ H) as (ds & Hk & Hd).
  unfold destinos_de. apply in_flat_map. exists (k, ds). auto.
Qed.

Lemma raiz_de_nombre (dic : dict (list str)) (nodo : str) :
  nodo <> [] -> RoadMap.raiz dic nodo = Some nodo.
Proof. destruct nodo; [congruence | reflexivity]. Qed.

Section PorCada.
Variables A B : Type.

Lemma por_cada_termina (f : A -> option (list B)) (xs : list A) :
  (forall x, In x xs -> f x <> None) -> RoadMap.por_cada f xs <> None.
Proof.
  induction xs as [|x xs IH]; intros H; simpl; [discriminate |].
  destruct (f x) eqn:E; [| exfalso; apply (H x); [left; reflexivity | exact E]].
  destruct (RoadMap.por_cada f xs) eqn:E2; [discriminate |].
  exfalso. apply IH; [| reflexivity]. intros y Hy. apply H. right. exact Hy.
Qed.

Lemma por_cada_crece (f g : A -> option (list B)) (xs : list A) :
  (forall x r, In x xs -> f x = Some r -> g x = Some r) ->
  forall rs, RoadMap.por_cada f xs = Some rs -> RoadMap.por_cada g xs = Some rs.
Proof.
  induction xs as [|x xs IH]; intros H rs; simpl; [auto |].
  destruct (f x) as [a|] eqn:E; [| discriminate].
  rewrite (H x a (or_introl eq_refl) E).
  destruct (RoadMap.por_cada f xs) as [b|] eqn:E2; [| discriminate].
  rewrite (IH (fun y r Hy => H y r (or_intror Hy)) b eq_refl). auto.
Qed.



Lemma por_cada_map (C : Type) (h : B -> C) (f : A -> option (list B))
    (xs : list A) :
  RoadMap.por_cada (fun x => option_map (List.map h) (f x)) xs
  = option_map (List.map h) (RoadMap.por_cada f xs).
Proof.
  induction xs as [|x xs IH]; simpl; [reflexivity |].
  destruct (f x) as [a|]; simpl; [| reflexivity].
  rewrite IH. destruct (RoadMap.por_cada f xs); simpl; [| reflexivity].
  rewrite map_app. reflexivity.
Qed.

Lemma por_cada_ext (f g : A -> option (list B)) (xs : list A) :
  (forall x, f x = g x) -> RoadMap.por_cada f xs = RoadMap.por_cada g xs.
Proof.
  intros H. induction xs as [|x xs IH]; simpl; [reflexivity |].
  rewrite H, IH. reflexivity.
Qed.

End PorCada.

(** The lines of the ghost printer are the lines of the printer. *)
Lemma imprimir_con_camino_borra (dic sel : dict (list str)) (fuel : nat) :
  forall nodo nivel visitados,
    RoadMap.imprimir_arbol_llamadas fuel dic sel nodo nivel visitados
    = option_map (List.map snd)
        (imprimir_con_camino fuel dic sel nodo nivel visitados).
Proof.
  induction fuel as [|fuel IH]; intros nodo nivel visitados; [reflexivity |].
  simpl. destruct (RoadMap.raiz dic nodo) as [n|]; [| reflexivity].
  rewrite (por_cada_ext _ _ _
             (fun hijo =>
                option_map (List.map snd)
                  (if pertenece hijo (n :: o_vacio visitados) then Some []
                   else imprimir_con_camino fuel dic sel hijo (S nivel)
                          (Some (n :: o_vacio visitados))))).
  - rewrite por_cada_map. unfold o_vacio.
    destruct (RoadMap.por_cada _ (get n [] dic)); simpl; [| reflexivity].
    rewrite map_app. destruct (tiene n sel); simpl; [| reflexivity].
    rewrite map_map. reflexivity.
  - intros hijo. unfold o_vacio.
    destruct (pertenece hijo _); [reflexivity | apply IH].
Qed.

Section Arbol.
Variables dic sel : dict (list str).
Hypothesis validos : nombres_validos dic.

Lemma hijo_es_nombre (n hijo : str) : In hijo (get n [] dic) -> hijo <> [].
Proof.
  intros H. destruct (get_In _ _ _ H) as (ds & Hk & Hd).
  exact (validos _ _ _ Hk Hd).
Qed.

(** Each call has fewer names left to visit than its caller, so a call with
    more fuel than names left returns. *)
Lemma imprimir_con_camino_termina (fuel : nat) :
  forall nodo n nivel visitados,
    RoadMap.raiz dic nodo = Some n ->
    length (faltan dic (n :: o_vacio visitados)) < fuel ->
    imprimir_con_camino fuel dic sel nodo nivel visitados <> None.
Proof.
  induction fuel as [|fuel IH]; intros nodo n nivel visitados Hr Hf; [lia |].
  simpl. rewrite Hr. fold (o_vacio visitados).
  destruct (RoadMap.por_cada _ (get n [] dic)) eqn:E; [discriminate |].
  exfalso. revert E. apply por_cada_termina. intros hijo Hh.
  destruct (pertenece hijo (n :: o_vacio visitados)) eqn:P; [discriminate |].
  apply pertenece_false in P.
  apply (IH hijo hijo).
  - apply raiz_de_nombre. apply (hijo_es_nombre n). exact Hh.
  - simpl o_vacio.
    pose proof (faltan_decrece dic hijo (n :: o_vacio visitados)
                  (destino_en_destinos _ _ _ Hh) P).
    lia.
Qed.

(** More fuel does not change what a call prints. *)
Lemma imprimir_con_camino_mas_fuel (fuel : nat) :
  forall fuel' nodo nivel visitados rs,
    fuel <= fuel' ->
    imprimir_con_camino fuel dic sel nodo nivel visitados = Some rs ->
    imprimir_con_camino fuel' dic sel nodo nivel visitados = Some rs.
Proof.
  induction fuel as [|fuel IH]; intros fuel' nodo nivel visitados rs Hle H;
    [discriminate H |].
  destruct fuel' as [|fuel']; [lia |].
  simpl in *. destruct (RoadMap.raiz dic nodo) as [n|]; [| exact H].
  destruct (RoadMap.por_cada _ (get n [] dic)) as [abajo|] eqn:E;
    [| discriminate H].
  erewrite por_cada_crece; [exact H | | exact E].
  intros hijo r _. simpl.
  destruct (pertenece hijo _); [auto |]. apply IH. lia.
Qed.








End Arbol.











Example imprimir_ciclo_a_b :
  RoadMap.imprimir_arbol_llamadas 3 ciclo_a_b [] [] 0 None
  = Some [lit "A"; lit "   B"].
Proof. vm_compute. reflexivity. Qed.

(** A destination that is the empty string sends the printer back to the
    first key, whatever the set of visited nodes: on the graph where A
    lists the empty string no amount of fuel is enough. *)
Lemma imprimir_nombre_vacio_no_termina (fuel : nat) :
  forall nodo nivel visitados,
    nodo = lit "A" \/ nodo = [] ->
    pertenece [] (o_vacio visitados) = false ->
    RoadMap.imprimir_arbol_llamadas fuel [(lit "A", [[]])] [] nodo nivel
      visitados = None.
Proof.
  induction fuel as [|fuel IH]; intros nodo nivel visitados Hn Hv;
    [reflexivity |].
  assert (Hr : RoadMap.raiz [(lit "A", [[]])] nodo = Some (lit "A")).
  { destruct Hn as [-> | ->]; reflexivity. }
  simpl. rewrite Hr. fold (o_vacio visitados).
  change (get (lit "A") [] [(lit "A", [[]])]) with [@nil char].
  simpl RoadMap.por_cada. rewrite pertenece_cons, Hv.
  change (str_eqb [] (lit "A")) with false. simpl orb.
  rewrite IH; [reflexivity | right; reflexivity |].
  simpl o_vacio. rewrite pertenece_cons, Hv. reflexivity.
Qed.

(** ** Case *)

Lemma en_clase_mayuscula (ic : bool) (p : char -> bool) (c : char) :
  clase_mayuscula p -> entre 97 122 c = false -> en_clase ic p c = p c.
Proof.
  intros Hp Hc. unfold en_clase. destruct ic; [| apply orb_false_r].
  simpl. unfold otra_caja. rewrite Hc.
  destruct (entre 65 90 c) eqn:E; [| apply orb_diag].
  rewrite (Hp (c + 32)%N); [apply orb_false_r |].
  unfold entre in *. partir_car; reflexivity.
Qed.

Section Caja.
Variable R : Type.

Lemma rep_codicioso_ext (p1 p2 : char -> bool) (s : str) :
  forall minimo maximo prev (k1 k2 : option char -> str -> option R),
    sin_minusculas s ->
    (forall c, entre 97 122 c = false -> p1 c = p2 c) ->
    (forall prev' s', sin_minusculas s' -> k1 prev' s' = k2 prev' s') ->
    rep_codicioso p1 minimo maximo prev s k1
    = rep_codicioso p2 minimo maximo prev s k2.
Proof.
  induction s as [|c s IH]; intros minimo maximo prev k1 k2 Hs Hp Hk; simpl.
  - rewrite (Hk prev [] Hs). reflexivity.
  - inversion Hs as [|? ? Hc Hs']; subst.
    rewrite (Hp c Hc), (Hk prev (c :: s) Hs).
    rewrite (IH (pred minimo) (menos maximo) (Some c) k1 k2 Hs' Hp Hk).
    reflexivity.
Qed.

Lemma rep_perezoso_ext (p1 p2 : char -> bool) (s : str) :
  forall minimo maximo prev (k1 k2 : option char -> str -> option R),
    sin_minusculas s ->
    (forall c, entre 97 122 c = false -> p1 c = p2 c) ->
    (forall prev' s', sin_minusculas s' -> k1 prev' s' = k2 prev' s') ->
    rep_perezoso p1 minimo maximo prev s k1
    = rep_perezoso p2 minimo maximo prev s k2.
Proof.
  induction s as [|c s IH]; intros minimo maximo prev k1 k2 Hs Hp Hk; simpl.
  - rewrite (Hk prev [] Hs). reflexivity.
  - inversion Hs as [|? ? Hc Hs']; subst.
    rewrite (Hp c Hc), (Hk prev (c :: s) Hs).
    rewrite (IH (pred minimo) (menos maximo) (Some c) k1 k2 Hs' Hp Hk).
    reflexivity.
Qed.

(** On a text without lower-case letters a pattern that accepts none
    matches the same with and without [re.IGNORECASE]. *)
Lemma casa_sin_minusculas (r : regex) :
  patron_mayusculo r ->
  forall prev s g (k1 k2 : option char -> str -> option str -> option R),
    sin_minusculas s ->
    (forall prev' s' g', sin_minusculas s' -> k1 prev' s' g' = k2 prev' s' g') ->
    casa true r prev s g k1 = casa false r prev s g k2.
Proof.
  induction r as [| c | p | r1 IH1 r2 IH2 | r1 IH1 r2 IH2
                 | cod minimo maximo p | r1 IH1 | |];
    intros Hr prev s g k1 k2 Hs Hk; simpl in *.
  - apply Hk. exact Hs.
  - destruct s as [|x s]; [reflexivity |].
    inversion Hs as [|? ? Hx Hs']; subst.
    rewrite !(en_clase_mayuscula _ _ _ Hr Hx).
    destruct (c =? x)%N; [apply Hk; exact Hs' | reflexivity].
  - destruct s as [|x s]; [reflexivity |].
    inversion Hs as [|? ? Hx Hs']; subst.
    rewrite !(en_clase_mayuscula _ _ _ Hr Hx).
    destruct (p x); [apply Hk; exact Hs' | reflexivity].
  - destruct Hr as (Hr1 & Hr2). apply (IH1 Hr1); [exact Hs |].
    intros prev' s' g' Hs'. apply (IH2 Hr2); assumption.
  - destruct Hr as (Hr1 & Hr2).
    rewrite (IH1 Hr1 prev s g k1 k2 Hs Hk), (IH2 Hr2 prev s g k1 k2 Hs Hk).
    reflexivity.
  - assert (Hp : forall c, entre 97 122 c = false ->
                           en_clase true p c = en_clase false p c).
    { intros c Hc. rewrite !(en_clase_mayuscula _ _ _ Hr Hc). reflexivity. }
    destruct cod; [apply rep_codicioso_ext | apply rep_perezoso_ext];
      try assumption; intros prev' s' Hs'; apply Hk; exact Hs'.
  - apply (IH1 Hr); [exact Hs |].
    intros prev' s' g' Hs'. apply Hk. exact Hs'.
  - destruct prev; [reflexivity | apply Hk; exact Hs].
  - destruct (xorb _ _); [apply Hk; exact Hs | reflexivity].
Qed.

End Caja.

Lemma re_match_sin_minusculas (r : regex) (s : str) :
  patron_mayusculo r -> sin_minusculas s ->
  re_match true r s = re_match false r s.
Proof.
  intros Hr Hs. unfold re_match, casa_aqui.
  apply casa_sin_minusculas; auto.
Qed.

Lemma clase_mayuscula_eqb (k : char) :
  entre 97 122 k = false -> clase_mayuscula (N.eqb k).
Proof.
  intros Hk x Hx. destruct (N.eqb_spec k x); [congruence | reflexivity].
Qed.

Lemma patron_parrafo_mayusculo : patron_mayusculo RoadMap.patron_parrafo.
Proof.
  assert (H1 : clase_mayuscula isspace).
  { intros x Hx. unfold isspace, entre in *. partir_car; reflexivity. }
  assert (H2 : clase_mayuscula RoadMap.letra_o_digito).
  { intros x Hx. unfold RoadMap.letra_o_digito, entre in *.
    partir_car; reflexivity. }
  assert (H3 : clase_mayuscula RoadMap.letra_digito_o_guion).
  { intros x Hx. unfold RoadMap.letra_digito_o_guion, entre in *.
    partir_car; reflexivity. }
  simpl. repeat split; try assumption;
    apply clase_mayuscula_eqb; reflexivity.
Qed.

(** ** Upper-cased text *)

Lemma upper_char_cabeza (c x : char) (r : str) :
  upper_char c = x :: r -> x = c -> r = [].
Proof.
  unfold upper_char, entre. intros H E. subst x.
  destruct ((97 <=? c)%N && (c <=? 122)%N); [injection H; intros; symmetry; assumption |].
  destruct (N.eqb_spec c 181); [injection H; intros; symmetry; assumption |].
  destruct (N.eqb_spec c 223).
  { injection H as H _. exfalso. lia. }
  destruct ((224 <=? c)%N && (c <=? 254)%N && negb (c =? 247)%N);
    [injection H; intros; symmetry; assumption |].
  destruct (c =? 255)%N; injection H; intros; symmetry; assumption.
Qed.

Lemma upper_char_no_vacio (c : char) : upper_char c <> [].
Proof.
  unfold upper_char.
  repeat match goal with |- context [if ?b then _ else _] => destruct b end;
    discriminate.
Qed.

Lemma upper_fijo (l : str) :
  upper l = l <-> Forall (fun c => upper_char c = [c]) l.
Proof.
  split.
  - induction l as [|c l IH]; intros H; [constructor |].
    change (upper (c :: l)) with (upper_char c ++ upper l) in H.
    destruct (upper_char c) as [|x r] eqn:E;
      [exfalso; apply (upper_char_no_vacio c E) |].
    simpl in H. injection H as Hx Hr. subst x.
    pose proof (upper_char_cabeza c c r E eq_refl) as ->.
    constructor; [exact E | apply IH; exact Hr].
  - induction 1 as [|c l Hc _ IH]; [reflexivity |].
    change (upper (c :: l)) with (upper_char c ++ upper l).
    rewrite Hc, IH. reflexivity.
Qed.

Lemma fijo_sin_minuscula (c : char) :
  upper_char c = [c] -> entre 97 122 c = false.
Proof.
  unfold upper_char. destruct (entre 97 122 c) eqn:E; [| reflexivity].
  intros H. injection H as H. unfold entre in E. partir_car.
Qed.

Lemma upper_sin_minusculas (l : str) : upper l = l -> sin_minusculas l.
Proof.
  intros H. apply upper_fijo in H. unfold sin_minusculas.
  apply (Forall_impl _ fijo_sin_minuscula H).
Qed.

(** ** The label pattern *)

Lemma isspace_no_palabra (c : char) : isspace c = true -> es_palabra c = false.
Proof.
  unfold isspace, es_palabra, entre. intros H. partir_car; reflexivity.
Qed.

Lemma ultimo_de_blancos (prev : option char) (b : str) :
  en_blanco b -> b <> [] -> palabra_en (ultimo_de prev b) = false.
Proof.
  intros Hb Hn. unfold ultimo_de.
  destruct (rev b) as [|c r] eqn:E.
  - apply (f_equal (@rev _)) in E. rewrite rev_involutive in E. contradiction.
  - simpl. apply isspace_no_palabra.
    assert (Hin : In c b) by (apply in_rev; rewrite E; left; reflexivity).
    unfold en_blanco in Hb. rewrite Forall_forall in Hb. apply Hb. exact Hin.
Qed.

Lemma den_cola_de_etiqueta (prev : option char) (s : str) (g : option str)
    (prev' : option char) (s' : str) (g' : option str) :
  den false cola_de_etiqueta prev s g prev' s' g' ->
  g' = g /\
  exists b r,
    s = b ++ r /\ en_blanco b /\
    (r = 46%N :: s' \/
     (r = lit "SECTION" ++ s' /\
      palabra_en (ultimo_de prev b) = false /\
      palabra_en (hd_error s') = false)).
Proof.
  unfold cola_de_etiqueta. intros D.
  apply den_cat in D. destruct D as (p1 & s1 & g1 & D1 & D).
  apply den_rep in D1. destruct D1 as (b & -> & Hb & _ & _ & -> & ->).
  destruct D as [D | D].
  - apply den_car in D. destruct D as (-> & _ & ->).
    split; [reflexivity |]. exists b, (46%N :: s'). auto.
  - apply den_cat in D. destruct D as (p2 & s2 & g2 & (Hx & -> & -> & ->) & D).
    apply den_cat in D. destruct D as (p3 & s3 & g3 & D3 & (Hy & -> & Es & ->)).
    subst s3. apply den_texto in D3. destruct D3 as (-> & -> & ->).
    split; [reflexivity |]. exists b, (lit "SECTION" ++ s').
    split; [reflexivity |]. split; [exact Hb |]. right.
    split; [reflexivity |]. simpl in Hx, Hy. split.
    + destruct (palabra_en (ultimo_de prev b)); [discriminate Hx | reflexivity].
    + destruct (palabra_en (hd_error s')); [discriminate Hy | reflexivity].
Qed.

Lemma den_cola_de_etiqueta_intro (prev : option char) (b r s' : str)
    (g : option str) :
  en_blanco b ->
  (r = 46%N :: s' \/
   (r = lit "SECTION" ++ s' /\
    palabra_en (ultimo_de prev b) = false /\
    palabra_en (hd_error s') = false)) ->
  exists prev', den false cola_de_etiqueta prev (b ++ r) g prev' s' g.
Proof.
  intros Hb Hr. unfold cola_de_etiqueta.
  assert (D1 : den false (Rep true 0 None isspace) prev (b ++ r) g
                 (ultimo_de prev b) r g).
  { exists b. repeat split; [apply todos_en_clase_false; exact Hb | lia]. }
  destruct Hr as [-> | (-> & Hx & Hy)].
  - exists (Some 46%N), (ultimo_de prev b), (46%N :: s'), g.
    split; [exact D1 |]. left. exists 46%N. auto.
  - eexists. exists (ultimo_de prev b), (lit "SECTION" ++ s'), g.
    split; [exact D1 |]. right.
    exists (ultimo_de prev b), (lit "SECTION" ++ s'), g. split.
    + simpl. rewrite Hx. auto.
    + eexists _, _, _. split; [apply den_texto_intro |].
      simpl. rewrite Hy. auto.
Qed.

Lemma fin_de_etiqueta_den (t s : str) (g : option str) :
  fin_de_etiqueta t s <->
  exists prev' s', den false cola_de_etiqueta (ultimo_de None t) s g prev' s' g.
Proof.
  split.
  - intros (b & r & -> & Hb & Hr).
    destruct Hr as [(r' & ->) | (r' & -> & Hx & Hy)].
    + destruct (den_cola_de_etiqueta_intro (ultimo_de None t) b _ r' g Hb
                  (or_introl eq_refl)) as (p' & D).
      exists p', r'. exact D.
    + rewrite ultimo_de_app in Hx.
      destruct (den_cola_de_etiqueta_intro (ultimo_de None t) b _ r' g Hb
                  (or_intror (conj eq_refl (conj Hx Hy)))) as (p' & D).
      exists p', r'. exact D.
  - intros (p' & s' & D). apply den_cola_de_etiqueta in D.
    destruct D as (_ & b & r & -> & Hb & Hr). exists b, r.
    split; [reflexivity |]. split; [exact Hb |].
    destruct Hr as [-> | (-> & Hx & Hy)].
    + left. exists s'. reflexivity.
    + right. exists s'. rewrite ultimo_de_app. auto.
Qed.

Lemma casa_patron_parrafo (R : Type) (s : str)
    (k : option char -> str -> option str -> option R) :
  casa false RoadMap.patron_parrafo None s None k
  = rep_codicioso (en_clase false isspace) 0 None None s
      (fun _ s1 =>
         match s1 with
         | x :: s2 =>
             if en_clase false RoadMap.letra_o_digito x then
               rep_codicioso (en_clase false RoadMap.letra_digito_o_guion)
                 0 (Some 60) (Some x) s2
                 (fun p3 s3 =>
                    casa false cola_de_etiqueta p3 s3
                      (Some (firstn (length s1 - length s3) s1)) k)
             else None
         | [] => None
         end).
Proof. reflexivity. Qed.

Lemma prefijo_unico (p : char -> bool) (a a' r r' : str) :
  todos p a -> todos p a' -> no_sigue p r -> no_sigue p r' ->
  a ++ r = a' ++ r' -> a = a' /\ r = r'.
Proof.
  intros Ha. revert a'. induction Ha as [|x a Hx Ha IH]; intros a' Ha' Hr Hr' E.
  - destruct Ha' as [|y a' Hy _]; [auto |].
    simpl in E. subst r. simpl in Hr. congruence.
  - destruct Ha' as [|y a' Hy Ha'].
    + simpl in E. subst r'. simpl in Hr'. congruence.
    + simpl in E. injection E as -> E.
      destruct (IH a' Ha' Hr Hr' E) as (-> & ->). auto.
Qed.

Lemma letra_o_digito_no_blanco (c : char) :
  RoadMap.letra_o_digito c = true -> isspace c = false.
Proof.
  unfold RoadMap.letra_o_digito, isspace, entre. intros H.
  partir_car; reflexivity.
Qed.

Lemma letra_o_digito_guion (c : char) :
  RoadMap.letra_o_digito c = true -> RoadMap.letra_digito_o_guion c = true.
Proof.
  unfold RoadMap.letra_o_digito, RoadMap.letra_digito_o_guion. intros ->.
  reflexivity.
Qed.

Lemma ultimo_de_None_cons (c : char) (w : str) :
  ultimo_de None (c :: w) = ultimo_de (Some c) w.
Proof. apply ultimo_de_cons. Qed.

(** What a match of the label pattern found: the longest label of the
    text. *)
Lemma re_match_patron_parrafo (s : str) (m : coincidencia) :
  re_match false RoadMap.patron_parrafo s = Some m ->
  exists t,
    grupo1 m = Some t /\ es_etiqueta s t /\
    forall t', es_etiqueta s t' -> length t' <= length t.
Proof.
  unfold re_match, casa_aqui. rewrite casa_patron_parrafo. intros H.
  apply rep_codicioso_some in H.
  destruct H as (b & s1 & -> & Hb & _ & _ & H & _).
  apply -> todos_en_clase_false in Hb.
  destruct s1 as [|x s2]; [discriminate H |].
  rewrite en_clase_false in H.
  destruct (RoadMap.letra_o_digito x) eqn:Hx; [| discriminate H].
  apply rep_codicioso_some in H.
  destruct H as (w & s3 & -> & Hw & _ & Hlen & H & Hmax).
  apply -> todos_en_clase_false in Hw.
  change (x :: w ++ s3) with ((x :: w) ++ s3) in H.
  rewrite firstn_tomado in H.
  apply casa_some in H. destruct H as (p' & s' & g' & D & Hk).
  injection Hk as <-. simpl grupo1.
  assert (Hg : g' = Some (x :: w)).
  { apply den_cola_de_etiqueta in D. apply D. }
  assert (Hfin : fin_de_etiqueta (x :: w) s3).
  { apply (fin_de_etiqueta_den _ _ (Some (x :: w))).
    rewrite ultimo_de_None_cons. subst g'. eauto. }
  exists (x :: w). split; [exact Hg |]. split.
  - split; [| exact Hx]. exists b, s3.
    split; [reflexivity |]. split; [exact Hb |]. split; [discriminate |].
    split; [constructor; [apply letra_o_digito_guion; exact Hx | exact Hw] |].
    split; [simpl in *; lia | exact Hfin].
  - intros t' ((b' & s'' & E & Hb' & Hn & Ht' & Hl' & Hfin') & Hc).
    destruct t' as [|c w']; [contradiction |].
    destruct (Nat.le_gt_cases (length (c :: w')) (length (x :: w)))
      as [Hle | Hgt]; [exact Hle | exfalso].
    assert (Hbb : b = b' /\ x :: w ++ s3 = (c :: w') ++ s'').
    { apply (prefijo_unico isspace); try assumption.
      - simpl. apply letra_o_digito_no_blanco. exact Hx.
      - simpl. apply letra_o_digito_no_blanco. exact Hc. }
    destruct Hbb as (<- & Es). simpl in Es. injection Es as <- Es.
    inversion Ht' as [|? ? _ Hw']; subst.
    specialize (Hmax w' s'' Es).
    assert (Hnone : casa false cola_de_etiqueta (ultimo_de (Some x) w') s''
                      (Some (firstn (length (x :: w ++ s3) - length s'')
                               (x :: w ++ s3)))
                      (fun _ s'0 g => Some (Coincide 0 s'0 g)) = None).
    { apply Hmax.
      - apply todos_en_clase_false. exact Hw'.
      - lia.
      - simpl in *. lia.
      - simpl in Hgt. lia. }
    apply (fin_de_etiqueta_den _ _
             (Some (firstn (length (x :: w ++ s3) - length s'')
                      (x :: w ++ s3)))) in Hfin'.
    destruct Hfin' as (p2 & s2' & D2). rewrite ultimo_de_None_cons in D2.
    pose proof (casa_none _ _ _ _ _ _ _ Hnone _ _ _ D2) as F. discriminate F.
Qed.

(** A text with a label is matched by the label pattern. *)
Lemma re_match_patron_parrafo_hay (s t : str) :
  es_etiqueta s t -> re_match false RoadMap.patron_parrafo s <> None.
Proof.
  intros ((b & s3 & -> & Hb & Hn & Ht & Hl & Hfin) & Hc).
  destruct t as [|c w]; [contradiction |].
  inversion Ht as [|? ? _ Hw]; subst.
  unfold re_match, casa_aqui. rewrite casa_patron_parrafo. intros H.
  pose proof (rep_codicioso_none _ _ _ _ _ _ _ H b _ eq_refl
                (proj2 (todos_en_clase_false _ _) Hb) (Nat.le_0_l _) I) as H1.
  change ((c :: w) ++ s3) with (c :: (w ++ s3)) in H1. cbv beta iota in H1.
  rewrite en_clase_false, Hc in H1.
  pose proof (rep_codicioso_none _ _ _ _ _ _ _ H1 w s3 eq_refl
                (proj2 (todos_en_clase_false _ _) Hw) (Nat.le_0_l _)) as H2.
  simpl in Hl. specialize (H2 ltac:(simpl; lia)).
  apply (fin_de_etiqueta_den _ _
           (Some (firstn (length (c :: w ++ s3) - length s3)
                    (c :: w ++ s3)))) in Hfin.
  destruct Hfin as (p2 & s2' & D2). rewrite ultimo_de_None_cons in D2.
  pose proof (casa_none _ _ _ _ _ _ _ H2 _ _ _ D2) as F. discriminate F.
Qed.

(** ** The paragraph detector *)

Lemma columna_7_comentario (linea : str) :
  RoadMap.columna_7_es_asterisco linea = true <-> comentario_columna_7 linea.
Proof.
  unfold RoadMap.columna_7_es_asterisco, comentario_columna_7.
  rewrite andb_true_iff, Nat.leb_le. split.
  - intros (_ & H). destruct (nth_error linea 6) as [c|]; [| discriminate H].
    apply N.eqb_eq in H. subst c. reflexivity.
  - intros H. split.
    + assert (Hs : nth_error linea 6 <> None) by congruence.
      apply nth_error_Some in Hs. lia.
    + rewrite H. reflexivity.
Qed.

Lemma en_blanco_vacia (linea : str) :
  vacia linea || vacia (strip linea) = true <-> en_blanco linea.
Proof.
  rewrite <- strip_vacia. destruct linea as [|c l]; simpl.
  - split; reflexivity.
  - destruct (strip (c :: l)); simpl; split; congruence.
Qed.

Lemma quitar_mientras_nada (p : char -> bool) (s : str) :
  no_sigue p s -> quitar_mientras p s = s.
Proof. destruct s as [|c s]; simpl; [reflexivity | intros ->; reflexivity]. Qed.

Lemma strip_sin_blancos (t : str) :
  Forall (fun c => isspace c = false) t -> strip t = t.
Proof.
  intros H. unfold strip, rstrip, lstrip.
  rewrite (quitar_mientras_nada isspace t).
  - rewrite quitar_mientras_nada; [apply rev_involutive |].
    apply Forall_rev in H. destruct (rev t); [exact I |].
    inversion H; assumption.
  - destruct t; [exact I | inversion H; assumption].
Qed.

Lemma guion_no_blanco (c : char) :
  RoadMap.letra_digito_o_guion c = true -> isspace c = false.
Proof.
  unfold RoadMap.letra_digito_o_guion, isspace, entre. intros H.
  partir_car; reflexivity.
Qed.

Lemma guion_fijo (c : char) :
  RoadMap.letra_digito_o_guion c = true -> upper_char c = [c].
Proof.
  unfold RoadMap.letra_digito_o_guion, upper_char, entre. intros H.
  partir_car; reflexivity.
Qed.

Lemma etiqueta_strip_upper (t : str) :
  todos RoadMap.letra_digito_o_guion t -> strip t = t /\ upper t = t.
Proof.
  intros H. split.
  - apply strip_sin_blancos. apply (Forall_impl _ guion_no_blanco H).
  - apply upper_fijo. apply (Forall_impl _ guion_fijo H).
Qed.

Lemma sufijo_Forall (P : char -> Prop) (a b : str) :
  Forall P (a ++ b) -> Forall P b.
Proof. intros H. apply Forall_app in H. apply H. Qed.

Lemma code_area_sufijo (linea : str) :
  exists a, linea = a ++ RoadMap.code_area_de linea.
Proof.
  unfold RoadMap.code_area_de. destruct (7 <? length linea).
  - exists (firstn 7 linea). symmetry. apply firstn_skipn.
  - destruct (quitar_mientras_descompone isspace linea) as (a & Ha & _).
    exists a. exact Ha.
Qed.

(** The keyword test of the code implies the keyword test of the
    statement. *)
Lemma sentencia_inicial (code_area : str) :
  upper code_area = code_area ->
  existsb (fun p => startswith p (upper (strip code_area)))
    RoadMap.sentencias_iniciales = true ->
  empieza_por_sentencia code_area.
Proof.
  intros Hu H. apply existsb_exists in H. destruct H as (p & Hp & Hs).
  destruct (strip_descompone code_area) as (a & b & E & Ha & Hb).
  assert (Hus : upper (strip code_area) = strip code_area).
  { apply upper_fijo. apply upper_fijo in Hu. rewrite E in Hu.
    apply sufijo_Forall in Hu. apply Forall_app in Hu. apply Hu. }
  rewrite Hus in Hs. apply startswith_iff in Hs. destruct Hs as (r & Hr).
  assert (Hk : exists k, In k palabras_de_sentencia /\ p = k ++ [32%N]).
  { simpl in Hp.
    destruct Hp as [<- | [<- | [<- | [<- | [<- | [<- | []]]]]]];
      [exists (lit "PERFORM") | exists (lit "IF") | exists (lit "ELSE")
       | exists (lit "EVALUATE") | exists (lit "MOVE") | exists (lit "SET")];
      (split; [simpl; tauto | reflexivity]). }
  destruct Hk as (k & Hk & ->).
  exists a, k, (r ++ b). split; [| auto].
  rewrite E at 1. rewrite Hr, <- !app_assoc. reflexivity.
Qed.

Lemma palabras_de_sentencia_letras (k : str) :
  In k palabras_de_sentencia -> k <> [] /\ todos letra k.
Proof.
  intros H. simpl in H.
  destruct H as [<- | [<- | [<- | [<- | [<- | [<- | []]]]]]];
    (split; [discriminate | repeat constructor]).
Qed.

Lemma letra_propiedades (c : char) :
  letra c = true ->
  isspace c = false /\ es_palabra c = true /\ c <> 46%N /\
  RoadMap.letra_digito_o_guion c = true.
Proof.
  unfold letra, isspace, es_palabra, RoadMap.letra_digito_o_guion, entre.
  intros H. repeat split; partir_car; try reflexivity.
Qed.

Lemma ultimo_de_In (prev : option char) (t : str) (c : char) :
  t <> [] -> ultimo_de prev t = Some c -> In c t.
Proof.
  unfold ultimo_de. intros Hn H. destruct (rev t) as [|x r] eqn:E.
  - apply (f_equal (@rev _)) in E. rewrite rev_involutive in E. contradiction.
  - injection H as ->. apply in_rev. rewrite E. left. reflexivity.
Qed.

Lemma ultimo_de_Some (prev : option char) (t : str) :
  t <> [] -> exists c, ultimo_de prev t = Some c.
Proof.
  unfold ultimo_de. intros Hn. destruct (rev t) as [|x r] eqn:E; [| eauto].
  apply (f_equal (@rev _)) in E. rewrite rev_involutive in E. contradiction.
Qed.

(** A label that is no excluded word does not start a statement: the
    keyword test is implied by the others. *)
Lemma etiqueta_no_sentencia (code_area t : str) :
  es_etiqueta code_area t -> ~ In t palabras_excluidas ->
  ~ empieza_por_sentencia code_area.
Proof.
  intros ((b & s & E & Hb & Hn & Ht & _ & Hfin) & Hc) Hex
         (b' & k & r & E' & Hb' & Hk).
  destruct (palabras_de_sentencia_letras k Hk) as (Hkn & Hkl).
  destruct t as [|c w]; [contradiction |].
  destruct k as [|y k']; [exfalso; apply Hkn; reflexivity |].
  inversion Hkl as [|? ? Hy Hkl']; subst.
  assert (Hbb : b = b' /\ (c :: w) ++ s = (y :: k') ++ 32%N :: r).
  { apply (prefijo_unico isspace); try assumption.
    - simpl. apply letra_o_digito_no_blanco. exact Hc.
    - simpl. apply (letra_propiedades y Hy). }
  destruct Hbb as (_ & Es). clear E'.
  apply app_eq_app in Es. destruct Es as (d & [(Et & Er) | (Ek & Esd)]).
  - destruct d as [|x d].
    + rewrite app_nil_r in Et. apply Hex. rewrite Et.
      simpl in Hk. simpl.
      destruct Hk as [<- | [<- | [<- | [<- | [<- | [<- | []]]]]]]; tauto.
    + simpl in Er. injection Er as <- _.
      rewrite Et in Ht. apply sufijo_Forall in Ht.
      inversion Ht as [|? ? H32 _]. discriminate H32.
  - destruct d as [|x d].
    + rewrite app_nil_r in Ek. apply Hex. rewrite <- Ek.
      simpl in Hk. simpl.
      destruct Hk as [<- | [<- | [<- | [<- | [<- | [<- | []]]]]]]; tauto.
    + assert (Hx : letra x = true).
      { rewrite Ek in Hkl. apply sufijo_Forall in Hkl.
        inversion Hkl; assumption. }
      destruct (letra_propiedades x Hx) as (Hx1 & _ & Hx3 & _).
      destruct Hfin as (b0 & r0 & Es0 & Hb0 & Hr0).
      rewrite Esd in Es0. destruct b0 as [|z b0].
      * simpl in Es0. subst r0. rewrite app_nil_r in Hr0.
        destruct Hr0 as [(r' & Hr') | (r' & _ & Hp & _)].
        -- injection Hr' as Hr' _. congruence.
        -- destruct (ultimo_de_Some None (c :: w)) as (u & Hu);
             [discriminate |].
           rewrite Hu in Hp. simpl in Hp.
           assert (Hin : In u (y :: k')).
           { rewrite Ek. apply in_or_app. left.
             apply (ultimo_de_In None); [discriminate | exact Hu]. }
           unfold todos in Hkl. rewrite Forall_forall in Hkl.
           destruct (letra_propiedades u (Hkl u Hin)) as (_ & Hw & _).
           congruence.
      * simpl in Es0. injection Es0 as <- _.
        inversion Hb0 as [|? ? Hz _]. congruence.
Qed.

Lemma etiqueta_unica (code_area t t' : str) :
  es_etiqueta code_area t -> es_etiqueta code_area t' ->
  length t = length t' -> t = t'.
Proof.
  intros ((b & s & E & Hb & _ & _ & _ & _) & Hc)
         ((b' & s' & E' & Hb' & _ & _ & _ & _) & Hc') Hl.
  destruct t as [|c w]; [contradiction |].
  destruct t' as [|c' w']; [contradiction |].
  rewrite E in E'.
  assert (Hbb : b = b' /\ (c :: w) ++ s = (c' :: w') ++ s').
  { apply (prefijo_unico isspace); try assumption.
    - simpl. apply letra_o_digito_no_blanco. exact Hc.
    - simpl. apply letra_o_digito_no_blanco. exact Hc'. }
  destruct Hbb as (_ & Es).
  apply (app_igual_largo _ _ _ _ _ Es Hl).
Qed.

(** C4, as amended: on an upper-cased line, [detectar_parrafo] returns [t]
    exactly when the line is not blank and no column-7 comment, its code
    area does not start with a statement keyword, [t] is the longest token
    of 1 to 61 letters, digits and hyphens that begins with a letter or a
    digit, starts the code area and is followed by a period or the word
    SECTION, and [t] is no excluded word. *)
Theorem detectar_parrafo_correcto (linea t : str) :
  upper linea = linea ->
  (RoadMap.detectar_parrafo linea = Some t <->
   ~ en_blanco linea /\
   ~ comentario_columna_7 linea /\
   ~ empieza_por_sentencia (RoadMap.code_area_de linea) /\
   es_etiqueta (RoadMap.code_area_de linea) t /\
   (forall t', es_etiqueta (RoadMap.code_area_de linea) t' ->
               length t' <= length t) /\
   ~ In t palabras_excluidas).
Proof.
  intros Hu. unfold RoadMap.detectar_parrafo.
  set (ca := RoadMap.code_area_de linea).
  assert (Hca : upper ca = ca).
  { apply upper_fijo. apply upper_fijo in Hu.
    destruct (code_area_sufijo linea) as (a & Ha). rewrite Ha in Hu.
    apply sufijo_Forall in Hu. exact Hu. }
  rewrite (re_match_sin_minusculas _ _ patron_parrafo_mayusculo
             (upper_sin_minusculas _ Hca)).
  change RoadMap.excluidos with palabras_excluidas.
  destruct (vacia linea || vacia (strip linea)) eqn:Hv.
  { apply en_blanco_vacia in Hv. split; [discriminate | tauto]. }
  assert (Hnb : ~ en_blanco linea).
  { intros F. apply en_blanco_vacia in F. congruence. }
  destruct (RoadMap.columna_7_es_asterisco linea) eqn:H7.
  { apply columna_7_comentario in H7. split; [discriminate | tauto]. }
  assert (Hnc : ~ comentario_columna_7 linea).
  { intros F. apply columna_7_comentario in F. congruence. }
  destruct (existsb _ RoadMap.sentencias_iniciales) eqn:Hs.
  { apply (sentencia_inicial ca Hca) in Hs. split; [discriminate | tauto]. }
  destruct (re_match false RoadMap.patron_parrafo ca) as [m|] eqn:Em.
  - destruct (re_match_patron_parrafo _ _ Em) as (t0 & Hg & He & Hmax).
    unfold group. rewrite Hg.
    assert (Ht0 : todos RoadMap.letra_digito_o_guion t0).
    { destruct He as ((b & s & _ & _ & _ & Ht & _) & _). exact Ht. }
    destruct (etiqueta_strip_upper t0 Ht0) as (-> & Hup).
    rewrite Hup.
    destruct (pertenece t0 palabras_excluidas) eqn:Hp.
    + split; [discriminate |].
      intros (_ & _ & _ & He' & Hmax' & Hex). exfalso. apply Hex.
      apply pertenece_In in Hp.
      rewrite (etiqueta_unica ca t t0 He' He); [exact Hp |].
      apply Nat.le_antisymm; [apply Hmax; exact He' | apply Hmax'; exact He].
    + apply pertenece_false in Hp. split.
      * intros H. injection H as <-.
        repeat split; try assumption.
        -- apply (etiqueta_no_sentencia ca t0 He Hp).
        -- apply He.
        -- apply He.
      * intros (_ & _ & _ & He' & Hmax' & _). f_equal.
        apply (etiqueta_unica ca t0 t He He').
        apply Nat.le_antisymm; [apply Hmax'; exact He | apply Hmax; exact He'].
  - split; [discriminate |].
    intros (_ & _ & _ & He' & _). exfalso.
    apply (re_match_patron_parrafo_hay ca t He'). exact Em.
Qed.

Lemma detectar_parrafo_correcto_testigo :
  upper linea_de_parrafo = linea_de_parrafo /\
  RoadMap.detectar_parrafo linea_de_parrafo = Some (lit "MAIN-PARA") /\
  es_etiqueta (RoadMap.code_area_de linea_de_parrafo) (lit "MAIN-PARA").
Proof.
  assert (Hu : upper linea_de_parrafo = linea_de_parrafo).
  { vm_compute. reflexivity. }
  assert (Hd : RoadMap.detectar_parrafo linea_de_parrafo
               = Some (lit "MAIN-PARA")).
  { vm_compute. reflexivity. }
  split; [exact Hu | split; [exact Hd |]].
  exact (proj1 (proj2 (proj2 (proj2
           (proj1 (detectar_parrafo_correcto linea_de_parrafo
                     (lit "MAIN-PARA") Hu) Hd))))).
Defined.

(** C4 as stated fails on a token that begins with a hyphen: every
    condition of the claim holds for the line [-A.] and the token [-A],
    and [detectar_parrafo] returns nothing. *)
Lemma detectar_parrafo_guion_inicial :
  upper linea_con_guion = linea_con_guion /\
  ~ en_blanco linea_con_guion /\
  ~ comentario_columna_7 linea_con_guion /\
  ~ empieza_por_sentencia (RoadMap.code_area_de linea_con_guion) /\
  es_etiqueta_literal (RoadMap.code_area_de linea_con_guion) (lit "-A") /\
  ~ In (lit "-A") palabras_excluidas /\
  RoadMap.detectar_parrafo linea_con_guion = None.
Proof.
  split; [vm_compute; reflexivity |].
  split; [intros H; apply strip_vacia in H; vm_compute in H; discriminate H |].
  split; [intros H; vm_compute in H; discriminate H |].
  split.
  { intros (b & k & r & E & _).
    assert (H : In 32%N (RoadMap.code_area_de linea_con_guion)).
    { rewrite E. apply in_or_app. right. apply in_or_app. right.
      left. reflexivity. }
    vm_compute in H. destruct H as [H | [H | [H | []]]]; discriminate H. }
  split.
  { exists [], (lit "."). split; [vm_compute; reflexivity |].
    split; [constructor |]. split; [discriminate |].
    split; [repeat constructor |]. split; [vm_compute; lia |].
    exists [], (lit "."). split; [reflexivity |]. split; [constructor |].
    left. exists []. reflexivity. }
  split.
  { intros H. apply pertenece_In in H. vm_compute in H. discriminate H. }
  vm_compute. reflexivity.
Qed.

(** * Further properties *)

(** ** The reachable set *)

Lemma rev_cons_app (A : Type) (l : list A) (x : A) (r : list A) :
  rev l = x :: r -> l = rev r ++ [x].
Proof.
  intros H. apply (f_equal (@rev A)) in H. rewrite rev_involutive in H.
  exact H.
Qed.

Lemma por_visitar_cons (g : dict (list str)) (a : str) (acc : list str) :
  length (por_visitar g (a :: acc)) <= length (por_visitar g acc).
Proof.
  induction g as [|[k v] g IH]; simpl; [lia |].
  rewrite !length_app, pertenece_cons.
  destruct (str_eqb k a); simpl.
  - destruct (pertenece k acc); simpl; lia.
  - destruct (pertenece k acc); simpl; lia.
Qed.

Lemma por_visitar_baja (g : dict (list str)) (a : str) (acc : list str) :
  ~ In a acc ->
  length (por_visitar g (a :: acc)) + length (get a [] g)
  <= length (por_visitar g acc).
Proof.
  intros Ha. apply pertenece_false in Ha.
  induction g as [|[k v] g IH]; [simpl; lia |].
  unfold get in *. simpl. rewrite !length_app, pertenece_cons.
  destruct (str_eqb k a) eqn:E.
  - apply str_eqb_eq in E. subst k. rewrite Ha. simpl.
    pose proof (por_visitar_cons g a acc). lia.
  - simpl. destruct (pertenece k acc); simpl; lia.
Qed.

(** The search returns with fuel for each pending node and each destination
    still to be met. *)
Lemma accesibles_desde_termina (g : dict (list str)) (fuel : nat) :
  forall acc pend,
    length pend + length (por_visitar g acc) <= fuel ->
    RoadMap.accesibles_desde fuel g acc pend <> None.
Proof.
  induction fuel as [|fuel IH]; intros acc pend Hf.
  - destruct pend; [simpl; discriminate | simpl in Hf; lia].
  - simpl. destruct (rev pend) as [|a q] eqn:E; [discriminate |].
    apply rev_cons_app in E. subst pend.
    rewrite length_app in Hf. simpl in Hf.
    destruct (pertenece a acc) eqn:P.
    + apply IH. lia.
    + apply pertenece_false in P. apply IH. rewrite length_app.
      pose proof (por_visitar_baja g a acc P). lia.
Qed.

Lemma accesibles_desde_mas_fuel (g : dict (list str)) (fuel : nat) :
  forall fuel' acc pend r,
    fuel <= fuel' ->
    RoadMap.accesibles_desde fuel g acc pend = Some r ->
    RoadMap.accesibles_desde fuel' g acc pend = Some r.
Proof.
  induction fuel as [|fuel IH]; intros fuel' acc pend r Hle H.
  - destruct fuel'; simpl in *; destruct (rev pend); congruence.
  - destruct fuel' as [|fuel']; [lia |]. simpl in *.
    destruct (rev pend) as [|a q]; [exact H |].
    destruct (pertenece a acc); apply IH; try lia; exact H.
Qed.

Section Busqueda.
Variable g : dict (list str).
Variable r : str.

Lemma accesibles_desde_bien (fuel : nat) :
  forall acc pend res,
    busqueda_bien g r acc pend ->
    RoadMap.accesibles_desde fuel g acc pend = Some res ->
    busqueda_bien g r res [].
Proof.
  induction fuel as [|fuel IH]; intros acc pend res Hb H.
  - simpl in H. destruct (rev pend) as [|a q] eqn:E; [| discriminate H].
    injection H as <-.
    assert (pend = []) as ->.
    { apply (f_equal (@rev _)) in E. rewrite rev_involutive in E. exact E. }
    exact Hb.
  - simpl in H. destruct (rev pend) as [|a q] eqn:E.
    + injection H as <-.
      assert (pend = []) as ->.
      { apply (f_equal (@rev _)) in E. rewrite rev_involutive in E. exact E. }
      exact Hb.
    + apply rev_cons_app in E. subst pend.
      destruct Hb as (H1 & H2 & H3 & H4).
      destruct (pertenece a acc) eqn:P.
      * apply pertenece_In in P. apply (IH acc (rev q) res); [| exact H].
        split; [| split; [| split]].
        -- intros n [Hn | Hn]; apply H1; [left; exact Hn |].
           right. apply in_or_app. left. exact Hn.
        -- intros n m Hn Hm. destruct (H2 n m Hn Hm) as [Hx | Hx];
             [left; exact Hx |].
           apply in_app_or in Hx. destruct Hx as [Hx | [<- | []]];
             [right; exact Hx | left; exact P].
        -- exact H3.
        -- destruct H4 as [Hx | Hx]; [left; exact Hx |].
           apply in_app_or in Hx. destruct Hx as [Hx | [<- | []]];
             [right; exact Hx | left; exact P].
      * apply pertenece_false in P.
        assert (Ha : alcanzable g r a).
        { apply H1. right. apply in_or_app. right. left. reflexivity. }
        apply (IH (a :: acc) (rev q ++ get a [] g) res); [| exact H].
        split; [| split; [| split]].
        -- intros n [[<- | Hn] | Hn]; [exact Ha | apply H1; left; exact Hn |].
           apply in_app_or in Hn. destruct Hn as [Hn | Hn].
           ++ apply H1. right. apply in_or_app. left. exact Hn.
           ++ apply alcanzable_paso with (b := a); [exact Ha | exact Hn].
        -- intros n m [<- | Hn] Hm.
           ++ right. apply in_or_app. right. exact Hm.
           ++ destruct (H2 n m Hn Hm) as [Hx | Hx];
                [left; right; exact Hx |].
              apply in_app_or in Hx. destruct Hx as [Hx | [<- | []]].
              ** right. apply in_or_app. left. exact Hx.
              ** left. left. reflexivity.
        -- constructor; assumption.
        -- destruct H4 as [Hx | Hx]; [left; right; exact Hx |].
           apply in_app_or in Hx. destruct Hx as [Hx | [<- | []]].
           ++ right. apply in_or_app. left. exact Hx.
           ++ left. left. reflexivity.
Qed.

Lemma busqueda_bien_completa (res : list str) :
  busqueda_bien g r res [] -> forall n, In n res <-> alcanzable g r n.
Proof.
  intros (H1 & H2 & _ & H4) n. split.
  - intros Hn. apply H1. left. exact Hn.
  - assert (Hc : forall a m, alcanzable g a m -> In a res -> In m res).
    { intros a m Hm. induction Hm as [a|a b c _ IH Hbc]; intros Ha.
      - exact Ha.
      - destruct (H2 b c (IH Ha) Hbc) as [Hx | []]. exact Hx. }
    intros Hn. apply (Hc r n Hn). destruct H4 as [Hx | []]. exact Hx.
Qed.

End Busqueda.

(** X1: with fuel above the number of recorded destinations,
    [obtener_parrafos_accesibles] returns, whatever the cycles; the set it
    returns holds each node once and is exactly the set of nodes reached
    from the start (or from [__START__] when the start is empty). *)
Theorem obtener_parrafos_accesibles_correcto (g : dict (list str))
    (parrafo_inicio : str) :
  exists accesibles,
    (forall fuel,
       length (destinos_de g) < fuel ->
       RoadMap.obtener_parrafos_accesibles fuel g parrafo_inicio
       = Some accesibles) /\
    NoDup accesibles /\
    forall n, In n accesibles
              <-> alcanzable g (inicio_o_start parrafo_inicio) n.
Proof.
  unfold RoadMap.obtener_parrafos_accesibles.
  fold (inicio_o_start parrafo_inicio).
  set (r := inicio_o_start parrafo_inicio).
  set (cota := S (length (destinos_de g))).
  assert (Hpot : length (por_visitar g []) = length (destinos_de g)).
  { unfold por_visitar, destinos_de. f_equal. }
  destruct (RoadMap.accesibles_desde cota g [] [r]) as [res|] eqn:E.
  2:{ exfalso. revert E. apply accesibles_desde_termina.
      rewrite Hpot. unfold cota. simpl. lia. }
  assert (Hb : busqueda_bien g r res []).
  { apply (accesibles_desde_bien g r cota [] [r]); [| exact E].
    split; [| split; [| split]].
    - intros n [[] | [<- | []]]. apply alcanzable_aqui.
    - intros n m [].
    - constructor.
    - right. left. reflexivity. }
  exists res. split; [| split].
  - intros fuel Hf. apply (accesibles_desde_mas_fuel g cota); [| exact E].
    unfold cota. lia.
  - apply Hb.
  - apply busqueda_bien_completa. exact Hb.
Qed.

(** ** The filter, in closed form *)

Lemma buscar_poner (V : Type) (k k' : str) (v : V) (d : dict V) :
  buscar k (poner k' v d) = if str_eqb k' k then Some v else buscar k d.
Proof.
  induction d as [|[k0 v0] d IH]; simpl.
  - destruct (str_eqb k' k); reflexivity.
  - destruct (str_eqb k0 k') eqn:E0; simpl.
    + apply str_eqb_eq in E0. subst k0.
      destruct (str_eqb k' k); reflexivity.
    + destruct (str_eqb k0 k) eqn:E1.
      * apply str_eqb_eq in E1. subst k0.
        destruct (str_eqb k' k) eqn:E2; [| reflexivity].
        apply str_eqb_eq in E2. subst k'. rewrite str_eqb_refl in E0.
        discriminate E0.
      * exact IH.
Qed.

Lemma tiene_anexar (o x k : str) (g : dict (list str)) :
  tiene o g = true -> tiene k (anexar o x g) = tiene k g.
Proof.
  intros Ho. unfold tiene, anexar in *. rewrite buscar_poner.
  destruct (str_eqb o k) eqn:E; [| reflexivity].
  apply str_eqb_eq in E. subst k. destruct (buscar o g); congruence.
Qed.

Lemma get_anexar (o x k : str) (g : dict (list str)) :
  get k [] (anexar o x g)
  = if str_eqb o k then get o [] g ++ [x] else get k [] g.
Proof.
  unfold anexar. unfold get at 1. rewrite buscar_poner.
  destruct (str_eqb o k); reflexivity.
Qed.

Lemma existsb_igual (A : Type) (p q : A -> bool) (l : list A) :
  (forall x, p x = q x) -> existsb p l = existsb q l.
Proof.
  intros H. induction l as [|x l IH]; simpl; [reflexivity |].
  rewrite H, IH. reflexivity.
Qed.

Lemma salvo_inicio_refl (inicio : str) (g : dict (list str)) :
  salvo_inicio inicio g g.
Proof. split; reflexivity. Qed.

Lemma salvo_inicio_trans (inicio : str) (g1 g2 g3 : dict (list str)) :
  salvo_inicio inicio g1 g2 -> salvo_inicio inicio g2 g3 ->
  salvo_inicio inicio g1 g3.
Proof.
  intros [A1 A2] [B1 B2]. split.
  - intros k. rewrite B1. apply A1.
  - intros k Hk. rewrite B2 by exact Hk. apply A2. exact Hk.
Qed.

Lemma salvo_inicio_anexar (inicio x : str) (g : dict (list str)) :
  tiene inicio g = true -> salvo_inicio inicio g (anexar inicio x g).
Proof.
  intros Hi. split.
  - intros k. apply tiene_anexar. exact Hi.
  - intros k Hk. rewrite get_anexar.
    destruct (str_eqb inicio k) eqn:E; [| reflexivity].
    apply str_eqb_eq in E. congruence.
Qed.

Lemma clave_ajena_salvo (inicio : str) (g g' : dict (list str)) :
  salvo_inicio inicio g g' ->
  forall d, clave_ajena g' inicio d = clave_ajena g inicio d.
Proof. intros [H _] d. unfold clave_ajena. rewrite H. reflexivity. Qed.

Lemma conflictivo_salvo (inicio : str) (g g' : dict (list str)) :
  salvo_inicio inicio g g' ->
  forall o, conflictivo g' inicio o = conflictivo g inicio o.
Proof.
  intros Hs o. unfold conflictivo.
  destruct (str_eqb o inicio) eqn:E; [reflexivity |]. simpl.
  apply str_eqb_neq in E. destruct Hs as [H1 H2]. rewrite (H2 o E).
  apply existsb_igual. intros d. apply clave_ajena_salvo. split; assumption.
Qed.

Lemma conflictivo_iff (g : dict (list str)) (inicio o : str) :
  conflictivo g inicio o = true <-> conflicto g inicio o.
Proof.
  unfold conflictivo, conflicto, clave_ajena.
  rewrite andb_true_iff, negb_true_iff, str_eqb_neq, existsb_exists.
  split; intros [Ho (d & Hd & H)]; (split; [exact Ho |]); exists d.
  - apply andb_true_iff in H. destruct H as [H1 H2].
    apply negb_true_iff, str_eqb_neq in H1. apply tiene_In in H2. tauto.
  - split; [exact Hd |]. destruct H as [H1 H2].
    apply andb_true_iff. split.
    + apply negb_true_iff, str_eqb_neq. exact H1.
    + apply tiene_In. exact H2.
Qed.

(** The turn of an origin other than the start: the first key among its
    destinations raises, and without one nothing changes. *)
Lemma vaciar_pendientes_otro (inicio o : str) (g : dict (list str))
    (fuel : nat) :
  o <> inicio ->
  forall pend,
    length pend <= fuel ->
    RoadMap.vaciar_pendientes fuel g [inicio] o pend
    = if existsb (clave_ajena g inicio) pend
      then Lanza (KeyError o) else Devuelve g.
Proof.
  intros Ho. apply str_eqb_neq in Ho.
  induction fuel as [|fuel IH]; intros pend Hlen.
  - destruct pend; [reflexivity | simpl in Hlen; lia].
  - simpl. destruct (rev pend) as [|d q] eqn:E.
    + apply (f_equal (@rev _)) in E. rewrite rev_involutive in E.
      subst pend. reflexivity.
    + apply rev_cons_app in E. subst pend. rewrite length_app in Hlen.
      simpl in Hlen. rewrite existsb_app. simpl. rewrite orb_false_r.
      rewrite !pertenece_cons. unfold clave_ajena at 2.
      change (pertenece d []) with false. change (pertenece o []) with false.
      rewrite !orb_false_r, Ho.
      destruct (str_eqb d inicio); simpl.
      * rewrite orb_false_r. apply IH. lia.
      * destruct (tiene d g) eqn:Ht.
        -- rewrite orb_true_r. reflexivity.
        -- rewrite orb_false_r, get_ausente, app_nil_r by exact Ht.
           apply IH. lia.
Qed.

(** The turn of the start: each key among its destinations, from the last
    to the first, is appended to its own list. *)
Lemma vaciar_pendientes_inicio (inicio : str) (fuel : nat) :
  forall g pend,
    tiene inicio g = true ->
    length pend <= fuel ->
    exists g',
      RoadMap.vaciar_pendientes fuel g [inicio] inicio pend = Devuelve g' /\
      salvo_inicio inicio g g' /\
      get inicio [] g'
      = get inicio [] g ++ rev (filter (clave_ajena g inicio) pend).
Proof.
  induction fuel as [|fuel IH]; intros g pend Hi Hlen.
  - destruct pend; [| simpl in Hlen; lia]. exists g. simpl.
    rewrite app_nil_r. split; [reflexivity |].
    split; [apply salvo_inicio_refl | reflexivity].
  - simpl. destruct (rev pend) as [|d q] eqn:E.
    + apply (f_equal (@rev _)) in E. rewrite rev_involutive in E.
      subst pend. exists g. simpl. rewrite app_nil_r.
      split; [reflexivity |].
      split; [apply salvo_inicio_refl | reflexivity].
    + apply rev_cons_app in E. subst pend. rewrite length_app in Hlen.
      simpl in Hlen. rewrite filter_app, rev_app_distr. simpl.
      rewrite !pertenece_cons.
      assert (Hd : clave_ajena g inicio d
                   = negb (str_eqb d inicio) && tiene d g) by reflexivity.
      rewrite Hd. clear Hd.
      change (pertenece d []) with false.
      change (pertenece inicio []) with false.
      rewrite !orb_false_r, str_eqb_refl.
      destruct (str_eqb d inicio); simpl.
      * apply IH; [exact Hi | lia].
      * destruct (tiene d g) eqn:Ht; simpl.
        -- destruct (IH (anexar inicio d g) (rev q)) as (g' & R & Hs & G).
           { rewrite tiene_anexar; exact Hi. }
           { lia. }
           exists g'. split; [exact R |]. split.
           ++ apply salvo_inicio_trans with (g2 := anexar inicio d g);
                [apply salvo_inicio_anexar; exact Hi | exact Hs].
           ++ rewrite G, get_anexar, str_eqb_refl, <- app_assoc. simpl.
              f_equal. f_equal. f_equal. apply filter_ext. intros x.
              apply clave_ajena_salvo. apply salvo_inicio_anexar. exact Hi.
        -- rewrite get_ausente, app_nil_r by exact Ht.
           apply IH; [exact Hi | lia].
Qed.

Lemma find_igual (A : Type) (p q : A -> bool) (l : list A) :
  (forall x, p x = q x) -> find p l = find q l.
Proof.
  intros H. induction l as [|x l IH]; simpl; [reflexivity |].
  rewrite H, IH. reflexivity.
Qed.

Lemma find_primero (A : Type) (p : A -> bool) (l : list A) (x : A) :
  find p l = Some x <->
  exists antes despues,
    l = antes ++ x :: despues /\ p x = true /\
    forall y, In y antes -> p y = false.
Proof.
  induction l as [|z l IH]; simpl.
  - split; [discriminate |].
    intros (a & b & H & _). destruct a; discriminate H.
  - destruct (p z) eqn:E.
    + split.
      * intros H. injection H as <-. exists [], l.
        split; [reflexivity |]. split; [exact E |]. intros y [].
      * intros (a & b & H & Hx & Ha). destruct a as [|z' a].
        -- injection H as -> _. reflexivity.
        -- injection H as <- _. rewrite (Ha z) in E by (left; reflexivity).
           discriminate E.
    + rewrite IH. split.
      * intros (a & b & -> & Hx & Ha). exists (z :: a), b.
        split; [reflexivity |]. split; [exact Hx |].
        intros y [<- | Hy]; [exact E | apply Ha; exact Hy].
      * intros (a & b & H & Hx & Ha). destruct a as [|z' a].
        -- injection H as -> _. rewrite Hx in E. discriminate E.
        -- injection H as <- ->. exists a, b.
           split; [reflexivity |]. split; [exact Hx |].
           intros y Hy. apply Ha. right. exact Hy.
Qed.

(** The loop over the origins: the first origin it cannot serve raises;
    without one, only the list of the start has grown, once. *)
Lemma recorrer_origenes_forma (inicio : str) (origenes : list str) :
  forall g,
    tiene inicio g = true ->
    match find (conflictivo g inicio) origenes with
    | Some o =>
        RoadMap.recorrer_origenes origenes g [inicio] = Lanza (KeyError o)
    | None =>
        exists g',
          RoadMap.recorrer_origenes origenes g [inicio] = Devuelve g' /\
          salvo_inicio inicio g g' /\
          (NoDup origenes ->
           get inicio [] g'
           = if pertenece inicio origenes
             then get inicio [] g
                  ++ rev (filter (clave_ajena g inicio) (get inicio [] g))
             else get inicio [] g)
    end.
Proof.
  induction origenes as [|o os IH]; intros g Hi.
  - simpl. exists g. split; [reflexivity |].
    split; [apply salvo_inicio_refl | reflexivity].
  - cbn [find RoadMap.recorrer_origenes]. cbv zeta.
    destruct (str_eqb o inicio) eqn:E.
    + apply str_eqb_eq in E. subst o.
      assert (Hc : conflictivo g inicio inicio = false).
      { unfold conflictivo. rewrite str_eqb_refl. reflexivity. }
      rewrite Hc.
      destruct (vaciar_pendientes_inicio inicio
                  (length (get inicio [] g)) g (get inicio [] g) Hi
                  (le_n _)) as (g1 & R & Hs & G).
      rewrite R.
      assert (Hi1 : tiene inicio g1 = true).
      { destruct Hs as [H1 _]. rewrite H1. exact Hi. }
      specialize (IH g1 Hi1).
      rewrite (find_igual _ _ _ os (conflictivo_salvo inicio g g1 Hs)) in IH.
      destruct (find (conflictivo g inicio) os) as [o'|]; [exact IH |].
      destruct IH as (g' & R' & Hs' & G'). exists g'.
      split; [exact R' |].
      split; [apply salvo_inicio_trans with (g2 := g1); assumption |].
      intros Hnd. inversion Hnd as [|x xs Hno Hnd']. subst x xs.
      rewrite pertenece_cons, str_eqb_refl. simpl.
      rewrite (G' Hnd'). apply pertenece_false in Hno. rewrite Hno.
      exact G.
    + assert (Ho : o <> inicio) by (apply str_eqb_neq; exact E).
      rewrite (vaciar_pendientes_otro inicio o g _ Ho (get o [] g) (le_n _)).
      unfold conflictivo at 1. rewrite E. simpl.
      destruct (existsb (clave_ajena g inicio) (get o [] g));
        [reflexivity |].
      specialize (IH g Hi).
      destruct (find (conflictivo g inicio) os) as [o'|]; [exact IH |].
      destruct IH as (g' & R' & Hs' & G'). exists g'.
      split; [exact R' |]. split; [exact Hs' |].
      intros Hnd. inversion Hnd as [|x xs Hno Hnd']. subst x xs.
      rewrite pertenece_cons.
      assert (E' : str_eqb inicio o = false).
      { apply str_eqb_neq. congruence. }
      rewrite E'. simpl. apply G'. exact Hnd'.
Qed.

(** X2: on a graph whose start is a key and where no other key lists a key
    other than the start, the filter returns without printing one entry,
    that of the start: its list followed by the keys other than the start
    that the list names, the last named first. *)
Theorem filtrar_devuelve_la_entrada_del_inicio (g : dict (list str))
    (inicio : str) :
  In inicio (claves g) ->
  NoDup (claves g) ->
  (forall o, In o (claves g) -> ~ conflicto g inicio o) ->
  RoadMap.filtrar_desde_parrafo_inicio g inicio
  = ([], Devuelve
           [(inicio,
             get inicio [] g
             ++ rev (filter (clave_ajena g inicio) (get inicio [] g)))]).
Proof.
  intros Hi Hnd Hno. unfold RoadMap.filtrar_desde_parrafo_inicio.
  assert (Ht : tiene inicio g = true) by (apply tiene_In; exact Hi).
  rewrite Ht. simpl negb. cbv iota.
  pose proof (recorrer_origenes_forma inicio (claves g) g Ht) as H.
  destruct (find (conflictivo g inicio) (claves g)) as [o|] eqn:E.
  - apply find_some in E. destruct E as [Ho Hc].
    apply conflictivo_iff in Hc. destruct (Hno o Ho Hc).
  - destruct H as (g' & R & _ & G). rewrite R, (G Hnd).
    apply pertenece_In in Hi. rewrite Hi. reflexivity.
Qed.

Lemma filtrar_devuelve_la_entrada_del_inicio_testigo :
  let g := [(lit "A", [lit "B"; lit "X"]); (lit "B", [lit "Z"; lit "A"])] in
  In (lit "A") (claves g) /\
  NoDup (claves g) /\
  RoadMap.filtrar_desde_parrafo_inicio g (lit "A")
  = ([], Devuelve [(lit "A", [lit "B"; lit "X"; lit "B"])]).
Proof.
  intros g.
  assert (Hi : In (lit "A") (claves g)) by (left; reflexivity).
  assert (Hnd : NoDup (claves g)).
  { repeat constructor; simpl; intros H; repeat destruct H as [H | H];
      try discriminate H; exact H. }
  assert (Hno : forall o, In o (claves g) -> ~ conflicto g (lit "A") o).
  { intros o Ho Hc. apply conflictivo_iff in Hc.
    destruct Ho as [<- | [<- | []]]; vm_compute in Hc; discriminate Hc. }
  split; [exact Hi |]. split; [exact Hnd |].
  exact (filtrar_devuelve_la_entrada_del_inicio g (lit "A") Hi Hnd Hno).
Defined.

(** X3: with the start a key, the filter raises exactly when some key other
    than the start lists a key other than the start; the error is the
    [KeyError] of the first such key, in the order of the graph. *)
Theorem filtrar_lanza_en_el_primer_conflicto (g : dict (list str))
    (inicio : str) (e : excepcion) :
  In inicio (claves g) ->
  (snd (RoadMap.filtrar_desde_parrafo_inicio g inicio) = Lanza e <->
   exists antes o despues,
     e = KeyError o /\
     claves g = antes ++ o :: despues /\
     conflicto g inicio o /\
     forall o', In o' antes -> ~ conflicto g inicio o').
Proof.
  intros Hi. unfold RoadMap.filtrar_desde_parrafo_inicio.
  assert (Ht : tiene inicio g = true) by (apply tiene_In; exact Hi).
  rewrite Ht. simpl negb. cbv iota.
  pose proof (recorrer_origenes_forma inicio (claves g) g Ht) as H.
  destruct (find (conflictivo g inicio) (claves g)) as [o|] eqn:E.
  - rewrite H. simpl. apply find_primero in E.
    destruct E as (a & b & Hk & Hc & Ha). split.
    + intros Hl. injection Hl as <-. exists a, o, b.
      split; [reflexivity |]. split; [exact Hk |].
      split; [apply conflictivo_iff; exact Hc |].
      intros o' Ho' Hc'. apply conflictivo_iff in Hc'.
      rewrite (Ha o' Ho') in Hc'. discriminate Hc'.
    + intros (a' & o' & b' & -> & Hk' & Hc' & Ha').
      assert (Hf : find (conflictivo g inicio) (claves g) = Some o').
      { apply find_primero. exists a', b'. split; [exact Hk' |].
        split; [apply conflictivo_iff; exact Hc' |].
        intros y Hy. destruct (conflictivo g inicio y) eqn:Ey;
          [| reflexivity].
        apply conflictivo_iff in Ey. destruct (Ha' y Hy Ey). }
      assert (Hf0 : find (conflictivo g inicio) (claves g) = Some o).
      { apply find_primero. exists a, b. auto. }
      rewrite Hf in Hf0. injection Hf0 as ->. reflexivity.
  - destruct H as (g' & R & _). rewrite R. simpl. split; [discriminate |].
    intros (a' & o' & b' & _ & Hk' & Hc' & _).
    apply conflictivo_iff in Hc'.
    rewrite (find_none _ _ E o') in Hc'; [discriminate Hc' |].
    rewrite Hk'. apply in_or_app. right. left. reflexivity.
Qed.

Lemma filtrar_lanza_en_el_primer_conflicto_testigo :
  let g := [(lit "A", [lit "B"]); (lit "B", [lit "C"]); (lit "C", [lit "B"])]
  in
  In (lit "A") (claves g) /\
  snd (RoadMap.filtrar_desde_parrafo_inicio g (lit "A"))
  = Lanza (KeyError (lit "B")).
Proof.
  intros g.
  assert (Hi : In (lit "A") (claves g)) by (left; reflexivity).
  split; [exact Hi |].
  apply (filtrar_lanza_en_el_primer_conflicto g (lit "A")
           (KeyError (lit "B")) Hi).
  exists [lit "A"], (lit "B"), [lit "C"].
  split; [reflexivity |]. split; [reflexivity |]. split.
  - apply conflictivo_iff. vm_compute. reflexivity.
  - intros o' [<- | []] Hc. apply conflictivo_iff in Hc. vm_compute in Hc.
    discriminate Hc.
Defined.

(** ** The SQL block, line by line *)

Lemma leer_bloque_hasta (antes : list str) :
  forall fin resto bloque,
    Forall (fun l => cierra_bloque l = false) antes ->
    cierra_bloque fin = true ->
    RoadMap.leer_bloque (antes ++ fin :: resto) bloque
    = (bloque ++ List.map strip (antes ++ [fin]), resto).
Proof.
  unfold cierra_bloque.
  induction antes as [|l ls IH]; intros fin resto bloque Ha Hf; simpl.
  - rewrite Hf. reflexivity.
  - inversion Ha as [|x xs Hl Hls]. subst x xs. rewrite Hl.
    rewrite (IH fin resto _ Hls Hf), <- app_assoc. reflexivity.
Qed.

Lemma leer_bloque_sin_fin (archivo : list str) :
  forall bloque,
    Forall (fun l => cierra_bloque l = false) archivo ->
    RoadMap.leer_bloque archivo bloque
    = (bloque ++ List.map strip archivo, []).
Proof.
  unfold cierra_bloque.
  induction archivo as [|l ls IH]; intros bloque Ha; simpl.
  - rewrite app_nil_r. reflexivity.
  - inversion Ha as [|x xs Hl Hls]. subst x xs. rewrite Hl.
    rewrite (IH _ Hls), <- app_assoc. reflexivity.
Qed.

(** X4: the block ends with the first line that holds END-EXEC in either
    case: the lines up to it, stripped and joined by one blank, are what
    the extractor sees, and the lines after it are left in the file. *)
Theorem procesar_bloque_sql_hasta_end_exec (antes : list str)
    (fin : str) (resto : list str) (p : str) (indice : dict (list str)) :
  Forall (fun l => cierra_bloque l = false) antes ->
  cierra_bloque fin = true ->
  RoadMap.procesar_bloque_sql (antes ++ fin :: resto) p indice
  = (resto,
     RoadMap.anotar p (RoadMap.extraer_sentencias_sql (bloque_de (antes ++ [fin])))
       indice).
Proof.
  intros Ha Hf. unfold RoadMap.procesar_bloque_sql.
  rewrite (leer_bloque_hasta antes fin resto [] Ha Hf). reflexivity.
Qed.

Lemma procesar_bloque_sql_hasta_end_exec_testigo :
  let antes := [lit "  SELECT NOMBRE"; lit "  FROM CLIENTES"] in
  Forall (fun l => cierra_bloque l = false) antes /\
  cierra_bloque (lit "  end-exec.") = true /\
  RoadMap.procesar_bloque_sql
    (antes ++ lit "  end-exec." :: [lit "  MOVE A TO B."]) (lit "P1") []
  = ([lit "  MOVE A TO B."], [(lit "P1", [lit "SELECT ... CLIENTES"])]).
Proof.
  intros antes.
  assert (Ha : Forall (fun l => cierra_bloque l = false) antes).
  { repeat constructor. }
  assert (Hf : cierra_bloque (lit "  end-exec.") = true) by reflexivity.
  split; [exact Ha |]. split; [exact Hf |].
  rewrite (procesar_bloque_sql_hasta_end_exec antes (lit "  end-exec.")
             [lit "  MOVE A TO B."] (lit "P1") [] Ha Hf).
  vm_compute. reflexivity.
Defined.

(** X5: a block that no line closes takes every line left in the file. *)
Theorem procesar_bloque_sql_sin_end_exec (archivo : list str) (p : str)
    (indice : dict (list str)) :
  Forall (fun l => cierra_bloque l = false) archivo ->
  RoadMap.procesar_bloque_sql archivo p indice
  = ([],
     RoadMap.anotar p (RoadMap.extraer_sentencias_sql (bloque_de archivo))
       indice).
Proof.
  intros Ha. unfold RoadMap.procesar_bloque_sql.
  rewrite (leer_bloque_sin_fin archivo [] Ha). reflexivity.
Qed.

Lemma procesar_bloque_sql_sin_end_exec_testigo :
  let archivo := [lit "  UPDATE CLIENTES"; lit "  P2."; lit "  STOP RUN."] in
  Forall (fun l => cierra_bloque l = false) archivo /\
  RoadMap.procesar_bloque_sql archivo (lit "P1") []
  = ([], [(lit "P1", [lit "UPDATE ... CLIENTES"])]).
Proof.
  intros archivo.
  assert (Ha : Forall (fun l => cierra_bloque l = false) archivo).
  { repeat constructor. }
  split; [exact Ha |].
  rewrite (procesar_bloque_sql_sin_end_exec archivo (lit "P1") [] Ha).
  vm_compute. reflexivity.
Defined.

Lemma buscar_anexar (o x k : str) (g : dict (list str)) :
  buscar k (anexar o x g)
  = if str_eqb o k then Some (get o [] g ++ [x]) else buscar k g.
Proof. unfold anexar. apply buscar_poner. Qed.

Lemma anotar_otros (p k : str) (sentencias : list (str * str)) :
  forall indice,
    k <> p ->
    buscar k (RoadMap.anotar p sentencias indice) = buscar k indice.
Proof.
  induction sentencias as [|[t o] ss IH]; intros indice Hk; simpl;
    [reflexivity |].
  rewrite (IH _ Hk), buscar_anexar.
  destruct (str_eqb p k) eqn:E; [| reflexivity].
  apply str_eqb_eq in E. congruence.
Qed.

Lemma anotar_propio (p : str) (sentencias : list (str * str)) :
  forall indice,
    get p [] (RoadMap.anotar p sentencias indice)
    = get p [] indice ++ List.map anotacion sentencias.
Proof.
  induction sentencias as [|[t o] ss IH]; intros indice; simpl.
  - rewrite app_nil_r. reflexivity.
  - rewrite IH, get_anexar, str_eqb_refl, <- app_assoc. reflexivity.
Qed.

Lemma anotar_claves (p k : str) (sentencias : list (str * str)) :
  forall indice,
    tiene k (RoadMap.anotar p sentencias indice)
    = tiene k indice
      || (str_eqb p k && negb (Nat.eqb (length sentencias) 0)).
Proof.
  induction sentencias as [|[t o] ss IH]; intros indice; simpl.
  - rewrite andb_false_r, orb_false_r. reflexivity.
  - rewrite IH. unfold tiene at 1. rewrite buscar_anexar.
    fold (tiene k indice).
    destruct (str_eqb p k); simpl.
    + rewrite orb_true_r. destruct ss; reflexivity.
    + rewrite ?orb_false_r. reflexivity.
Qed.

(** X6: a block touches the index at the current paragraph only: the
    annotation of each statement is appended to its entry, in the order of
    the statements; the entries of the other paragraphs stay as they are,
    and a block without statements creates no entry. *)
Theorem procesar_bloque_sql_anota (archivo : list str) (p : str)
    (indice : dict (list str)) :
  let leidas := fst (RoadMap.leer_bloque archivo []) in
  let sentencias :=
    RoadMap.extraer_sentencias_sql (upper (join (lit " ") leidas)) in
  let indice' := snd (RoadMap.procesar_bloque_sql archivo p indice) in
  get p [] indice' = get p [] indice ++ List.map anotacion sentencias /\
  (forall k, k <> p -> buscar k indice' = buscar k indice) /\
  (forall k, tiene k indice' = true <->
             tiene k indice = true \/ (k = p /\ sentencias <> [])).
Proof.
  intros leidas sentencias indice'.
  assert (E : indice' = RoadMap.anotar p sentencias indice).
  { unfold indice', sentencias, leidas, RoadMap.procesar_bloque_sql.
    destruct (RoadMap.leer_bloque archivo []) as [b r]. reflexivity. }
  rewrite E. split; [apply anotar_propio |].
  split; [intros k Hk; apply anotar_otros; exact Hk |].
  intros k. rewrite anotar_claves, orb_true_iff, andb_true_iff,
    negb_true_iff, str_eqb_eq, Nat.eqb_neq.
  split; (intros [H | [H1 H2]]; [left; exact H | right]).
  - split; [symmetry; exact H1 |]. intros H. apply H2. rewrite H.
    reflexivity.
  - split; [symmetry; exact H1 |]. intros H. apply H2.
    destruct sentencias; [reflexivity | discriminate H].
Qed.

(** ** The SQL statements of a block *)

Lemma es_palabra_otra_caja (c : char) :
  en_clase true es_palabra c = es_palabra c.
Proof.
  unfold en_clase. simpl. unfold otra_caja.
  destruct (entre 65 90 c) eqn:E1.
  - assert (H : es_palabra c = true).
    { unfold es_palabra. rewrite E1. simpl. rewrite orb_true_r. reflexivity. }
    rewrite H. reflexivity.
  - destruct (entre 97 122 c) eqn:E2; [| apply orb_diag].
    assert (H : es_palabra c = true).
    { unfold es_palabra. rewrite E2. rewrite !orb_true_r. reflexivity. }
    rewrite H. reflexivity.
Qed.

(** What a pattern takes is a prefix of the text. *)
Lemma den_sufijo (ic : bool) (r : regex) :
  forall prev s g prev' s' g',
    den ic r prev s g prev' s' g' -> exists w, s = w ++ s'.
Proof.
  induction r as [| c | p | r1 IH1 r2 IH2 | r1 IH1 r2 IH2
                 | cod minimo maximo p | r1 IH1 | |];
    intros prev s g prev' s' g' D; simpl in D.
  - destruct D as (_ & -> & _). exists []. reflexivity.
  - destruct D as (x & -> & _). exists [x]. reflexivity.
  - destruct D as (x & -> & _). exists [x]. reflexivity.
  - destruct D as (pm & sm & gm & D1 & D2).
    destruct (IH1 _ _ _ _ _ _ D1) as (w1 & ->).
    destruct (IH2 _ _ _ _ _ _ D2) as (w2 & ->).
    exists (w1 ++ w2). rewrite app_assoc. reflexivity.
  - destruct D as [D | D]; [apply (IH1 _ _ _ _ _ _ D) |
                            apply (IH2 _ _ _ _ _ _ D)].
  - destruct D as (w & -> & _). exists w. reflexivity.
  - destruct D as (g1 & D & _). apply (IH1 _ _ _ _ _ _ D).
  - destruct D as (_ & _ & -> & _). exists []. reflexivity.
  - destruct D as (_ & _ & -> & _). exists []. reflexivity.
Qed.

Lemma firstn_de_mas (w s' : str) :
  firstn (length (w ++ s') - length s') (w ++ s') = w.
Proof.
  rewrite length_app. replace (length w + length s' - length s')
    with (length w + 0) by lia.
  rewrite firstn_app_2. simpl. apply app_nil_r.
Qed.

(** A pattern that ends in a name leaves that name in the group. *)
Lemma den_acaba_en_nombre (r : regex) :
  acaba_en_nombre r ->
  forall prev s g prev' s' g',
    den true r prev s g prev' s' g' ->
    exists a w, s = a ++ w ++ s' /\ g' = Some w /\ nombre_de_objeto w.
Proof.
  induction r as [| c | p | r1 IH1 r2 IH2 | r1 IH1 r2 IH2
                 | cod minimo maximo p | r1 IH1 | |];
    intros Hr prev s g prev' s' g' D; simpl in Hr; try contradiction.
  - simpl in D. destruct D as (pm & sm & gm & D1 & D2).
    destruct (den_sufijo _ _ _ _ _ _ _ _ D1) as (w1 & ->).
    destruct (IH2 Hr _ _ _ _ _ _ D2) as (a & w & -> & -> & Hw).
    exists (w1 ++ a), w. rewrite <- app_assoc. auto.
  - destruct r1 as [| | | | | cod minimo maximo p | | |]; try contradiction.
    destruct minimo as [|minimo]; [contradiction |].
    simpl in D. destruct D as (g1 & (w & -> & Fw & Hlo & _) & ->).
    exists [], w. rewrite firstn_de_mas. split; [reflexivity |].
    split; [reflexivity |]. split.
    + intros ->. simpl in Hlo. lia.
    + unfold todos in *. rewrite Forall_forall in *. intros c Hc.
      specialize (Fw c Hc). unfold en_clase in Fw. simpl in Fw.
      rewrite !Hr in Fw. rewrite <- (es_palabra_otra_caja c). exact Fw.
Qed.

(** Each match of [re.finditer] is a match of the pattern at some place of
    the text. *)
Lemma finditer_desde_In (ic : bool) (r : regex) (fuel : nat) :
  forall prev s i m,
    In m (finditer_desde fuel ic r prev s i) ->
    exists a b prev' i',
      s = a ++ b /\ casa_aqui ic r prev' b i' = Some m.
Proof.
  induction fuel as [|fuel IH]; intros prev s i m H; simpl in H;
    [destruct H |].
  destruct (buscar_desde ic r prev s i) as [m0|] eqn:E; [| destruct H].
  destruct (buscar_desde_some _ _ _ _ _ _ E) as (a & b & Hs & Hc & _).
  assert (H0 : m = m0 ->
               exists a b prev' i',
                 s = a ++ b /\ casa_aqui ic r prev' b i' = Some m).
  { intros ->. exists a, b, (ultimo_de prev a), (i + length a). auto. }
  destruct (length s - length (despues m0) =? 0).
  - destruct H as [<- | []]. apply H0. reflexivity.
  - destruct H as [<- | H]; [apply H0; reflexivity |].
    destruct (IH _ _ _ _ H) as (a1 & b1 & p1 & i1 & Hs1 & Hc1).
    destruct (casa_aqui_some _ _ _ _ _ _ Hc) as (_ & p' & D).
    destruct (den_sufijo _ _ _ _ _ _ _ _ D) as (w & Hb).
    exists (a ++ w ++ a1), b1, p1, i1. split; [| exact Hc1].
    rewrite Hs, Hb, Hs1, <- !app_assoc. reflexivity.
Qed.

Lemma sentencias_de_forma (tipo : str) (r : regex) (bloque t o : str) :
  acaba_en_nombre r ->
  In (t, o) (RoadMap.sentencias_de tipo r bloque) ->
  t = tipo /\ nombre_de_objeto o /\ trozo_de o bloque.
Proof.
  intros Hr H. unfold RoadMap.sentencias_de in H. apply in_map_iff in H.
  destruct H as (m & Hm & H). injection Hm as <- <-.
  split; [reflexivity |].
  unfold finditer in H. apply finditer_desde_In in H.
  destruct H as (a & b & p & i & -> & Hc).
  destruct (casa_aqui_some _ _ _ _ _ _ Hc) as (_ & p' & D).
  destruct (den_acaba_en_nombre r Hr _ _ _ _ _ _ D) as (a0 & w & -> & G & Hw).
  unfold group. rewrite G. split; [exact Hw |].
  exists (a ++ a0), (despues m). rewrite <- !app_assoc. reflexivity.
Qed.

Lemma contiene_trozo (t s : str) : contiene t s = true -> trozo_de t s.
Proof.
  intros H. apply contiene_iff in H. exact H.
Qed.

(** X7: each statement the extractor reports is either one of the seven
    kinds that name a table or cursor, with a name of one or more word
    characters taken from the upper-cased block, or COMMIT or ROLLBACK with
    an empty name, the word being in the upper-cased block. *)
Theorem extraer_sentencias_sql_forma (bloque_sql tipo objeto : str) :
  In (tipo, objeto) (RoadMap.extraer_sentencias_sql bloque_sql) ->
  (In tipo tipos_con_objeto /\ nombre_de_objeto objeto /\
   trozo_de objeto (upper bloque_sql))
  \/
  ((tipo = lit "COMMIT" \/ tipo = lit "ROLLBACK") /\ objeto = [] /\
   trozo_de tipo (upper bloque_sql)).
Proof.
  unfold RoadMap.extraer_sentencias_sql. cbv zeta.
  set (u := upper bloque_sql). intros H.
  assert (Hn : forall k r,
             acaba_en_nombre r -> In k tipos_con_objeto ->
             In (tipo, objeto) (RoadMap.sentencias_de k r u) ->
             In tipo tipos_con_objeto /\ nombre_de_objeto objeto /\
             trozo_de objeto u).
  { intros k r Hr Hk Hin.
    destruct (sentencias_de_forma k r u tipo objeto Hr Hin) as (-> & Ho & Ht).
    auto. }
  repeat (apply in_app_or in H; destruct H as [H | H]).
  - left. apply Hn in H; [exact H | vm_compute; reflexivity | simpl; tauto].
  - left. apply Hn in H; [exact H | vm_compute; reflexivity | simpl; tauto].
  - left. apply Hn in H; [exact H | vm_compute; reflexivity | simpl; tauto].
  - left. apply Hn in H; [exact H | vm_compute; reflexivity | simpl; tauto].
  - left. apply Hn in H; [exact H | vm_compute; reflexivity | simpl; tauto].
  - left. apply Hn in H; [exact H | vm_compute; reflexivity | simpl; tauto].
  - left. apply Hn in H; [exact H | vm_compute; reflexivity | simpl; tauto].
  - right. destruct (contiene (lit "COMMIT") u) eqn:E; [| destruct H].
    destruct H as [H | []]. injection H as <- <-.
    split; [left; reflexivity |]. split; [reflexivity |].
    apply contiene_trozo. exact E.
  - right. destruct (contiene (lit "ROLLBACK") u) eqn:E; [| destruct H].
    destruct H as [H | []]. injection H as <- <-.
    split; [right; reflexivity |]. split; [reflexivity |].
    apply contiene_trozo. exact E.
Qed.

Lemma extraer_sentencias_sql_forma_testigo :
  let bloque := lit "exec sql delete from pedidos end-exec" in
  In (lit "DELETE", lit "PEDIDOS") (RoadMap.extraer_sentencias_sql bloque) /\
  ((In (lit "DELETE") tipos_con_objeto /\ nombre_de_objeto (lit "PEDIDOS") /\
    trozo_de (lit "PEDIDOS") (upper bloque))
   \/
   ((lit "DELETE" = lit "COMMIT" \/ lit "DELETE" = lit "ROLLBACK") /\
    lit "PEDIDOS" = [] /\ trozo_de (lit "DELETE") (upper bloque))).
Proof.
  intros bloque.
  assert (H : In (lit "DELETE", lit "PEDIDOS")
                (RoadMap.extraer_sentencias_sql bloque)).
  { vm_compute. left. reflexivity. }
  split; [exact H |].
  exact (extraer_sentencias_sql_forma bloque (lit "DELETE") (lit "PEDIDOS") H).
Defined.

(** ** Letter case of the source *)

Lemma upper_char_upper_char (c x : char) :
  In x (upper_char c) -> upper_char x = [x].
Proof.
  unfold upper_char, entre. intros H.
  destruct ((97 <=? c)%N && (c <=? 122)%N) eqn:E1.
  { destruct H as [<- | []]. partir_car; reflexivity. }
  destruct (N.eqb_spec c 181).
  { destruct H as [<- | []]. reflexivity. }
  destruct (N.eqb_spec c 223).
  { destruct H as [<- | [<- | []]]; reflexivity. }
  destruct ((224 <=? c)%N && (c <=? 254)%N && negb (c =? 247)%N) eqn:E2.
  { destruct H as [<- | []]. partir_car; reflexivity. }
  destruct (N.eqb_spec c 255).
  { destruct H as [<- | []]. reflexivity. }
  destruct H as [<- | []]. rewrite E1, E2.
  destruct (N.eqb_spec c 181); [contradiction |].
  destruct (N.eqb_spec c 223); [contradiction |].
  destruct (N.eqb_spec c 255); [contradiction |]. reflexivity.
Qed.

(** [upper] does nothing to an upper-cased text. *)
Lemma upper_upper (s : str) : upper (upper s) = upper s.
Proof.
  apply upper_fijo. apply Forall_forall. intros x Hx.
  unfold upper in Hx. apply in_flat_map in Hx. destruct Hx as (c & _ & Hx).
  apply (upper_char_upper_char c x Hx).
Qed.

Lemma upper_char_rev (c : char) : rev (upper_char c) = upper_char c.
Proof.
  unfold upper_char.
  repeat match goal with |- context [if ?b then _ else _] => destruct b end;
    reflexivity.
Qed.

Lemma upper_rev (s : str) : upper (rev s) = rev (upper s).
Proof.
  induction s as [|c s IH]; [reflexivity |].
  change (upper (c :: s)) with (upper_char c ++ upper s).
  simpl rev. rewrite upper_app, rev_app_distr, IH.
  change (upper [c]) with (upper_char c ++ []). rewrite app_nil_r.
  rewrite upper_char_rev. reflexivity.
Qed.

Lemma upper_char_no_blanco (c : char) :
  isspace c = false -> Forall (fun x => isspace x = false) (upper_char c).
Proof.
  unfold upper_char, isspace, entre. intros H.
  destruct ((97 <=? c)%N && (c <=? 122)%N) eqn:E1.
  { constructor; [| constructor]. partir_car; reflexivity. }
  destruct (N.eqb_spec c 181); [repeat constructor |].
  destruct (N.eqb_spec c 223); [repeat constructor |].
  destruct ((224 <=? c)%N && (c <=? 254)%N && negb (c =? 247)%N) eqn:E2.
  { constructor; [| constructor]. partir_car; reflexivity. }
  destruct (N.eqb_spec c 255); [repeat constructor |].
  constructor; [exact H | constructor].
Qed.

Lemma quitar_blancos_upper (s : str) :
  quitar_mientras isspace (upper s) = upper (quitar_mientras isspace s).
Proof.
  induction s as [|c s IH]; [reflexivity |].
  change (upper (c :: s)) with (upper_char c ++ upper s).
  cbn [quitar_mientras]. destruct (isspace c) eqn:E.
  - rewrite (isspace_upper_char c E). simpl. rewrite E. exact IH.
  - pose proof (upper_char_no_blanco c E) as H.
    change (upper (c :: s)) with (upper_char c ++ upper s).
    destruct (upper_char c) as [|x r] eqn:Ex;
      [destruct (upper_char_no_vacio c Ex) |].
    inversion H as [|? ? Hx _]. subst. simpl. rewrite Hx. reflexivity.
Qed.

(** Stripping and upper-casing commute. *)
Lemma strip_upper (s : str) : strip (upper s) = upper (strip s).
Proof.
  unfold strip, rstrip, lstrip.
  rewrite quitar_blancos_upper, <- upper_rev, quitar_blancos_upper,
    upper_rev.
  reflexivity.
Qed.

Lemma upper_join_blanco (xs : list str) :
  upper (join (lit " ") xs) = join (lit " ") (List.map upper xs).
Proof.
  induction xs as [|x xs IH]; [reflexivity |].
  destruct xs as [|y xs]; [reflexivity |].
  change (join (lit " ") (x :: y :: xs))
    with (x ++ lit " " ++ join (lit " ") (y :: xs)).
  rewrite !upper_app, IH. reflexivity.
Qed.

Lemma leer_bloque_upper (archivo : list str) :
  forall bloque,
    RoadMap.leer_bloque (List.map upper archivo) (List.map upper bloque)
    = (List.map upper (fst (RoadMap.leer_bloque archivo bloque)),
       List.map upper (snd (RoadMap.leer_bloque archivo bloque))).
Proof.
  induction archivo as [|l ls IH]; intros bloque; [reflexivity |].
  simpl. rewrite upper_upper, strip_upper.
  destruct (contiene (lit "END-EXEC") (upper l)).
  - simpl. rewrite map_app. reflexivity.
  - specialize (IH (bloque ++ [strip l])). rewrite map_app in IH. exact IH.
Qed.

Lemma procesar_bloque_sql_upper (archivo : list str) (p : str)
    (indice : dict (list str)) :
  RoadMap.procesar_bloque_sql (List.map upper archivo) p indice
  = (List.map upper (fst (RoadMap.procesar_bloque_sql archivo p indice)),
     snd (RoadMap.procesar_bloque_sql archivo p indice)).
Proof.
  unfold RoadMap.procesar_bloque_sql.
  pose proof (leer_bloque_upper archivo []) as H. simpl List.map in H.
  rewrite H. destruct (RoadMap.leer_bloque archivo []) as [b r]. simpl.
  rewrite !upper_join_blanco, List.map_map.
  rewrite (List.map_ext _ _ (fun x => upper_upper x)). reflexivity.
Qed.

Lemma recorrer_archivo_upper (fuel : nat) :
  forall sql archivo e,
    RoadMap.recorrer_archivo fuel sql (List.map upper archivo) e
    = RoadMap.recorrer_archivo fuel sql archivo e.
Proof.
  induction fuel as [|fuel IH]; intros sql archivo e.
  - destruct archivo; reflexivity.
  - destruct archivo as [|l ls]; [reflexivity |].
    simpl. rewrite !upper_upper.
    destruct (RoadMap.es_linea_ignorable (upper l)); [apply IH |].
    destruct (sql && contiene (lit "EXEC SQL") (upper l)); [| apply IH].
    rewrite procesar_bloque_sql_upper.
    destruct (RoadMap.procesar_bloque_sql ls _ _) as [r s]. simpl. apply IH.
Qed.

(** X8: the scan does not see the letter case of the source: the file with
    every line upper-cased gives the same graph, counter and index. *)
Theorem analizar_cobol_sin_caja (archivo : list str)
    (parrafo_inicio : option str) (analizar_sql : bool) :
  RoadMap.analizar_cobol (Some (List.map upper archivo)) parrafo_inicio
    analizar_sql
  = RoadMap.analizar_cobol (Some archivo) parrafo_inicio analizar_sql.
Proof.
  unfold RoadMap.analizar_cobol.
  rewrite length_map, recorrer_archivo_upper. reflexivity.
Qed.

(** ** The scan, as a whole *)

(** X9: with the SQL analysis off, the lines that come before the first
    line holding PROCEDURE DIVISION do not count: the scan of the whole
    file is the scan of what starts at that line. *)
Theorem analizar_cobol_descarta_la_cabecera (antes resto : list str)
    (parrafo_inicio : option str) :
  Forall (fun l => abre_procedure_division l = false) antes ->
  RoadMap.analizar_cobol (Some (antes ++ resto)) parrafo_inicio false
  = RoadMap.analizar_cobol (Some resto) parrafo_inicio false.
Proof.
  intros Ha. unfold RoadMap.analizar_cobol.
  rewrite length_app, cabecera_descartada; [reflexivity | reflexivity |].
  apply Forall_forall. intros l Hl. rewrite upper_upper.
  rewrite Forall_forall in Ha. apply (Ha l Hl).
Qed.

Lemma analizar_cobol_descarta_la_cabecera_testigo :
  let antes := [lit "       IDENTIFICATION DIVISION.";
                lit "       PROGRAM-ID. DEMO.";
                lit "           PERFORM NADA."] in
  let resto := [lit "       PROCEDURE DIVISION.";
                lit "       P1.";
                lit "           PERFORM P2."] in
  Forall (fun l => abre_procedure_division l = false) antes /\
  RoadMap.analizar_cobol (Some (antes ++ resto)) None false
  = Some ([(lit "P1", [lit "P2"])], 0, []).
Proof.
  intros antes resto.
  assert (Ha : Forall (fun l => abre_procedure_division l = false) antes).
  { repeat constructor. }
  split; [exact Ha |].
  rewrite (analizar_cobol_descarta_la_cabecera antes resto None Ha).
  vm_compute. reflexivity.
Defined.

Lemma recorrer_archivo_sin_sql (fuel : nat) :
  forall archivo e e',
    RoadMap.recorrer_archivo fuel false archivo e = Some e' ->
    RoadMap.bloque_sql_count e' = RoadMap.bloque_sql_count e /\
    RoadMap.selects_por_parrafo e' = RoadMap.selects_por_parrafo e.
Proof.
  induction fuel as [|fuel IH]; intros archivo e e' H.
  - destruct archivo; [| discriminate H]. injection H as <-. auto.
  - destruct archivo as [|l ls]; [injection H as <-; auto |].
    simpl in H.
    destruct (RoadMap.es_linea_ignorable (upper l)); [apply (IH _ _ _ H) |].
    destruct (IH _ _ _ H) as [H1 H2]. rewrite H1, H2.
    unfold RoadMap.paso_sin_sql.
    repeat match goal with
           | |- context [if ?b then _ else _] => destruct b
           | |- context [match ?x with _ => _ end] => destruct x
           end; auto.
Qed.

Lemma In_poner (V : Type) (k k' : str) (v v' : V) (d : dict V) :
  In (k, v) (poner k' v' d) -> (k = k' /\ v = v') \/ In (k, v) d.
Proof.
  induction d as [|[k0 v0] d IH]; simpl.
  - intros [H | []]. injection H as <- <-. left. auto.
  - destruct (str_eqb k0 k') eqn:E; simpl.
    + apply str_eqb_eq in E. subst k0. intros [H | H].
      * injection H as <- <-. left. auto.
      * right. right. exact H.
    + intros [H | H]; [right; left; exact H |].
      destruct (IH H) as [H' | H']; [left; exact H' | right; right; exact H'].
Qed.

Lemma claves_poner (V : Type) (k k' : str) (v : V) (d : dict V) :
  In k (claves (poner k' v d)) -> k = k' \/ In k (claves d).
Proof.
  induction d as [|[k0 v0] d IH]; simpl.
  - intros [<- | []]. left. reflexivity.
  - destruct (str_eqb k0 k') eqn:E; simpl.
    + intros [<- | H]; [right; left; reflexivity | right; right; exact H].
    + intros [<- | H]; [right; left; reflexivity |].
      destruct (IH H) as [H' | H']; [left; exact H' | right; right; exact H'].
Qed.

Section Nombres.
Variable P Q : str -> Prop.

Lemma todo_destino_get (g : dict (list str)) (k d : str) :
  todo_destino P g -> In d (get k [] g) -> P d.
Proof.
  intros Hg Hd. destruct (get_In k d g Hd) as (ds & Hk & Hds).
  apply (Hg k ds d Hk Hds).
Qed.

Lemma todo_destino_anexar (g : dict (list str)) (o x : str) :
  todo_destino P g -> P x -> todo_destino P (anexar o x g).
Proof.
  intros Hg Hx k ds d Hk Hd. unfold anexar in Hk.
  apply In_poner in Hk. destruct Hk as [[-> ->] | Hk].
  - apply in_app_or in Hd. destruct Hd as [Hd | [<- | []]]; [| exact Hx].
    apply (todo_destino_get g o d Hg Hd).
  - apply (Hg k ds d Hk Hd).
Qed.

Lemma todo_destino_poner_vacio (g : dict (list str)) (o : str) :
  todo_destino P g -> todo_destino P (poner o [] g).
Proof.
  intros Hg k ds d Hk Hd. apply In_poner in Hk.
  destruct Hk as [[-> ->] | Hk]; [destruct Hd |].
  apply (Hg k ds d Hk Hd).
Qed.

Lemma toda_clave_poner (g : dict (list str)) (o : str) (v : list str) :
  toda_clave Q g -> Q o -> toda_clave Q (poner o v g).
Proof.
  intros Hg Ho k Hk. apply claves_poner in Hk.
  destruct Hk as [-> | Hk]; [exact Ho | apply (Hg k Hk)].
Qed.

Lemma paso_sin_sql_bien (linea : str) (e : RoadMap.estado) :
  (forall k, RoadMap.detectar_parrafo linea = Some k -> k <> [] -> Q k) ->
  (forall d, RoadMap.detectar_perform linea = Some d -> d <> [] -> P d) ->
  estado_bien P Q e -> estado_bien P Q (RoadMap.paso_sin_sql linea e).
Proof.
  intros Hq Hp (H1 & H2 & H3). unfold RoadMap.paso_sin_sql.
  destruct (negb (RoadMap.en_procedure_division e)).
  { destruct (contiene _ _); repeat split; assumption. }
  destruct (RoadMap.esperar_punto_despues_de_proc e) as [[|]|].
  { destruct (contiene _ _); repeat split; assumption. }
  all: destruct (RoadMap.detectar_parrafo linea) as [[|c k]|] eqn:Ek.
  all: try (assert (Hk : Q (c :: k))
              by (apply Hq; [reflexivity | discriminate]);
            split; [| split]; simpl; [| | exact Hk];
            [destruct (tiene (c :: k) (RoadMap.llamadas e));
               [exact H1 | apply todo_destino_poner_vacio; exact H1]
            | destruct (tiene (c :: k) (RoadMap.llamadas e));
               [exact H2 | apply toda_clave_poner; assumption]]).
  all: destruct (vacia (RoadMap.parrafo_actual e));
    [repeat split; assumption |].
  all: destruct (RoadMap.detectar_perform linea) as [[|c d]|] eqn:Ed;
    try (repeat split; assumption).
  all: assert (Hd : P (c :: d)) by (apply Hp; [reflexivity | discriminate]).
  all: split; [| split]; simpl; [| | exact H3].
  all: try (apply todo_destino_anexar; assumption).
  all: unfold anexar; apply toda_clave_poner; assumption.
Qed.

End Nombres.

Lemma leer_bloque_incl (archivo : list str) :
  forall bloque, incl (snd (RoadMap.leer_bloque archivo bloque)) archivo.
Proof.
  induction archivo as [|l ls IH]; intros bloque; simpl.
  - intros x [].
  - destruct (contiene _ _); simpl.
    + apply incl_tl, incl_refl.
    + apply incl_tl, IH.
Qed.

Lemma procesar_bloque_sql_incl (archivo : list str) (p : str)
    (indice : dict (list str)) :
  incl (fst (RoadMap.procesar_bloque_sql archivo p indice)) archivo.
Proof.
  unfold RoadMap.procesar_bloque_sql.
  pose proof (leer_bloque_incl archivo []) as H.
  destruct (RoadMap.leer_bloque archivo []) as [b r]. exact H.
Qed.

Section NombresDelFuente.
Variable P Q : str -> Prop.
Variable todo : list str.
Hypothesis parrafos :
  forall l k, In l todo -> RoadMap.detectar_parrafo (upper l) = Some k ->
              k <> [] -> Q k.
Hypothesis performs :
  forall l d, In l todo -> RoadMap.detectar_perform (upper l) = Some d ->
              d <> [] -> P d.

Lemma recorrer_archivo_bien (fuel : nat) :
  forall sql archivo e e',
    incl archivo todo ->
    estado_bien P Q e ->
    RoadMap.recorrer_archivo fuel sql archivo e = Some e' ->
    estado_bien P Q e'.
Proof.
  induction fuel as [|fuel IH]; intros sql archivo e e' Hi He H.
  - destruct archivo; [| discriminate H]. injection H as <-. exact He.
  - destruct archivo as [|l ls]; [injection H as <-; exact He |].
    assert (Hl : In l todo) by (apply Hi; left; reflexivity).
    assert (Hls : incl ls todo).
    { intros x Hx. apply Hi. right. exact Hx. }
    simpl in H.
    destruct (RoadMap.es_linea_ignorable (upper l));
      [apply (IH _ _ _ _ Hls He H) |].
    destruct (sql && contiene (lit "EXEC SQL") (upper (upper l))).
    + pose proof (procesar_bloque_sql_incl ls (RoadMap.parrafo_actual e)
                    (RoadMap.selects_por_parrafo e)) as Hr.
      destruct (RoadMap.procesar_bloque_sql ls _ _) as [r s]. simpl in Hr.
      assert (Hrt : incl r todo).
      { intros x Hx. apply Hls, Hr, Hx. }
      apply (IH _ _ _ _ Hrt) in H; [exact H |]. exact He.
    + refine (IH _ _ _ _ Hls _ H).
      apply paso_sin_sql_bien; [| | exact He].
      * intros k. apply parrafos. exact Hl.
      * intros d. apply performs. exact Hl.
Qed.

End NombresDelFuente.

Section NombresDelFiltro.
Variable P Q : str -> Prop.

Lemma vaciar_pendientes_bien (fuel : nat) :
  forall g en o pend g',
    todo_destino P g -> toda_clave Q g -> Q o ->
    (forall d, In d pend -> P d) ->
    RoadMap.vaciar_pendientes fuel g en o pend = Devuelve g' ->
    todo_destino P g' /\ toda_clave Q g'.
Proof.
  induction fuel as [|fuel IH]; intros g en o pend g' Hg Hc Ho Hp H.
  - simpl in H. destruct (rev pend); [| discriminate H].
    injection H as <-. auto.
  - simpl in H. destruct (rev pend) as [|d q] eqn:E.
    + injection H as <-. auto.
    + apply rev_cons_app in E. subst pend.
      assert (Hq : forall x, In x (rev q) -> P x).
      { intros x Hx. apply Hp. apply in_or_app. left. exact Hx. }
      assert (Hd : P d).
      { apply Hp. apply in_or_app. right. left. reflexivity. }
      destruct (pertenece d en); [apply (IH _ _ _ _ _ Hg Hc Ho Hq H) |].
      destruct (tiene d g).
      * destruct (pertenece o en); [| discriminate H].
        apply (IH _ _ _ _ _ (todo_destino_anexar P g o d Hg Hd)
                 (toda_clave_poner Q g o _ Hc Ho) Ho Hq H).
      * refine (IH _ _ _ _ _ Hg Hc Ho _ H).
        intros x Hx. apply in_app_or in Hx. destruct Hx as [Hx | Hx].
        -- apply Hq. exact Hx.
        -- apply (todo_destino_get P g d x Hg Hx).
Qed.

Lemma recorrer_origenes_bien (origenes : list str) :
  forall g en g',
    todo_destino P g -> toda_clave Q g ->
    (forall o, In o origenes -> Q o) ->
    RoadMap.recorrer_origenes origenes g en = Devuelve g' ->
    todo_destino P g' /\ toda_clave Q g'.
Proof.
  induction origenes as [|o os IH]; intros g en g' Hg Hc Ho H; simpl in H.
  - injection H as <-. auto.
  - destruct (RoadMap.vaciar_pendientes _ g en o (get o [] g)) as [g1| |]
      eqn:E; try discriminate H.
    apply vaciar_pendientes_bien in E; try assumption.
    + destruct E as [Hg1 Hc1]. refine (IH _ _ _ Hg1 Hc1 _ H).
      intros x Hx. apply Ho. right. exact Hx.
    + apply Ho. left. reflexivity.
    + intros d Hd. apply (todo_destino_get P g o d Hg Hd).
Qed.

Lemma filtrar_bien (g : dict (list str)) (inicio : str)
    (g' : dict (list str)) :
  todo_destino P g -> toda_clave Q g ->
  snd (RoadMap.filtrar_desde_parrafo_inicio g inicio) = Devuelve g' ->
  todo_destino P g' /\ toda_clave Q g'.
Proof.
  intros Hg Hc. unfold RoadMap.filtrar_desde_parrafo_inicio.
  destruct (tiene inicio g) eqn:Ht; simpl.
  - destruct (RoadMap.recorrer_origenes (claves g) g [inicio]) as [g1| |]
      eqn:E; simpl; try discriminate.
    intros H. injection H as <-.
    apply recorrer_origenes_bien in E; try assumption;
      try (intros o Ho; apply Hc; exact Ho).
    destruct E as [Hg1 Hc1]. split.
    + intros k ds d [Hk | []] Hd. injection Hk as <- <-.
      apply (todo_destino_get P g1 inicio d Hg1 Hd).
    + intros k [<- | []]. apply Hc. apply tiene_In. exact Ht.
  - intros H. injection H as <-. split.
    + intros k ds d [].
    + intros k [].
Qed.

Lemma cerrar_bien (inicio : option str) (sql : bool) (e : RoadMap.estado)
    (g : dict (list str)) (n : nat) (idx : dict (list str)) :
  estado_bien P Q e ->
  RoadMap.cerrar inicio sql e = Some (g, n, idx) ->
  todo_destino P g /\ toda_clave Q g.
Proof.
  intros (Hg & Hc & _). unfold RoadMap.cerrar.
  destruct (RoadMap.verdadero inicio) as [i|].
  - destruct (snd (RoadMap.filtrar_desde_parrafo_inicio _ i)) as [g1| |]
      eqn:E; intros H; try discriminate H.
    + injection H as <- _ _. apply (filtrar_bien _ i g1 Hg Hc E).
    + injection H as <- _ _. split; [intros k ds d [] | intros k []].
  - intros H. injection H as <- _ _. auto.
Qed.

End NombresDelFiltro.

Lemma analizar_cobol_bien (P Q : str -> Prop) (archivo : list str)
    (inicio : option str) (sql : bool) (g : dict (list str)) (n : nat)
    (idx : dict (list str)) :
  (forall l k, In l archivo -> RoadMap.detectar_parrafo (upper l) = Some k ->
               k <> [] -> Q k) ->
  (forall l d, In l archivo -> RoadMap.detectar_perform (upper l) = Some d ->
               d <> [] -> P d) ->
  Q (lit "__START__") ->
  RoadMap.analizar_cobol (Some archivo) inicio sql = Some (g, n, idx) ->
  todo_destino P g /\ toda_clave Q g.
Proof.
  intros Hq Hp Hs. unfold RoadMap.analizar_cobol.
  destruct (RoadMap.recorrer_archivo (length archivo) sql archivo
              RoadMap.estado_inicial) as [e|] eqn:E; [| discriminate].
  apply (recorrer_archivo_bien P Q archivo Hq Hp) in E.
  - apply cerrar_bien. exact E.
  - apply incl_refl.
  - split; [intros k ds d [] |]. split; [intros k [] | exact Hs].
Qed.

(** X10: the scan invents no name: each key of the graph it returns is
    [__START__] or the label the paragraph detector finds in a line of the
    file, and each destination is what the PERFORM detector finds in a
    line of the file. *)
Theorem analizar_cobol_nombres_de_las_lineas (archivo : list str)
    (parrafo_inicio : option str) (analizar_sql : bool)
    (g : dict (list str)) (n : nat) (indice : dict (list str)) :
  RoadMap.analizar_cobol (Some archivo) parrafo_inicio analizar_sql
  = Some (g, n, indice) ->
  de_las_lineas archivo g.
Proof.
  intros H.
  apply (analizar_cobol_bien
           (fun d => exists l, In l archivo /\
                               RoadMap.detectar_perform (upper l) = Some d)
           (fun k => k = lit "__START__" \/
                     exists l, In l archivo /\
                               RoadMap.detectar_parrafo (upper l) = Some k))
    in H.
  - destruct H as [Hg Hc]. split; [exact Hc |].
    intros k d Hd. apply (todo_destino_get _ g k d Hg Hd).
  - intros l k Hl Hk _. right. exists l. auto.
  - intros l d Hl Hd _. exists l. auto.
  - left. reflexivity.
Qed.

Lemma analizar_cobol_nombres_de_las_lineas_testigo :
  let archivo := [lit "       procedure division.";
                  lit "       p1.";
                  lit "           perform p2.";
                  lit "       p2.";
                  lit "           perform p1."] in
  let g := [(lit "P1", [lit "P2"]); (lit "P2", [lit "P1"])] in
  RoadMap.analizar_cobol (Some archivo) None false = Some (g, 0, []) /\
  de_las_lineas archivo g.
Proof.
  intros archivo g.
  assert (H : RoadMap.analizar_cobol (Some archivo) None false
              = Some (g, 0, [])) by (vm_compute; reflexivity).
  split; [exact H |].
  exact (analizar_cobol_nombres_de_las_lineas archivo None false g 0 [] H).
Defined.

(** The printer returns on a graph whose destinations are names, with the
    same lines for any fuel above the number of distinct destinations. *)
Lemma imprimir_arbol_llamadas_devuelve (dic sel : dict (list str))
    (nodo : str) (nivel : nat) :
  nombres_validos dic ->
  exists lineas,
    forall fuel,
      length (nodup str_eq_dec (destinos_de dic)) < fuel ->
      RoadMap.imprimir_arbol_llamadas fuel dic sel nodo nivel None
      = Some lineas.
Proof.
  intros validos.
  set (cota := S (length (nodup str_eq_dec (destinos_de dic)))).
  destruct (RoadMap.raiz dic nodo) as [r|] eqn:Hr.
  - destruct (imprimir_con_camino cota dic sel nodo nivel None) as [rs|] eqn:E.
    2:{ exfalso. revert E.
        apply (imprimir_con_camino_termina dic sel validos cota nodo r);
          [exact Hr |].
        pose proof (faltan_cota dic (r :: o_vacio None)). unfold cota. lia. }
    exists (List.map snd rs). intros fuel Hf.
    rewrite imprimir_con_camino_borra.
    rewrite (imprimir_con_camino_mas_fuel dic sel cota fuel nodo nivel None rs);
      [reflexivity | unfold cota; lia | exact E].
  - exists [RoadMap.diccionario_vacio]. intros fuel Hf.
    destruct fuel as [|fuel]; [lia |]. simpl. rewrite Hr. reflexivity.
Qed.

(** X11: no destination of the graph the scan returns is the empty name,
    so the tree printer, called on that graph and index as the main
    program does, returns whatever the cycles of the graph, with any fuel
    above the number of distinct destinations. *)
Theorem analizar_cobol_se_imprime (contenido : option (list str))
    (parrafo_inicio : option str) (analizar_sql : bool)
    (g : dict (list str)) (n : nat) (indice : dict (list str)) :
  RoadMap.analizar_cobol contenido parrafo_inicio analizar_sql
  = Some (g, n, indice) ->
  nombres_validos g /\
  exists lineas,
    forall fuel,
      length (nodup str_eq_dec (destinos_de g)) < fuel ->
      RoadMap.imprimir_arbol_llamadas fuel g indice [] 0 None = Some lineas.
Proof.
  intros H.
  assert (validos : nombres_validos g).
  { destruct contenido as [archivo|].
    - apply (analizar_cobol_bien (fun d => d <> []) (fun _ => True)) in H.
      + destruct H as [Hg _]. exact Hg.
      + intros; exact I.
      + intros l d _ _ Hd. exact Hd.
      + exact I.
    - simpl in H. injection H as <- _ _. intros k ds d []. }
  split; [exact validos |].
  apply imprimir_arbol_llamadas_devuelve. exact validos.
Qed.

Lemma analizar_cobol_se_imprime_testigo :
  let archivo := [lit "       PROCEDURE DIVISION.";
                  lit "       P1.";
                  lit "           PERFORM P2.";
                  lit "       P2.";
                  lit "           PERFORM P1."] in
  let g := [(lit "P1", [lit "P2"]); (lit "P2", [lit "P1"])] in
  RoadMap.analizar_cobol (Some archivo) None false = Some (g, 0, []) /\
  RoadMap.imprimir_arbol_llamadas 3 g [] [] 0 None
  = Some [lit "P1"; lit "   P2"].
Proof.
  intros archivo g.
  assert (H : RoadMap.analizar_cobol (Some archivo) None false
              = Some (g, 0, [])) by (vm_compute; reflexivity).
  split; [exact H |].
  destruct (analizar_cobol_se_imprime (Some archivo) None false g 0 [] H)
    as (_ & lineas & Hl).
  rewrite (Hl 3); [| vm_compute; lia].
  specialize (Hl 3). vm_compute in Hl. 
  assert (E : Some [lit "P1"; lit "   P2"] = Some lineas).
  { apply Hl. lia. }
  vm_compute in E. injection E as <-. reflexivity.
Defined.

(** X12: with the SQL analysis off the scan counts no block and returns an
    empty index, whatever EXEC SQL lines the file holds. *)
Theorem analizar_cobol_sin_sql (contenido : option (list str))
    (parrafo_inicio : option str) (g : dict (list str)) (n : nat)
    (indice : dict (list str)) :
  RoadMap.analizar_cobol contenido parrafo_inicio false
  = Some (g, n, indice) ->
  n = 0 /\ indice = [].
Proof.
  unfold RoadMap.analizar_cobol. destruct contenido as [archivo|].
  - destruct (RoadMap.recorrer_archivo (length archivo) false archivo
                RoadMap.estado_inicial) as [e|] eqn:E; [| discriminate].
    apply recorrer_archivo_sin_sql in E. destruct E as [E _]. simpl in E.
    unfold RoadMap.cerrar.
    destruct (RoadMap.verdadero parrafo_inicio) as [i|].
    + destruct (snd (RoadMap.filtrar_desde_parrafo_inicio _ i));
        intros H; try discriminate H; injection H as _ <- <-; auto.
    + intros H. injection H as _ <- <-. auto.
  - intros H. injection H as _ <- <-. auto.
Qed.

Lemma analizar_cobol_sin_sql_testigo :
  let archivo := [lit "       PROCEDURE DIVISION.";
                  lit "       P1.";
                  lit "           EXEC SQL SELECT A FROM T END-EXEC."] in
  RoadMap.analizar_cobol (Some archivo) None false
  = Some ([(lit "P1", [])], 0, []) /\
  0 = 0 /\ @nil (str * list str) = [].
Proof.
  intros archivo.
  assert (H : RoadMap.analizar_cobol (Some archivo) None false
              = Some ([(lit "P1", [])], 0, []))
    by (vm_compute; reflexivity).
  split; [exact H |].
  exact (analizar_cobol_sin_sql (Some archivo) None [(lit "P1", [])] 0 [] H).
Defined.

(** ** What the PERFORM detector returns *)

Lemma split_desde_sin_blancos (s : str) :
  forall actual t,
    Forall (fun c => isspace c = false) actual ->
    In t (split_desde actual s) ->
    t <> [] /\ Forall (fun c => isspace c = false) t.
Proof.
  induction s as [|c s IH]; intros actual t Ha H; simpl in H.
  - destruct actual as [|x a]; simpl in H; [destruct H |].
    destruct H as [<- | []]. split; [discriminate | exact Ha].
  - destruct (isspace c) eqn:E.
    + destruct actual as [|x a]; simpl in H.
      * apply (IH [] t); [constructor | exact H].
      * destruct H as [<- | H]; [split; [discriminate | exact Ha] |].
        apply (IH [] t); [constructor | exact H].
    + apply (IH (actual ++ [c]) t); [| exact H].
      apply Forall_app. split; [exact Ha | repeat constructor; exact E].
Qed.

Lemma split_desde_Forall (P : char -> Prop) (s : str) :
  forall actual t,
    Forall P actual -> Forall P s ->
    In t (split_desde actual s) -> Forall P t.
Proof.
  induction s as [|c s IH]; intros actual t Ha Hs H; simpl in H.
  - destruct actual as [|x a]; simpl in H; [destruct H |].
    destruct H as [<- | []]. exact Ha.
  - inversion Hs as [|? ? Hc Hs']. subst.
    destruct (isspace c).
    + destruct actual as [|x a]; simpl in H.
      * apply (IH [] t); [constructor | exact Hs' | exact H].
      * destruct H as [<- | H]; [exact Ha |].
        apply (IH [] t); [constructor | exact Hs' | exact H].
    + apply (IH (actual ++ [c]) t); [| exact Hs' | exact H].
      apply Forall_app. split; [exact Ha | repeat constructor; exact Hc].
Qed.

Lemma quitar_mientras_cabeza (p : char -> bool) (s : str) (x : char)
    (r : str) :
  quitar_mientras p s = x :: r -> p x = false.
Proof.
  induction s as [|c s IH]; simpl; [discriminate |].
  destruct (p c) eqn:E; [exact IH |].
  intros H. injection H as <- _. exact E.
Qed.

Lemma quitar_mientras_Forall (P : char -> Prop) (p : char -> bool)
    (s : str) :
  Forall P s -> Forall P (quitar_mientras p s).
Proof.
  induction 1 as [|c s Hc Hs IH]; simpl; [constructor |].
  destruct (p c); [exact IH | constructor; assumption].
Qed.

Lemma rstrip_car_Forall (P : char -> Prop) (c : char) (s : str) :
  Forall P s -> Forall P (rstrip_car c s).
Proof.
  intros H. unfold rstrip_car. apply Forall_rev, quitar_mientras_Forall,
    Forall_rev, H.
Qed.

Lemma rstrip_car_final (c : char) (s antes : str) :
  rstrip_car c s <> antes ++ [c].
Proof.
  unfold rstrip_car. intros H. apply (f_equal (@rev _)) in H.
  rewrite rev_involutive, rev_app_distr in H. simpl in H.
  apply quitar_mientras_cabeza in H. rewrite N.eqb_refl in H.
  discriminate H.
Qed.

Lemma upper_letras_fijas (s : str) :
  Forall (fun c => upper_char c = [c]) (upper s).
Proof. apply upper_fijo, upper_upper. Qed.

(** X13: what [detectar_perform] returns is the token of the upper-cased
    line that it names, less its trailing periods: it holds no blank, so it
    is never STOP RUN, it does not end in a period, it is upper-cased, and
    it is none of the excluded words; it may be empty. *)
Theorem detectar_perform_forma (linea destino : str) :
  RoadMap.detectar_perform linea = Some destino ->
  (exists siguiente,
     In siguiente (split (upper linea)) /\
     destino = rstrip_car 46%N siguiente) /\
  Forall (fun c => isspace c = false) destino /\
  (forall antes, destino <> antes ++ [46%N]) /\
  upper destino = destino /\
  ~ In destino RoadMap.no_destinos.
Proof.
  unfold RoadMap.detectar_perform.
  destruct (contiene (lit "PERFORM") (upper linea)); [| discriminate].
  cbv zeta. rewrite split_upper_strip.
  destruct (index (lit "PERFORM") (split (upper linea))) as [idx|];
    [| discriminate].
  destruct (nth_error (split (upper linea)) (idx + 1)) as [sig|] eqn:E;
    [| discriminate].
  destruct (pertenece (rstrip_car 46%N sig) RoadMap.no_destinos) eqn:Hp;
    [discriminate |].
  intros H. injection H as <-.
  apply nth_error_In in E.
  split; [exists sig; auto |]. split; [| split; [| split]].
  - apply rstrip_car_Forall.
    apply (split_desde_sin_blancos (upper linea) [] sig); [constructor |].
    exact E.
  - intros antes. apply rstrip_car_final.
  - apply upper_fijo, rstrip_car_Forall.
    apply (split_desde_Forall _ (upper linea) [] sig);
      [constructor | apply upper_letras_fijas | exact E].
  - apply pertenece_false. exact Hp.
Qed.

Lemma detectar_perform_forma_testigo :
  RoadMap.detectar_perform (lit "           perform calcula-total...")
  = Some (lit "CALCULA-TOTAL") /\
  upper (lit "CALCULA-TOTAL") = lit "CALCULA-TOTAL".
Proof.
  assert (H : RoadMap.detectar_perform
                (lit "           perform calcula-total...")
              = Some (lit "CALCULA-TOTAL")) by (vm_compute; reflexivity).
  split; [exact H |].
  destruct (detectar_perform_forma _ _ H) as (_ & _ & _ & Hu & _).
  exact Hu.
Defined.

(** ** The CALL order *)

(** The closing quote of the CALL pattern is optional and nothing follows
    it: that last factor always matches. *)
Lemma casa_comilla_final (prev : option char) (s : str) (g : option str)
    (i : nat) :
  exists s',
    casa false RoadMapCalls.comilla_opcional prev s g
      (fun _ s' g' => Some (Coincide i s' g'))
    = Some (Coincide i s' g).
Proof.
  unfold RoadMapCalls.comilla_opcional. simpl.
  destruct s as [|c t]; simpl; [exists []; reflexivity |].
  destruct (en_clase false RoadMapCalls.comilla c); simpl.
  - destruct t as [|y t]; simpl; [exists []; reflexivity |].
    rewrite andb_false_r. simpl. exists (y :: t). reflexivity.
  - exists (c :: t). reflexivity.
Qed.

(** The CALL pattern, run at the start of an order, keeps its name. *)
Lemma casa_orden_call (b q nombre resto : str) (prev : option char)
    (i : nat) :
  palabra_en prev = false ->
  blancos b -> comilla_o_nada q -> es_nombre nombre ->
  no_sigue RoadMapCalls.palabra_o_guion resto ->
  exists resto',
    casa_aqui false RoadMapCalls.patron_call prev
      (lit "CALL" ++ b ++ q ++ nombre ++ resto) i
    = Some (Coincide i resto' (Some nombre)).
Proof.
  intros Hp (Nb & Bb) Hq (Nn & Fn) Hr.
  destruct (casa_comilla_final (ultimo_de (ultimo_de (ultimo_de
              (ultimo_de prev (lit "CALL")) b) q) nombre) resto
              (Some nombre) i) as (resto' & Hfin).
  exists resto'. unfold casa_aqui, RoadMapCalls.patron_call.
  assert (Hb0 : casa false (Cat Borde (texto (lit "CALL") >> RoadMapCalls.espacios
                  >> RoadMapCalls.comilla_opcional
                  >> RoadMapCalls.nombre_modulo
                  >> RoadMapCalls.comilla_opcional)%regex) prev
                  (lit "CALL" ++ b ++ q ++ nombre ++ resto) None
                  (fun _ s' g => Some (Coincide i s' g))
                = casa false (texto (lit "CALL") >> RoadMapCalls.espacios
                  >> RoadMapCalls.comilla_opcional
                  >> RoadMapCalls.nombre_modulo
                  >> RoadMapCalls.comilla_opcional)%regex prev
                  (lit "CALL" ++ b ++ q ++ nombre ++ resto) None
                  (fun _ s' g => Some (Coincide i s' g))).
  { cbn [casa]. rewrite Hp. reflexivity. }
  rewrite Hb0. rewrite avance_texto by discriminate.
  assert (L1 : forall w : str, w <> [] -> 1 <= length w).
  { intros [|? ?] H; [congruence | simpl; lia]. }
  assert (Hqs : todos RoadMapCalls.comilla q /\ dentro (Some 1) (length q)).
  { destruct Hq as [-> | [-> | ->]]; split; simpl; try lia;
      repeat constructor. }
  assert (Hn1 : no_sigue RoadMapCalls.comilla (nombre ++ resto)).
  { destruct nombre as [|c n]; [congruence |]. simpl.
    apply palabra_o_guion_no_comilla. inversion Fn; assumption. }
  assert (Hq1 : no_sigue isspace (q ++ nombre ++ resto)).
  { destruct Hq as [-> | [-> | ->]]; try reflexivity.
    destruct nombre as [|c n]; [congruence |]. simpl.
    inversion Fn as [|? ? Hc _]. subst.
    destruct (isspace c) eqn:E; [| reflexivity].
    pose proof (isspace_no_palabra c E) as E'.
    unfold RoadMapCalls.palabra_o_guion in Hc. rewrite E' in Hc. simpl in Hc.
    apply N.eqb_eq in Hc. subst c. discriminate E. }
  unfold RoadMapCalls.espacios.
  apply avance_rep; try assumption; try (apply L1; exact Nb); try exact I.
  unfold RoadMapCalls.comilla_opcional at 1.
  apply avance_rep; try apply Hqs; try assumption; try (simpl; lia).
  unfold RoadMapCalls.nombre_modulo.
  apply avance_grupo_rep; try exact Hfin; try assumption;
    try (apply L1; exact Nn); exact I.
Qed.

(** A run of name characters goes on up to a character that is none. *)
Lemma nombre_entero (n resto : str) :
  es_nombre n ->
  exists n' resto',
    n ++ resto = n' ++ resto' /\ es_nombre n' /\
    no_sigue RoadMapCalls.palabra_o_guion resto'.
Proof.
  revert n. induction resto as [|c resto IH]; intros n (Nn & Fn).
  - exists n, []. split; [reflexivity |]. split; [split; assumption | exact I].
  - destruct (RoadMapCalls.palabra_o_guion c) eqn:E.
    + destruct (IH (n ++ [c])) as (n' & r' & H & Hn' & Hr').
      { split; [destruct n; discriminate |].
        apply Forall_app. split; [exact Fn | repeat constructor; exact E]. }
      exists n', r'. rewrite <- app_assoc in H. auto.
    + exists n, (c :: resto). split; [reflexivity |].
      split; [split; assumption | exact E].
Qed.

(** X14: on a line whose leftmost CALL order names [nombre], the name
    being the whole run of word characters and hyphens after the blanks
    and the optional quote, [detectar_call] returns [nombre] as it stands
    in the upper-cased line, whatever follows on the line. *)
Theorem detectar_call_call (linea antes nombre : str) :
  orden_call_en antes (upper linea) nombre ->
  (forall antes' nombre',
     orden_call_en antes' (upper linea) nombre' ->
     length antes <= length antes') ->
  RoadMapCalls.detectar_call linea = Some nombre.
Proof.
  intros (b & q & resto & Eu & Hp & Hb & Hq & Hn & Hr) Hmin.
  unfold RoadMapCalls.detectar_call. cbv zeta.
  destruct (casa_orden_call b q nombre resto (ultimo_de None antes)
              (0 + length antes) Hp Hb Hq Hn Hr) as (resto' & Haqui).
  destruct (re_search false RoadMapCalls.patron_call (upper linea))
    as [m|] eqn:Em.
  - apply buscar_desde_some in Em. destruct Em as (a & s & Eas & Hm & Hprev).
    assert (Hlen : length a = length antes).
    { destruct (Nat.lt_trichotomy (length a) (length antes))
        as [Hl | [He | Hg]].
      - exfalso. apply casa_aqui_some in Hm. destruct Hm as (_ & p' & D).
        apply den_patron_call in D.
        destruct D as (Hpa & b0 & q0 & n0 & r0 & -> & Hb0 & Hq0 & Hn0 & _).
        destruct (nombre_entero n0 r0 Hn0) as (n1 & r1 & E1 & Hn1 & Hr1).
        assert (Hx : orden_call_en a (upper linea) n1).
        { exists b0, q0, r1. rewrite Eas, <- E1. auto 7. }
        specialize (Hmin a n1 Hx). lia.
      - exact He.
      - exfalso. rewrite (Hprev antes _ Eu Hg) in Haqui. discriminate Haqui. }
    rewrite Eu in Eas.
    destruct (app_igual_largo _ _ _ _ _ Eas (eq_sym Hlen)) as (Ea & Es).
    subst a s. rewrite Haqui in Hm. injection Hm as <-. reflexivity.
  - exfalso. pose proof (buscar_desde_none _ _ _ _ _ Em antes _ Eu) as F.
    rewrite Haqui in F. discriminate F.
Qed.

Lemma detectar_call_call_testigo :
  let linea := lit "           call 'pgm-a1' using ws-area." in
  orden_call_en (lit "           ") (upper linea) (lit "PGM-A1") /\
  RoadMapCalls.detectar_call linea = Some (lit "PGM-A1").
Proof.
  intros linea.
  assert (Ho : orden_call_en (lit "           ") (upper linea) (lit "PGM-A1")).
  { exists (lit " "), [39%N], (lit "' USING WS-AREA.").
    split; [vm_compute; reflexivity |]. split; [reflexivity |].
    split; [split; [discriminate | repeat constructor] |].
    split; [right; left; reflexivity |].
    split; [split; [discriminate | repeat constructor] | reflexivity]. }
  split; [exact Ho |].
  apply (detectar_call_call linea (lit "           ") (lit "PGM-A1") Ho).
  intros antes' nombre' (b & q & resto & Eu & _).
  destruct (Nat.le_gt_cases (length (lit "           ")) (length antes'))
    as [Hle | Hgt]; [exact Hle |].
  exfalso. vm_compute in Eu.
  do 11 (destruct antes' as [|? antes'];
         [discriminate Eu | simpl in Eu; injection Eu as _ Eu]).
  simpl in Hgt. lia.
Defined.

(** A CICS order is what the CICS pattern finds. *)
Lemma re_search_orden_cics (u : str) :
  (exists antes nombre, orden_cics antes u nombre) <->
  re_search false RoadMapCalls.patron_cics u <> None.
Proof.
  split.
  - intros (antes & nombre & s & resto & -> & Ho) H.
    pose proof (buscar_desde_none _ _ _ _ _ H antes s eq_refl) as F.
    rewrite (casa_orden_cics _ _ _ _ _ Ho) in F. discriminate F.
  - intros H.
    destruct (re_search false RoadMapCalls.patron_cics u) as [m|] eqn:E;
      [| congruence].
    apply buscar_desde_some in E. destruct E as (a & b & -> & Hm & _).
    apply casa_aqui_some in Hm. destruct Hm as (_ & p' & D).
    apply den_patron_cics in D. destruct D as (n & Ho & _).
    exists a, n, b, (despues m). auto.
Qed.

(** X15: [detectar_call] returns [None] exactly on the lines that, once
    upper-cased, hold neither a CALL order nor an order EXEC CICS LINK,
    START or INVOKE PROGRAM(...). *)
Theorem detectar_call_nada (linea : str) :
  RoadMapCalls.detectar_call linea = None <->
  ~ orden_call (upper linea) /\
  ~ exists antes nombre, orden_cics antes (upper linea) nombre.
Proof.
  rewrite re_search_orden_call, re_search_orden_cics.
  unfold RoadMapCalls.detectar_call. cbv zeta.
  destruct (re_search false RoadMapCalls.patron_call (upper linea)) as [m|].
  - split; [discriminate |]. intros [H _]. exfalso. apply H. discriminate.
  - destruct (re_search false RoadMapCalls.patron_cics (upper linea))
      as [m|].
    + split; [discriminate |]. intros [_ H]. exfalso. apply H. discriminate.
    + split; [| reflexivity]. intros _. split; intros H; apply H; reflexivity.
Qed.

Lemma es_nombre_fijo (n u : str) :
  trozo_de n (upper u) -> upper n = n.
Proof.
  intros (a & b & E). apply upper_fijo.
  pose proof (upper_letras_fijas u) as H. rewrite E in H.
  apply Forall_app in H. destruct H as [_ H].
  apply Forall_app in H. destruct H as [H _]. exact H.
Qed.

(** The name that [detectar_call] found. *)
Lemma detectar_call_nombre (linea destino : str) :
  RoadMapCalls.detectar_call linea = Some destino ->
  exists nombre,
    es_nombre nombre /\ trozo_de nombre (upper linea) /\
    (destino = nombre \/ destino = lit "CICS-" ++ nombre).
Proof.
  unfold RoadMapCalls.detectar_call. cbv zeta.
  destruct (re_search false RoadMapCalls.patron_call (upper linea))
    as [m|] eqn:E.
  - intros H. injection H as <-.
    apply buscar_desde_some in E. destruct E as (a & b & Eu & Hm & _).
    apply casa_aqui_some in Hm. destruct Hm as (_ & p' & D).
    apply den_patron_call in D.
    destruct D as (_ & b0 & q & n & resto & -> & _ & _ & Hn & Hg).
    unfold group. rewrite Hg. exists n. split; [exact Hn |].
    split; [| left; reflexivity].
    exists (a ++ lit "CALL" ++ b0 ++ q), resto. rewrite Eu.
    rewrite <- !app_assoc. reflexivity.
  - destruct (re_search false RoadMapCalls.patron_cics (upper linea))
      as [m|] eqn:E2; [| discriminate].
    intros H. injection H as <-.
    apply buscar_desde_some in E2. destruct E2 as (a & b & Eu & Hm & _).
    apply casa_aqui_some in Hm. destruct Hm as (_ & p' & D).
    apply den_patron_cics in D. destruct D as (n & Ho & Hg).
    unfold group. rewrite Hg.
    destruct Ho as (b1 & b2 & verbo & b3 & b4 & q1 & q2 & Eb & _ & _ & _ & _
                    & _ & _ & _ & Hn).
    exists n. split; [exact Hn |]. split; [| right; reflexivity].
    exists (a ++ lit "EXEC" ++ b1 ++ lit "CICS" ++ b2 ++ verbo ++ b3
            ++ lit "PROGRAM" ++ b4 ++ [40%N] ++ q1),
           (q2 ++ [41%N] ++ despues m).
    rewrite Eu, Eb. rewrite <- !app_assoc. reflexivity.
Qed.

Lemma detectar_call_fijo (linea destino : str) :
  RoadMapCalls.detectar_call linea = Some destino -> upper destino = destino.
Proof.
  intros H. destruct (detectar_call_nombre linea destino H)
    as (n & _ & Ht & [-> | ->]).
  - apply (es_nombre_fijo n linea Ht).
  - rewrite (upper_app (lit "CICS-") n), (es_nombre_fijo n linea Ht).
    reflexivity.
Qed.

(** X16: what [detectar_call] returns is a name of one or more word
    characters or hyphens taken from the upper-cased line, bare for a CALL
    and after the prefix CICS- for a CICS order; it is upper-cased already,
    so the [upper] the analyzer applies to it changes nothing. *)
Theorem detectar_call_forma (linea destino : str) :
  RoadMapCalls.detectar_call linea = Some destino ->
  (exists nombre,
     es_nombre nombre /\ trozo_de nombre (upper linea) /\
     (destino = nombre \/ destino = lit "CICS-" ++ nombre)) /\
  upper destino = destino.
Proof.
  intros H. split.
  - apply detectar_call_nombre. exact H.
  - apply (detectar_call_fijo linea). exact H.
Qed.

Lemma detectar_call_forma_testigo :
  let linea := lit "           exec cics start program(pgm_b) end-exec" in
  RoadMapCalls.detectar_call linea = Some (lit "CICS-PGM_B") /\
  upper (lit "CICS-PGM_B") = lit "CICS-PGM_B".
Proof.
  intros linea.
  assert (H : RoadMapCalls.detectar_call linea = Some (lit "CICS-PGM_B"))
    by (vm_compute; reflexivity).
  split; [exact H |].
  exact (proj2 (detectar_call_forma linea (lit "CICS-PGM_B") H)).
Defined.

(** ** The external-call analyzer, as a whole *)

Lemma detectar_call_upper (linea : str) :
  RoadMapCalls.detectar_call (upper linea) = RoadMapCalls.detectar_call linea.
Proof. unfold RoadMapCalls.detectar_call. rewrite upper_upper. reflexivity. Qed.

Lemma destinos_detectados_upper (archivo : list str) :
  destinos_detectados (List.map upper archivo) = destinos_detectados archivo.
Proof.
  induction archivo as [|l ls IH]; [reflexivity |].
  unfold destinos_detectados in *. simpl. rewrite IH, !upper_upper.
  reflexivity.
Qed.

(** X17: the external-call analyzer does not see the letter case of the
    source: the file with every line upper-cased gives the same mapping. *)
Theorem analizar_cobol_calls_sin_caja (ruta : str) (archivo : list str) :
  RoadMapCalls.analizar_cobol ruta (Some (List.map upper archivo))
  = RoadMapCalls.analizar_cobol ruta (Some archivo).
Proof.
  unfold RoadMapCalls.analizar_cobol.
  rewrite (recorrer_archivo_calls _ (List.map upper archivo) []).
  rewrite (recorrer_archivo_calls _ archivo []).
  rewrite destinos_detectados_upper. reflexivity.
Qed.

(** X18: the targets the analyzer records under the name of the source
    are exactly what [detectar_call] returns on the lines whose upper-cased
    text is not ignorable: upper-casing the line before the call and the
    target after it adds nothing. *)
Theorem analizar_cobol_calls_destinos (ruta : str) (archivo : list str)
    (destino : str) :
  In destino
    (get (RoadMapCalls.origen_de ruta) []
       (RoadMapCalls.analizar_cobol ruta (Some archivo)))
  <->
  exists linea,
    In linea archivo /\
    RoadMapCalls.es_linea_ignorable (upper linea) = false /\
    RoadMapCalls.detectar_call linea = Some destino.
Proof.
  unfold RoadMapCalls.analizar_cobol.
  rewrite (recorrer_archivo_calls _ archivo []). simpl app.
  assert (E : get (RoadMapCalls.origen_de ruta) []
                (de_un_origen (RoadMapCalls.origen_de ruta)
                   (destinos_detectados archivo))
              = destinos_detectados archivo).
  { destruct (destinos_detectados archivo) as [|d ds]; [reflexivity |].
    unfold get. simpl. rewrite str_eqb_refl. reflexivity. }
  rewrite E. unfold destinos_detectados. rewrite in_flat_map.
  split.
  - intros (l & Hl & H). exists l. split; [exact Hl |]. cbv zeta in H.
    destruct (RoadMapCalls.es_linea_ignorable (upper l)); [destruct H |].
    split; [reflexivity |]. rewrite detectar_call_upper in H.
    destruct (RoadMapCalls.detectar_call l) as [d|] eqn:Ed; [| destruct H].
    destruct H as [<- | []]. rewrite (detectar_call_fijo l d Ed).
    reflexivity.
  - intros (l & Hl & Hi & Hd). exists l. split; [exact Hl |]. cbv zeta.
    rewrite Hi, detectar_call_upper, Hd, (detectar_call_fijo l destino Hd).
    left. reflexivity.
Qed.

(** X19: the two functions named [es_linea_ignorable] differ on the blank
    lines only: the one of RoadMapCalls.py ignores what the one of
    RoadMap.07.py ignores and, besides, every line made of white space. *)
Theorem es_linea_ignorable_las_dos (linea : str) :
  RoadMapCalls.es_linea_ignorable linea = true <->
  RoadMap.es_linea_ignorable linea = true \/ en_blanco linea.
Proof.
  rewrite es_linea_ignorable_de_calls, es_linea_ignorable_exacto.
  split.
  - intros [H | H]; [right; exact H | left; right; exact H].
  - intros [[-> | H] | H]; [left; constructor | right; exact H | left; exact H].
Qed.

(** ** The name of the source *)

Lemma rfind_desde_app (c : char) (a : str) :
  forall b i v,
    RoadMapCalls.rfind_desde c (a ++ b) i v
    = RoadMapCalls.rfind_desde c b (i + length a)
        (RoadMapCalls.rfind_desde c a i v).
Proof.
  induction a as [|x a IH]; intros b i v; simpl.
  - rewrite Nat.add_0_r. reflexivity.
  - rewrite IH. f_equal. lia.
Qed.

Lemma rfind_desde_sin (c : char) (p : str) :
  ~ In c p ->
  forall i v, RoadMapCalls.rfind_desde c p i v = v.
Proof.
  induction p as [|x p IH]; intros Hc i v; simpl; [reflexivity |].
  destruct (N.eqb_spec x c) as [-> | _].
  - exfalso. apply Hc. left. reflexivity.
  - apply IH. intros H. apply Hc. right. exact H.
Qed.

Lemma rfind_ultimo (c : char) (a b : str) :
  ~ In c b -> RoadMapCalls.rfind c (a ++ c :: b) = Some (length a).
Proof.
  intros Hb. unfold RoadMapCalls.rfind. rewrite rfind_desde_app. simpl.
  rewrite N.eqb_refl. apply rfind_desde_sin. exact Hb.
Qed.

Lemma rfind_ninguno (c : char) (p : str) :
  ~ In c p -> RoadMapCalls.rfind c p = None.
Proof. intros H. apply rfind_desde_sin. exact H. Qed.

Lemma skipn_de_mas (A : Type) (a b : list A) :
  skipn (length a) (a ++ b) = b.
Proof. induction a as [|x a IH]; [reflexivity | exact IH]. Qed.

Lemma firstn_de_app (A : Type) (a b : list A) :
  firstn (length a) (a ++ b) = a.
Proof.
  induction a as [|x a IH]; [destruct b; reflexivity |].
  simpl. rewrite IH. reflexivity.
Qed.

Lemma basename_ruta_de (prefijo nombre ext : str) :
  prefijo = [] \/ (exists dir, prefijo = dir ++ [47%N]) ->
  ~ In 47%N nombre -> ~ In 47%N ext ->
  RoadMapCalls.basename (ruta_de prefijo nombre ext)
  = nombre ++ [46%N] ++ ext.
Proof.
  intros Hp Hn He.
  assert (Hs : ~ In 47%N (nombre ++ [46%N] ++ ext)).
  { intros H. apply in_app_or in H. destruct H as [H | [H | H]];
      [apply Hn; exact H | discriminate H | apply He; exact H]. }
  unfold RoadMapCalls.basename, ruta_de.
  set (f := nombre ++ [46%N] ++ ext) in *.
  destruct Hp as [-> | (dir & ->)].
  - change ([] ++ f) with f. set (x := RoadMapCalls.rfind _ _).
    assert (Hx : x = None) by exact (rfind_ninguno _ _ Hs).
    rewrite Hx. reflexivity.
  - rewrite <- app_assoc. change ([47%N] ++ f) with (47%N :: f).
    set (x := RoadMapCalls.rfind _ _).
    assert (Hx : x = Some (length dir)) by exact (rfind_ultimo 47%N dir f Hs).
    rewrite Hx.
    change (dir ++ 47%N :: f) with (dir ++ [47%N] ++ f).
    change (S (length dir)) with (1 + length dir).
    rewrite <- skipn_skipn, skipn_de_mas. reflexivity.
Qed.

Lemma splitext_punto (nombre ext : str) :
  ~ In 47%N (nombre ++ 46%N :: ext) -> ~ In 46%N ext ->
  RoadMapCalls.splitext (nombre ++ 46%N :: ext)
  = if existsb (fun x => negb (x =? 46)%N) nombre
    then (nombre, 46%N :: ext)
    else (nombre ++ 46%N :: ext, []).
Proof.
  intros Hs Hd. unfold RoadMapCalls.splitext.
  set (x := RoadMapCalls.rfind 46%N _).
  assert (Hx : x = Some (length nombre)) by exact (rfind_ultimo 46%N nombre ext Hd).
  rewrite Hx. clear x Hx.
  set (y := RoadMapCalls.rfind 47%N _).
  assert (Hy : y = None) by exact (rfind_ninguno _ _ Hs).
  rewrite Hy. clear y Hy. cbv zeta.
  rewrite Nat.sub_0_r. simpl skipn. rewrite firstn_de_app, skipn_de_mas.
  reflexivity.
Qed.

(** ** The keys of the graph *)

Lemma detectar_parrafo_etiqueta (linea t : str) :
  upper linea = linea ->
  RoadMap.detectar_parrafo linea = Some t ->
  es_etiqueta (RoadMap.code_area_de linea) t /\ ~ In t palabras_excluidas.
Proof.
  intros Hu. unfold RoadMap.detectar_parrafo.
  set (ca := RoadMap.code_area_de linea).
  assert (Hca : upper ca = ca).
  { apply upper_fijo. apply upper_fijo in Hu.
    destruct (code_area_sufijo linea) as (a & Ha). rewrite Ha in Hu.
    apply sufijo_Forall in Hu. exact Hu. }
  rewrite (re_match_sin_minusculas _ _ patron_parrafo_mayusculo
             (upper_sin_minusculas _ Hca)).
  change RoadMap.excluidos with palabras_excluidas.
  destruct (vacia linea || vacia (strip linea)); [discriminate |].
  destruct (RoadMap.columna_7_es_asterisco linea); [discriminate |].
  destruct (existsb _ RoadMap.sentencias_iniciales); [discriminate |].
  destruct (re_match false RoadMap.patron_parrafo ca) as [m|] eqn:Em;
    [| discriminate].
  destruct (re_match_patron_parrafo _ _ Em) as (t0 & Hg & He & _).
  unfold group. rewrite Hg.
  assert (Ht0 : todos RoadMap.letra_digito_o_guion t0).
  { destruct He as ((b & s & _ & _ & _ & Ht & _) & _). exact Ht. }
  destruct (etiqueta_strip_upper t0 Ht0) as (-> & Hup). rewrite Hup.
  destruct (pertenece t0 palabras_excluidas) eqn:Hp; [discriminate |].
  intros H. injection H as <-. split; [exact He |].
  apply pertenece_false. exact Hp.
Qed.

(** X21: every key of the graph the scan returns, [__START__] apart, is
    a paragraph name: 1 to 61 letters, digits and hyphens, the first a
    letter or a digit, and none of the excluded words. *)
Theorem analizar_cobol_claves (contenido : option (list str))
    (parrafo_inicio : option str) (analizar_sql : bool)
    (g : dict (list str)) (n : nat) (indice : dict (list str)) (k : str) :
  RoadMap.analizar_cobol contenido parrafo_inicio analizar_sql
  = Some (g, n, indice) ->
  In k (claves g) ->
  k = lit "__START__" \/ nombre_de_parrafo k.
Proof.
  intros H Hk. destruct contenido as [archivo|].
  - apply (analizar_cobol_bien (fun _ => True)
             (fun k => k = lit "__START__" \/ nombre_de_parrafo k)) in H.
    + destruct H as [_ Hc]. apply (Hc k Hk).
    + intros l t _ Ht _. right.
      destruct (detectar_parrafo_etiqueta (upper l) t (upper_upper l) Ht)
        as (((b & s & _ & _ & _ & Hl & Hlen & _) & Hc) & Hex).
      split; [exact Hc |]. split; [exact Hl |]. split; [exact Hlen | exact Hex].
    + intros; exact I.
    + left. reflexivity.
  - simpl in H. injection H as <- _ _. destruct Hk.
Qed.

Lemma analizar_cobol_claves_testigo :
  let archivo := [lit "       procedure division.";
                  lit "       abrir-ficheros section.";
                  lit "           perform leer-1.";
                  lit "       stop.";
                  lit "       leer-1."] in
  let g := [(lit "ABRIR-FICHEROS", [lit "LEER-1"]); (lit "LEER-1", [])] in
  RoadMap.analizar_cobol (Some archivo) None false = Some (g, 0, []) /\
  In (lit "LEER-1") (claves g) /\
  (lit "LEER-1" = lit "__START__" \/ nombre_de_parrafo (lit "LEER-1")).
Proof.
  intros archivo g.
  assert (H : RoadMap.analizar_cobol (Some archivo) None false
              = Some (g, 0, [])) by (vm_compute; reflexivity).
  assert (Hk : In (lit "LEER-1") (claves g)) by (right; left; reflexivity).
  split; [exact H |]. split; [exact Hk |].
  exact (analizar_cobol_claves (Some archivo) None false g 0 [] _ H Hk).
Defined.

(** ** The start paragraph *)

Lemma leer_argumentos_desde (argumentos : list str) :
  forall sql inicio,
    fold_left
      (fun (estado : bool * option str) (arg : str) =>
         if str_eqb (upper arg) (lit "SQL") then (true, snd estado)
         else (fst estado, Some arg))
      argumentos (sql, inicio)
    = (sql || existsb pide_sql argumentos,
       match rev (filter (fun a => negb (pide_sql a)) argumentos) with
       | ultimo :: _ => Some ultimo
       | [] => inicio
       end).
Proof.
  induction argumentos as [|a l IH]; intros sql inicio.
  - simpl. rewrite orb_false_r. reflexivity.
  - cbn [fold_left existsb filter]. fold (pide_sql a).
    destruct (pide_sql a) eqn:E; cbn [fst snd negb].
    + rewrite IH. rewrite orb_true_r. reflexivity.
    + rewrite IH. rewrite orb_false_l. f_equal.
      cbn [rev]. destruct (rev (filter (fun a0 => negb (pide_sql a0)) l));
        reflexivity.
Qed.

(** The closed form of the loop over the arguments, in terms of the test
    [pide_sql] of the model. *)
Lemma leer_argumentos_cerrado (argumentos : list str) :
  RoadMap.leer_argumentos argumentos
  = (existsb pide_sql argumentos,
     hd_error (rev (filter (fun a => negb (pide_sql a)) argumentos))) /\
  forall inicio,
    snd (RoadMap.leer_argumentos argumentos) = Some inicio ->
    pide_sql inicio = false /\ In inicio argumentos.
Proof.
  assert (E : RoadMap.leer_argumentos argumentos
              = (existsb pide_sql argumentos,
                 hd_error (rev (filter (fun a => negb (pide_sql a))
                                  argumentos)))).
  { unfold RoadMap.leer_argumentos. rewrite leer_argumentos_desde.
    reflexivity. }
  split; [exact E |]. intros inicio H. rewrite E in H. simpl in H.
  assert (Hin : In inicio (filter (fun a => negb (pide_sql a)) argumentos)).
  { apply in_rev.
    destruct (rev (filter (fun a => negb (pide_sql a)) argumentos));
      [discriminate H |].
    injection H as ->. left. reflexivity. }
  apply filter_In in Hin. destruct Hin as [Hin Hp].
  apply negb_true_iff in Hp. auto.
Qed.

Lemma claves_en_mayusculas (k : str) :
  k = lit "__START__" \/ nombre_de_parrafo k -> upper k = k.
Proof.
  intros [-> | (_ & Hk & _)]; [reflexivity |].
  apply (etiqueta_strip_upper k Hk).
Qed.

(** X23: the names of the graph are in upper case, so a start paragraph
    given with a letter that [upper] changes is never found: the scan
    then returns the empty graph. *)
Theorem analizar_cobol_inicio_en_minusculas (archivo : list str)
    (parrafo_inicio : str) (analizar_sql : bool) :
  upper parrafo_inicio <> parrafo_inicio ->
  exists n indice,
    RoadMap.analizar_cobol (Some archivo) (Some parrafo_inicio) analizar_sql
    = Some ([], n, indice).
Proof.
  intros Hu. unfold RoadMap.analizar_cobol.
  destruct (RoadMap.recorrer_archivo (length archivo) analizar_sql archivo
              RoadMap.estado_inicial) as [e|] eqn:E.
  2:{ exfalso. revert E. apply recorrer_archivo_no_agota. lia. }
  apply (recorrer_archivo_bien (fun _ => True)
           (fun k => k = lit "__START__" \/ nombre_de_parrafo k) archivo)
    in E.
  - destruct E as (_ & Hc & _).
    assert (Ht : tiene parrafo_inicio (RoadMap.llamadas e) = false).
    { apply tiene_false. intros Hk. apply Hu.
      apply claves_en_mayusculas. apply (Hc _ Hk). }
    unfold RoadMap.cerrar.
    assert (Hv : RoadMap.verdadero (Some parrafo_inicio) = Some parrafo_inicio).
    { destruct parrafo_inicio; [exfalso; apply Hu; reflexivity | reflexivity]. }
    rewrite Hv. unfold RoadMap.filtrar_desde_parrafo_inicio. rewrite Ht.
    simpl. eauto.
  - intros l t _ Ht _. right.
    destruct (detectar_parrafo_etiqueta (upper l) t (upper_upper l) Ht)
      as (((b & s & _ & _ & _ & Hl & Hlen & _) & Hc) & Hex).
    split; [exact Hc |]. split; [exact Hl |]. split; [exact Hlen | exact Hex].
  - intros; exact I.
  - apply incl_refl.
  - split; [intros k ds d [] |]. split; [intros k [] | left; reflexivity].
Qed.

Lemma analizar_cobol_inicio_en_minusculas_testigo :
  let archivo := [lit "       PROCEDURE DIVISION.";
                  lit "       P1.";
                  lit "           PERFORM P2."] in
  upper (lit "p1") <> lit "p1" /\
  RoadMap.analizar_cobol (Some archivo) (Some (lit "p1")) false
  = Some ([], 0, []) /\
  RoadMap.analizar_cobol (Some archivo) (Some (lit "P1")) false
  = Some ([(lit "P1", [lit "P2"])], 0, []).
Proof.
  intros archivo.
  assert (Hu : upper (lit "p1") <> lit "p1") by discriminate.
  split; [exact Hu |]. split; [| vm_compute; reflexivity].
  destruct (analizar_cobol_inicio_en_minusculas archivo (lit "p1") false Hu)
    as (n & indice & H).
  rewrite H. vm_compute in H. injection H as <- <-. reflexivity.
Defined.

(** ** The count of external calls *)

Lemma destinos_detectados_cuenta (archivo : list str) :
  length (destinos_detectados archivo)
  = length (filter linea_con_llamada archivo).
Proof.
  induction archivo as [|l ls IH]; [reflexivity |].
  unfold destinos_detectados in *. cbn [flat_map filter].
  rewrite length_app, IH. unfold linea_con_llamada at 2.
  rewrite detectar_call_upper.
  destruct (RoadMapCalls.es_linea_ignorable (upper l)); [reflexivity |].
  destruct (RoadMapCalls.detectar_call l); reflexivity.
Qed.

(** X24: the number of calls the main program reports for a source is the
    number of its lines that are not ignorable and hold an order: a line
    counts once however many orders it holds, and a module called from two
    lines counts twice. *)
Theorem total_llamadas_cuenta_lineas (ruta : str) (archivo : list str) :
  RoadMapCalls.total_llamadas
    (RoadMapCalls.analizar_cobol ruta (Some archivo))
  = length (filter linea_con_llamada archivo) /\
  RoadMapCalls.total_llamadas
    (RoadMapCalls.analizar_cobol ruta (Some archivo))
  <= length archivo.
Proof.
  assert (E : RoadMapCalls.total_llamadas
                (RoadMapCalls.analizar_cobol ruta (Some archivo))
              = length (filter linea_con_llamada archivo)).
  { unfold RoadMapCalls.analizar_cobol.
    rewrite (recorrer_archivo_calls _ archivo []). simpl app.
    rewrite <- destinos_detectados_cuenta.
    destruct (destinos_detectados archivo) as [|d ds]; [reflexivity |].
    unfold RoadMapCalls.total_llamadas. simpl. lia. }
  split; [exact E |]. rewrite E. apply filter_length_le.
Qed.

(** ** The drawing *)

Lemma alcanzable_desde_hijo (dic : dict (list str)) (a h x : str) :
  arista dic a h -> alcanzable dic h x -> alcanzable dic a x.
Proof.
  intros Ha Hx. induction Hx as [h|h b c _ IH Hbc].
  - apply alcanzable_paso with (b := a); [apply alcanzable_aqui | exact Ha].
  - apply alcanzable_paso with (b := b); [apply IH; exact Ha | exact Hbc].
Qed.

Lemma claves_poner_iff (V : Type) (k k' : str) (v : V) (d : dict V) :
  In k (claves (poner k' v d)) <-> k = k' \/ In k (claves d).
Proof.
  split; [apply claves_poner |].
  induction d as [|[k0 v0] d IH]; simpl.
  - intros [-> | []]. left. reflexivity.
  - destruct (str_eqb k0 k') eqn:E; simpl.
    + apply str_eqb_eq in E. subst k0. intros [-> | [<- | H]]; auto.
    + intros [-> | [<- | H]]; auto.
Qed.

Lemma aristas_poner_arista (k : str * str) (v : nat)
    (d : list (str * str * nat)) (a b : str) :
  In (a, b) (List.map fst (RoadMap.poner_arista k v d))
  <-> (a, b) = k \/ In (a, b) (List.map fst d).
Proof.
  destruct k as [k1 k2].
  induction d as [|[[x y] n] d IH]; simpl.
  - split; [intros [H | []]; left; symmetry; exact H |].
    intros [H | []]. left. symmetry. exact H.
  - destruct (str_eqb x k1 && str_eqb y k2) eqn:E; simpl.
    + apply andb_true_iff in E. destruct E as [E1 E2].
      apply str_eqb_eq in E1. apply str_eqb_eq in E2. subst x y.
      split; [intros [H | H]; auto | intros [H | [H | H]]; auto];
        try (left; symmetry; exact H).
    + rewrite IH. tauto.
Qed.

Lemma faltan_incl (dic : dict (list str)) (v v' : list str) :
  incl v v' -> length (faltan dic v') <= length (faltan dic v).
Proof.
  intros Hi. unfold faltan.
  induction (nodup str_eq_dec (destinos_de dic)) as [|x l IH];
    [simpl; lia |].
  simpl. destruct (pertenece x v) eqn:E.
  - apply pertenece_In in E. apply Hi in E. apply pertenece_In in E.
    rewrite E. simpl. exact IH.
  - simpl. destruct (pertenece x v'); simpl; lia.
Qed.

Lemma visitar_hijos_None (f : str -> RoadMap.trazado -> option RoadMap.trazado)
    (nodo : str) (hijos : list str) :
  RoadMap.visitar_hijos f nodo hijos None = None.
Proof.
  unfold RoadMap.visitar_hijos. induction hijos as [|h hs IH]; [reflexivity |].
  simpl. exact IH.
Qed.

Lemma visitar_hijos_cons (f : str -> RoadMap.trazado -> option RoadMap.trazado)
    (nodo h : str) (hs : list str) (t : RoadMap.trazado) :
  RoadMap.visitar_hijos f nodo (h :: hs) (Some t)
  = RoadMap.visitar_hijos f nodo hs
      (f h (RoadMap.Trazado (RoadMap.visitados t) (RoadMap.niveles t)
              (S (RoadMap.contador t))
              (RoadMap.poner_arista (nodo, h) (RoadMap.contador t)
                 (RoadMap.orden_llamadas t)))).
Proof. reflexivity. Qed.

(** More fuel does not change the trace. *)
Lemma asignar_niveles_mas_fuel (dic : dict (list str)) (fuel : nat) :
  forall fuel' nodo nivel t r,
    fuel <= fuel' ->
    RoadMap.asignar_niveles fuel dic nodo nivel t = Some r ->
    RoadMap.asignar_niveles fuel' dic nodo nivel t = Some r.
Proof.
  induction fuel as [|fuel IH]; intros fuel' nodo nivel t r Hle H;
    [discriminate H |].
  destruct fuel' as [|fuel']; [lia |]. simpl in *.
  destruct (pertenece nodo (RoadMap.visitados t)); [exact H |].
  revert H. generalize (Some (RoadMap.Trazado (nodo :: RoadMap.visitados t)
                                (poner nodo nivel (RoadMap.niveles t))
                                (RoadMap.contador t)
                                (RoadMap.orden_llamadas t))).
  induction (get nodo [] dic) as [|h hs IHh]; intros ot H; [exact H |].
  destruct ot as [s|].
  - rewrite visitar_hijos_cons in *.
    destruct (RoadMap.asignar_niveles fuel dic h (S nivel) _) as [s1|] eqn:E.
    + rewrite (IH fuel' _ _ _ _ (le_S_n _ _ Hle) E). apply IHh. exact H.
    + rewrite visitar_hijos_None in H. discriminate H.
  - rewrite visitar_hijos_None in H. discriminate H.
Qed.

Lemma nuevos_parte (a b c : RoadMap.trazado) (x : str) :
  incl (RoadMap.visitados a) (RoadMap.visitados b) ->
  incl (RoadMap.visitados b) (RoadMap.visitados c) ->
  (nuevos a c x <-> nuevos a b x \/ nuevos b c x).
Proof.
  intros Hab Hbc. unfold nuevos. split.
  - intros [Hc Ha].
    destruct (in_dec str_eq_dec x (RoadMap.visitados b)) as [Hb | Hb]; auto.
  - intros [[Hb Ha] | [Hc Hb]]; split; auto.
Qed.

Lemma visita_bien_compone (dic : dict (list str)) (o1 o2 : list str)
    (p1 p2 : list (str * str)) (a b c : RoadMap.trazado) :
  visita_bien dic o1 p1 a b -> visita_bien dic o2 p2 b c ->
  visita_bien dic (o1 ++ o2) (p1 ++ p2) a c.
Proof.
  intros (A1 & A2 & A3 & A4 & A5 & A6) (B1 & B2 & B3 & B4 & B5 & B6).
  pose proof (nuevos_parte a b c) as Hn.
  split; [intros x Hx; apply B1, A1, Hx |].
  split; [| split; [| split; [| split]]].
  - intros x Hx. apply (Hn x A1 B1) in Hx. destruct Hx as [Hx | Hx].
    + destruct (A2 x Hx) as (o & Ho & Hr). exists o. split; [| exact Hr].
      apply in_or_app. left. exact Ho.
    + destruct (B2 x Hx) as (o & Ho & Hr). exists o. split; [| exact Hr].
      apply in_or_app. right. exact Ho.
  - intros x y Hx Hxy. apply (Hn x A1 B1) in Hx. destruct Hx as [Hx | Hx].
    + apply B1. apply (A3 x y Hx Hxy).
    + apply (B3 x y Hx Hxy).
  - intros x. rewrite B4, A4, (Hn x A1 B1). tauto.
  - intros x Hx. rewrite (B5 x (A1 x Hx)). apply A5. exact Hx.
  - intros x y. rewrite B6, A6, (Hn x A1 B1), in_app_iff. tauto.
Qed.

Lemma visita_bien_arista (dic : dict (list str)) (nodo h : str)
    (s : RoadMap.trazado) :
  visita_bien dic [] [(nodo, h)] s
    (RoadMap.Trazado (RoadMap.visitados s) (RoadMap.niveles s)
       (S (RoadMap.contador s))
       (RoadMap.poner_arista (nodo, h) (RoadMap.contador s)
          (RoadMap.orden_llamadas s))).
Proof.
  assert (Hn : forall x,
            ~ nuevos s
                (RoadMap.Trazado (RoadMap.visitados s) (RoadMap.niveles s)
                   (S (RoadMap.contador s))
                   (RoadMap.poner_arista (nodo, h) (RoadMap.contador s)
                      (RoadMap.orden_llamadas s))) x).
  { intros x [H1 H2]. apply H2. exact H1. }
  split; [apply incl_refl |].
  split; [intros x Hx; destruct (Hn x Hx) |].
  split; [intros x y Hx; destruct (Hn x Hx) |].
  split; [| split].
  - intros x. simpl. split; [auto |]. intros [H | H]; [exact H |].
    destruct (Hn x H).
  - intros x _. reflexivity.
  - intros a b. unfold aristas_de. simpl RoadMap.orden_llamadas.
    rewrite aristas_poner_arista. split.
    + intros [H | H]; [right; left; left; symmetry; exact H | left; exact H].
    + intros [H | [[H | []] | [H _]]];
        [right; exact H | left; symmetry; exact H | destruct (Hn a H)].
Qed.

Section Trazado.
Variable dic : dict (list str).
Variable fuel : nat.
Variable f : str -> RoadMap.trazado -> option RoadMap.trazado.
Hypothesis f_bien :
  forall h s,
    In h (destinos_de dic) ->
    length (faltan dic (RoadMap.visitados s)) + 1 <= fuel ->
    exists s',
      f h s = Some s' /\ visita_bien dic [h] [] s s' /\
      In h (RoadMap.visitados s').

Lemma visitar_hijos_bien (nodo : str) (hijos : list str) :
  forall s,
    (forall h, In h hijos -> In h (destinos_de dic)) ->
    length (faltan dic (RoadMap.visitados s)) + 1 <= fuel ->
    exists s',
      RoadMap.visitar_hijos f nodo hijos (Some s) = Some s' /\
      visita_bien dic hijos (List.map (pair nodo) hijos) s s' /\
      forall h, In h hijos -> In h (RoadMap.visitados s').
Proof.
  induction hijos as [|h hs IH]; intros s Hd Hf.
  - exists s. split; [reflexivity |]. split; [| intros h []].
    split; [apply incl_refl |].
    assert (Hn : forall x, ~ nuevos s s x) by (intros x [H1 H2]; auto).
    split; [intros x Hx; destruct (Hn x Hx) |].
    split; [intros x y Hx; destruct (Hn x Hx) |].
    split; [| split].
    + intros x. split; [auto |]. intros [H | H]; [exact H | destruct (Hn x H)].
    + reflexivity.
    + intros a b. split; [auto |].
      intros [H | [[] | [H _]]]; [exact H | destruct (Hn a H)].
  - rewrite visitar_hijos_cons.
    set (s0 := RoadMap.Trazado (RoadMap.visitados s) (RoadMap.niveles s)
                 (S (RoadMap.contador s))
                 (RoadMap.poner_arista (nodo, h) (RoadMap.contador s)
                    (RoadMap.orden_llamadas s))).
    destruct (f_bien h s0) as (s1 & E1 & B1 & H1).
    { apply Hd. left. reflexivity. }
    { exact Hf. }
    rewrite E1.
    destruct (IH s1) as (s' & E' & B' & H').
    { intros x Hx. apply Hd. right. exact Hx. }
    { pose proof (faltan_incl dic (RoadMap.visitados s0)
                    (RoadMap.visitados s1) (proj1 B1)) as Hle.
      simpl in Hle. lia. }
    exists s'. split; [exact E' |]. split.
    + pose proof (visita_bien_arista dic nodo h s) as B0. fold s0 in B0.
      pose proof (visita_bien_compone dic _ _ _ _ _ _ _ B0
                    (visita_bien_compone dic _ _ _ _ _ _ _ B1 B')) as B.
      exact B.
    + intros x [<- | Hx]; [apply (proj1 B'); exact H1 | apply H'; exact Hx].
Qed.

End Trazado.

(** The visit of a node returns with enough fuel; it meets what can be
    reached from the node and was not met before, gives the node its
    level, and numbers the edges that leave the nodes it meets. *)
Lemma asignar_niveles_bien (dic : dict (list str)) (fuel : nat) :
  forall nodo nivel t,
    fuel_basta dic fuel nodo t ->
    exists t',
      RoadMap.asignar_niveles fuel dic nodo nivel t = Some t' /\
      visita_bien dic [nodo] [] t t' /\
      In nodo (RoadMap.visitados t') /\
      (~ In nodo (RoadMap.visitados t) ->
       buscar nodo (RoadMap.niveles t') = Some nivel).
Proof.
  induction fuel as [|fuel IH]; intros nodo nivel t (H1 & H2); [lia |].
  simpl. destruct (pertenece nodo (RoadMap.visitados t)) eqn:Hv.
  - apply pertenece_In in Hv. exists t. split; [reflexivity |].
    split; [| split; [exact Hv | intros F; destruct (F Hv)]].
    assert (Hn : forall x, ~ nuevos t t x) by (intros x [A B]; auto).
    split; [apply incl_refl |].
    split; [intros x Hx; destruct (Hn x Hx) |].
    split; [intros x y Hx; destruct (Hn x Hx) |].
    split; [| split].
    + intros x. split; [auto |]. intros [H | H]; [exact H | destruct (Hn x H)].
    + reflexivity.
    + intros a b. split; [auto |].
      intros [H | [[] | [H _]]]; [exact H | destruct (Hn a H)].
  - apply pertenece_false in Hv. specialize (H2 Hv).
    set (t1 := RoadMap.Trazado (nodo :: RoadMap.visitados t)
                 (poner nodo nivel (RoadMap.niveles t))
                 (RoadMap.contador t) (RoadMap.orden_llamadas t)).
    destruct (visitar_hijos_bien dic fuel
                (fun hijo t' =>
                   RoadMap.asignar_niveles fuel dic hijo (S nivel) t'))
      with (nodo := nodo) (hijos := get nodo [] dic) (s := t1)
      as (t' & E & B & Hh).
    { intros h s Hd Hf.
      destruct (IH h (S nivel) s) as (s' & Es & Bs & Hs & _).
      - split; [lia |]. intros Hn.
        pose proof (faltan_decrece dic h (RoadMap.visitados s) Hd Hn). lia.
      - exists s'. auto. }
    { intros h Hh. apply (destino_en_destinos dic nodo h Hh). }
    { simpl. lia. }
    exists t'. split; [exact E |].
    destruct B as (B1 & B2 & B3 & B4 & B5 & B6).
    assert (Hnodo : In nodo (RoadMap.visitados t')).
    { apply B1. left. reflexivity. }
    assert (Hn : forall x, nuevos t t' x <-> x = nodo \/ nuevos t1 t' x).
    { intros x. unfold nuevos. simpl. split.
      - intros [Hx Hnx].
        destruct (str_eq_dec x nodo) as [-> | Hne]; [left; reflexivity |].
        right. split; [exact Hx |]. intros [F | F]; [congruence | auto].
      - intros [-> | [Hx Hnx]]; [split; assumption |].
        split; [exact Hx |]. intros F. apply Hnx. right. exact F. }
    split; [| split; [exact Hnodo |]].
    + split; [intros x Hx; apply B1; right; exact Hx |].
      split; [| split; [| split; [| split]]].
      * intros x Hx. exists nodo. split; [left; reflexivity |].
        apply Hn in Hx. destruct Hx as [-> | Hx]; [apply alcanzable_aqui |].
        destruct (B2 x Hx) as (h & Hh' & Hr).
        apply (alcanzable_desde_hijo dic nodo h x Hh' Hr).
      * intros x y Hx Hxy. apply Hn in Hx. destruct Hx as [-> | Hx].
        -- apply Hh. exact Hxy.
        -- apply (B3 x y Hx Hxy).
      * intros x. rewrite B4, Hn. simpl RoadMap.niveles.
        rewrite claves_poner_iff. tauto.
      * intros x Hx. rewrite (B5 x (or_intror Hx)). simpl RoadMap.niveles.
        rewrite buscar_poner.
        destruct (str_eqb nodo x) eqn:E0; [| reflexivity].
        apply str_eqb_eq in E0. subst x. destruct (Hv Hx).
      * intros a b. rewrite B6, Hn. unfold aristas_de at 2.
        simpl RoadMap.orden_llamadas. fold (aristas_de t).
        rewrite in_map_iff. split.
        -- intros [H | [(h & Hp & Hh') | H]]; [left; exact H | | tauto].
           injection Hp as <- <-. right. right. split; [left; reflexivity |].
           exact Hh'.
        -- intros [H | [[] | [[-> | H] Hab]]]; [left; exact H | | tauto].
           right. left. exists b. split; [reflexivity | exact Hab].
    + intros _. rewrite (B5 nodo (or_introl eq_refl)). simpl RoadMap.niveles.
      rewrite buscar_poner, str_eqb_refl. reflexivity.
Qed.

(** X25: the trace that [generar_grafo] works out before it draws: on an
    empty graph it stops with [StopIteration]; otherwise its root is
    [__START__] when that is a key and the first key when not, the trace
    returns whatever the cycles, the nodes that get a level in [niveles]
    are exactly those reached from the root, the root at level 0, and the
    pairs that get a number in [orden_llamadas] are exactly the edges that
    leave those nodes.  The nodes and edges that the SQL annotations add
    to the drawing are no part of the trace. *)
Theorem generar_grafo_traza (dic : dict (list str)) :
  (dic = [] -> forall fuel, RoadMap.trazar fuel dic = RoadMap.StopIteration)
  /\
  (dic <> [] ->
   exists raiz t,
     RoadMap.nodo_raiz dic = Some raiz /\
     (In (lit "__START__") (claves dic) -> raiz = lit "__START__") /\
     (~ In (lit "__START__") (claves dic) ->
      hd_error (claves dic) = Some raiz) /\
     (forall fuel,
        length (nodup str_eq_dec (destinos_de dic)) + 1 < fuel ->
        RoadMap.trazar fuel dic = RoadMap.Trazado_hecho t) /\
     (forall n, In n (claves (RoadMap.niveles t)) <-> alcanzable dic raiz n) /\
     (forall a b, In (a, b) (aristas_de t) <->
                  alcanzable dic raiz a /\ arista dic a b) /\
     buscar raiz (RoadMap.niveles t) = Some 0).
Proof.
  split; [intros -> fuel; reflexivity |].
  intros Hne.
  assert (Hr : exists raiz,
             RoadMap.nodo_raiz dic = Some raiz /\
             (In (lit "__START__") (claves dic) -> raiz = lit "__START__") /\
             (~ In (lit "__START__") (claves dic) ->
              hd_error (claves dic) = Some raiz)).
  { unfold RoadMap.nodo_raiz.
    destruct (tiene (lit "__START__") dic) eqn:Ht.
    - exists (lit "__START__"). split; [reflexivity |].
      split; [reflexivity |]. intros F. exfalso. apply F.
      apply tiene_In. exact Ht.
    - destruct dic as [|[k v] d]; [congruence |].
      exists k. split; [reflexivity |]. split; [| reflexivity].
      intros F. apply tiene_In in F. congruence. }
  destruct Hr as (raiz & Hraiz & Hs1 & Hs2). exists raiz.
  set (cota := length (nodup str_eq_dec (destinos_de dic)) + 2).
  destruct (asignar_niveles_bien dic cota raiz 0 RoadMap.trazado_inicial)
    as (t & E & B & Hin & Hniv).
  { split; [unfold cota; lia |]. intros _.
    pose proof (faltan_cota dic (raiz :: RoadMap.visitados
                                           RoadMap.trazado_inicial)).
    unfold cota. lia. }
  exists t. destruct B as (B1 & B2 & B3 & B4 & B5 & B6).
  assert (Hn : forall x, nuevos RoadMap.trazado_inicial t x
                         <-> In x (RoadMap.visitados t)).
  { intros x. unfold nuevos. simpl. tauto. }
  assert (Hv : forall x, In x (RoadMap.visitados t) <-> alcanzable dic raiz x).
  { intros x. split.
    - intros Hx. apply Hn in Hx. destruct (B2 x Hx) as (o & [<- | []] & Hr).
      exact Hr.
    - intros Hx. induction Hx as [raiz|raiz b c _ IH Hbc].
      + exact Hin.
      + apply (B3 b c); [apply Hn; apply IH; assumption | exact Hbc]. }
  split; [exact Hraiz |]. split; [exact Hs1 |]. split; [exact Hs2 |].
  split; [| split; [| split]].
  - intros fuel Hf. unfold RoadMap.trazar. rewrite Hraiz.
    rewrite (asignar_niveles_mas_fuel dic cota fuel raiz 0
               RoadMap.trazado_inicial t); [reflexivity | unfold cota; lia |].
    exact E.
  - intros x. rewrite B4, Hn, Hv. simpl. tauto.
  - intros a b. rewrite B6, Hn, Hv. simpl. tauto.
  - apply Hniv. intros [].
Qed.

(** ** The SQL index *)

Lemma claves_anexar (o x k : str) (g : dict (list str)) :
  In k (claves g) -> In k (claves (anexar o x g)).
Proof. intros H. unfold anexar. apply claves_poner_iff. right. exact H. Qed.

Lemma paso_sin_sql_indice (linea : str) (e : RoadMap.estado) :
  indice_bien e -> indice_bien (RoadMap.paso_sin_sql linea e).
Proof.
  intros (H1 & H2). unfold RoadMap.paso_sin_sql.
  destruct (negb (RoadMap.en_procedure_division e)).
  { destruct (contiene _ _); split; assumption. }
  destruct (RoadMap.esperar_punto_despues_de_proc e) as [[|]|].
  { destruct (contiene _ _); split; assumption. }
  all: destruct (RoadMap.detectar_parrafo linea) as [[|c k]|].
  all: try (split; simpl;
            [right; destruct (tiene (c :: k) (RoadMap.llamadas e)) eqn:Ht;
               [apply tiene_In; exact Ht
               | apply claves_poner_iff; left; reflexivity]
            | intros x Hx; destruct (H2 x Hx) as [Hs | Hk];
               [left; exact Hs |];
               right; destruct (tiene (c :: k) (RoadMap.llamadas e));
               [exact Hk | apply claves_poner_iff; right; exact Hk]]).
  all: destruct (vacia (RoadMap.parrafo_actual e)); [split; assumption |].
  all: destruct (RoadMap.detectar_perform linea) as [[|c d]|];
    try (split; assumption).
  all: split; simpl;
    [right; unfold anexar; apply claves_poner_iff; left; reflexivity
    | intros x Hx; destruct (H2 x Hx) as [Hs | Hk];
      [left; exact Hs | right; apply claves_anexar; exact Hk]].
Qed.

Lemma procesar_bloque_sql_claves (archivo : list str) (p k : str)
    (indice : dict (list str)) :
  tiene k (snd (RoadMap.procesar_bloque_sql archivo p indice)) = true ->
  tiene k indice = true \/ k = p.
Proof.
  unfold RoadMap.procesar_bloque_sql.
  destruct (RoadMap.leer_bloque archivo []) as [b r]. simpl.
  rewrite anotar_claves, orb_true_iff, andb_true_iff, str_eqb_eq.
  intros [H | [H _]]; [left; exact H | right; symmetry; exact H].
Qed.

Lemma recorrer_archivo_indice (fuel : nat) :
  forall sql archivo e e',
    indice_bien e ->
    RoadMap.recorrer_archivo fuel sql archivo e = Some e' ->
    indice_bien e'.
Proof.
  induction fuel as [|fuel IH]; intros sql archivo e e' He H.
  - destruct archivo; [| discriminate H]. injection H as <-. exact He.
  - destruct archivo as [|l ls]; [injection H as <-; exact He |].
    simpl in H.
    destruct (RoadMap.es_linea_ignorable (upper l));
      [apply (IH _ _ _ _ He H) |].
    destruct (sql && contiene (lit "EXEC SQL") (upper (upper l))).
    + pose proof (procesar_bloque_sql_claves ls (RoadMap.parrafo_actual e))
        as Hk.
      specialize (fun k => Hk k (RoadMap.selects_por_parrafo e)).
      destruct (RoadMap.procesar_bloque_sql ls _ _) as [r s]. simpl in Hk.
      apply (IH _ _ _ _) in H; [exact H |].
      destruct He as (H1 & H2). split; [exact H1 |]. simpl.
      intros k Hin. apply tiene_In in Hin. apply Hk in Hin.
      destruct Hin as [Hin | ->].
      * apply H2. apply tiene_In. exact Hin.
      * destruct H1 as [H1 | H1]; [left; exact H1 | right; exact H1].
    + apply (IH _ _ _ _) in H; [exact H |].
      apply paso_sin_sql_indice. exact He.
Qed.

Lemma filter_todos (A : Type) (p : A -> bool) (l : list A) :
  (forall x, In x l -> p x = true) -> filter p l = l.
Proof.
  induction l as [|x l IH]; intros H; [reflexivity |].
  simpl. rewrite (H x (or_introl eq_refl)). f_equal. apply IH.
  intros y Hy. apply H. right. exact Hy.
Qed.

(** X26: without a start paragraph the scan returns the whole SQL index:
    every paragraph that has annotations is [__START__] or a key of the
    graph, so the last filter of the scan removes nothing. *)
Theorem analizar_cobol_indice_entero (archivo : list str) :
  exists e,
    RoadMap.recorrer_archivo (length archivo) true archivo
      RoadMap.estado_inicial = Some e /\
    RoadMap.analizar_cobol (Some archivo) None true
    = Some (RoadMap.llamadas e, RoadMap.bloque_sql_count e,
            RoadMap.selects_por_parrafo e) /\
    forall k, In k (claves (RoadMap.selects_por_parrafo e)) ->
              k = lit "__START__" \/ In k (claves (RoadMap.llamadas e)).
Proof.
  unfold RoadMap.analizar_cobol.
  destruct (RoadMap.recorrer_archivo (length archivo) true archivo
              RoadMap.estado_inicial) as [e|] eqn:E.
  2:{ exfalso. revert E. apply recorrer_archivo_no_agota. lia. }
  exists e. split; [reflexivity |].
  apply recorrer_archivo_indice in E.
  2:{ split; [left; reflexivity | intros k []]. }
  destruct E as (_ & Hk). split; [| exact Hk].
  unfold RoadMap.cerrar. simpl. rewrite filter_todos; [reflexivity |].
  intros [k v] Hin. simpl.
  destruct (Hk k) as [-> | H].
  - apply in_map_iff. exists (k, v). auto.
  - rewrite str_eqb_refl. apply orb_true_r.
  - apply tiene_In in H. rewrite H. reflexivity.
Qed.

(** ** The statements found by a key word *)

Lemma en_clase_sin_caja (p : char -> bool) (x : char) :
  clase_sin_caja p -> entre 97 122 x = false ->
  en_clase true p x = en_clase false p x.
Proof. intros Hp Hx. rewrite (Hp x Hx), en_clase_false. reflexivity. Qed.

Lemma clase_mayuscula_sin_caja (p : char -> bool) :
  clase_mayuscula p -> clase_sin_caja p.
Proof. intros Hp x Hx. apply en_clase_mayuscula; assumption. Qed.

(** On a text without lower-case letters such a pattern reads the same
    with and without [re.IGNORECASE]. *)
Lemma den_sin_caja (r : regex) :
  patron_sin_caja r ->
  forall prev s g prev' s' g',
    sin_minusculas s ->
    (den true r prev s g prev' s' g' <-> den false r prev s g prev' s' g').
Proof.
  induction r as [| c | p | r1 IH1 r2 IH2 | r1 IH1 r2 IH2
                 | cod minimo maximo p | r1 IH1 | |];
    intros Hr prev s g prev' s' g' Hs; simpl in Hr; simpl den;
    try tauto.
  - split; intros (x & -> & E & H); exists x;
      (split; [reflexivity |]); (split; [| exact H]);
      inversion Hs as [|? ? Hx _]; subst;
      rewrite (en_clase_sin_caja _ x Hr Hx) in *; exact E.
  - split; intros (x & -> & E & H); exists x;
      (split; [reflexivity |]); (split; [| exact H]);
      inversion Hs as [|? ? Hx _]; subst;
      rewrite (en_clase_sin_caja _ x Hr Hx) in *; exact E.
  - destruct Hr as (Hr1 & Hr2).
    split; intros (pm & sm & gm & D1 & D2); exists pm, sm, gm.
    + apply (IH1 Hr1 _ _ _ _ _ _ Hs) in D1. split; [exact D1 |].
      destruct (den_sufijo _ _ _ _ _ _ _ _ D1) as (w & ->).
      apply (IH2 Hr2); [apply (sufijo_Forall _ w sm Hs) | exact D2].
    + split; [apply (IH1 Hr1 _ _ _ _ _ _ Hs); exact D1 |].
      destruct (den_sufijo _ _ _ _ _ _ _ _ D1) as (w & ->).
      apply (IH2 Hr2); [apply (sufijo_Forall _ w sm Hs) | exact D2].
  - destruct Hr as (Hr1 & Hr2).
    rewrite (IH1 Hr1 _ _ _ _ _ _ Hs), (IH2 Hr2 _ _ _ _ _ _ Hs). tauto.
  - assert (Hw : forall w, s = w ++ s' ->
                   (todos (en_clase true p) w <-> todos (en_clase false p) w)).
    { intros w ->. unfold todos. rewrite !Forall_forall.
      unfold sin_minusculas in Hs. rewrite Forall_forall in Hs.
      split; intros H x Hx;
        [rewrite <- (en_clase_sin_caja p x Hr) | rewrite (en_clase_sin_caja p x Hr)];
        try (apply H; exact Hx);
        apply Hs; apply in_or_app; left; exact Hx. }
    split; intros (w & E & Fw & H); exists w; (split; [exact E |]);
      (split; [apply (Hw w E); exact Fw | exact H]).
  - split; intros (g1 & D & E); exists g1; (split; [| exact E]);
      apply (IH1 Hr _ _ _ _ _ _ Hs); exact D.
Qed.

Lemma patron_sin_caja_texto (t : str) :
  Forall (fun c => entre 97 122 c = false) t -> patron_sin_caja (texto t).
Proof.
  induction 1 as [|c t Hc Ht IH]; [exact I |].
  assert (Hcar : clase_sin_caja (N.eqb c)).
  { apply clase_mayuscula_sin_caja, clase_mayuscula_eqb. exact Hc. }
  destruct t as [|c2 t]; [exact Hcar |].
  change (texto (c :: c2 :: t)) with (Cat (Car c) (texto (c2 :: t))).
  split; [exact Hcar | exact IH].
Qed.

Lemma isspace_sin_caja : clase_sin_caja isspace.
Proof.
  apply clase_mayuscula_sin_caja. intros x Hx.
  unfold isspace, entre in *. partir_car; reflexivity.
Qed.

Lemma es_palabra_sin_caja : clase_sin_caja es_palabra.
Proof. intros x _. apply es_palabra_otra_caja. Qed.

(** What a pattern made of a key word, blanks and a name reads. *)
Lemma den_palabra_nombre (t : str) (prev : option char) (s : str)
    (prev' : option char) (s' : str) (g' : option str) :
  den false (texto t >> RoadMap.espacios >> RoadMap.nombre_sql)%regex
    prev s None prev' s' g' ->
  exists b w,
    s = t ++ b ++ w ++ s' /\ blancos b /\ nombre_de_objeto w /\ g' = Some w.
Proof.
  intros D.
  apply den_cat in D. destruct D as (p1 & s1 & g1 & D1 & D).
  apply den_texto in D1. destruct D1 as (-> & -> & ->).
  apply den_cat in D. destruct D as (p2 & s2 & g2 & D2 & D).
  change RoadMap.espacios with RoadMapCalls.espacios in D2.
  apply den_espacios in D2. destruct D2 as (b & -> & Hb & -> & ->).
  destruct D as (g3 & D & ->). apply den_rep in D.
  destruct D as (w & -> & Fw & Hlo & _).
  exists b, w. rewrite firstn_tomado. repeat split; try assumption.
  - apply Hb.
  - apply Hb.
  - intros ->. simpl in Hlo. lia.
Qed.

Lemma den_palabra_nombre_intro (t b : str) (c : char) (resto : str)
    (prev : option char) :
  blancos b -> es_palabra c = true ->
  exists prev',
    den false (texto t >> RoadMap.espacios >> RoadMap.nombre_sql)%regex
      prev (t ++ b ++ c :: resto) None prev' resto (Some [c]).
Proof.
  intros (Nb & Bb) Hc. eexists.
  eexists _, _, _. split; [apply den_texto_intro |].
  eexists _, _, _. split.
  { exists b. repeat split.
    - apply todos_en_clase_false. exact Bb.
    - destruct b; [congruence | simpl; lia]. }
  exists None. split.
  - exists [c]. repeat split.
    + apply todos_en_clase_false. repeat constructor. exact Hc.
    + simpl. lia.
  - change (c :: resto) with ([c] ++ resto). rewrite firstn_tomado.
    reflexivity.
Qed.

Lemma finditer_hay (ic : bool) (r : regex) (s : str) :
  (exists m, In m (finditer ic r s)) <-> re_search ic r s <> None.
Proof.
  unfold finditer, re_search. cbn [finditer_desde].
  destruct (buscar_desde ic r None s 0) as [m|].
  - split; [discriminate |]. intros _. exists m.
    destruct (length s - length (despues m) =? 0); left; reflexivity.
  - split; [intros (m & []) | congruence].
Qed.

(** A kind found by a key word is reported exactly when the text holds
    the key word, blanks and a word character. *)
Lemma sentencias_de_una_palabra (tipo t u : str) :
  Forall (fun c => entre 97 122 c = false) t ->
  sin_minusculas u ->
  ((exists o,
      In (tipo, o)
        (RoadMap.sentencias_de tipo
           (texto t >> RoadMap.espacios >> RoadMap.nombre_sql)%regex u))
   <-> orden_sql_en t u).
Proof.
  intros Ht Hu.
  set (r := (texto t >> RoadMap.espacios >> RoadMap.nombre_sql)%regex).
  assert (Hr : patron_sin_caja r).
  { split; [apply patron_sin_caja_texto; exact Ht |].
    split; [exact isspace_sin_caja | exact es_palabra_sin_caja]. }
  split.
  - intros (o & H). unfold RoadMap.sentencias_de in H.
    apply in_map_iff in H. destruct H as (m & _ & H).
    unfold finditer in H. apply finditer_desde_In in H.
    destruct H as (a & b0 & p & i & -> & Hc).
    destruct (casa_aqui_some _ _ _ _ _ _ Hc) as (_ & p' & D).
    apply (den_sin_caja r Hr) in D; [| apply (sufijo_Forall _ a b0 Hu)].
    apply den_palabra_nombre in D.
    destruct D as (b & w & -> & Hb & (Nw & Fw) & _).
    destruct w as [|c w]; [congruence |].
    exists a, b, c, (w ++ despues m). split; [reflexivity |].
    split; [exact Hb |]. inversion Fw; assumption.
  - intros (antes & b & c & resto & -> & Hb & Hc).
    assert (Hs : re_search true r (antes ++ t ++ b ++ c :: resto) <> None).
    { intros F.
      pose proof (buscar_desde_none _ _ _ _ _ F antes _ eq_refl) as F0.
      destruct (den_palabra_nombre_intro t b c resto
                  (ultimo_de None antes) Hb Hc) as (p' & D).
      apply (den_sin_caja r Hr) in D; [| apply (sufijo_Forall _ antes _ Hu)].
      apply (casa_aqui_none _ _ _ _ _ F0 _ _ _ D). }
    apply finditer_hay in Hs. destruct Hs as (m & Hm).
    exists (group m). unfold RoadMap.sentencias_de.
    apply in_map_iff. exists m. auto.
Qed.

Lemma sentencias_de_tipo (tipo : str) (r : regex) (u t o : str) :
  In (t, o) (RoadMap.sentencias_de tipo r u) -> t = tipo.
Proof.
  unfold RoadMap.sentencias_de. intros H. apply in_map_iff in H.
  destruct H as (m & Hm & _). injection Hm as <- _. reflexivity.
Qed.

(** X27: the extractor reports an UPDATE, and likewise an OPEN, CLOSE or
    FETCH of a cursor, exactly when the upper-cased block holds the key
    word followed by blanks and a word character; nothing is asked of
    what stands before the key word, which may end a longer word. *)
Theorem extraer_sentencias_sql_una_palabra (bloque_sql tipo palabra : str) :
  In (tipo, palabra) ordenes_de_una_palabra ->
  ((exists objeto,
      In (tipo, objeto) (RoadMap.extraer_sentencias_sql bloque_sql))
   <-> orden_sql_en palabra (upper bloque_sql)).
Proof.
  intros Hin.
  assert (Hu : sin_minusculas (upper bloque_sql)).
  { apply upper_sin_minusculas, upper_upper. }
  unfold RoadMap.extraer_sentencias_sql. cbv zeta.
  set (u := upper bloque_sql) in *.
  assert (Hotro : forall t' r o,
            tipo <> t' -> ~ In (tipo, o) (RoadMap.sentencias_de t' r u)).
  { intros t' r o Hne H. apply Hne.
    apply (sentencias_de_tipo t' r u tipo o H). }
  assert (Hfin : forall t' (b : bool) o,
            tipo <> t' ->
            ~ In (tipo, o) (if b then [(t', @nil char)] else [])).
  { intros t' b o Hne H. destruct b; [| destruct H].
    destruct H as [H | []]. injection H as H _. congruence. }
  assert (Hmay : forall t, In t [lit "UPDATE"; lit "OPEN"; lit "CLOSE";
                                 lit "FETCH"] ->
                           Forall (fun c => entre 97 122 c = false) t).
  { intros t [<- | [<- | [<- | [<- | []]]]]; repeat constructor. }
  destruct Hin as [E | [E | [E | [E | []]]]]; injection E as <- <-.
  - rewrite <- (sentencias_de_una_palabra (lit "UPDATE") (lit "UPDATE") u);
      [| apply Hmay; simpl; tauto | exact Hu].
    fold RoadMap.patron_update.
    split; intros (o & H); exists o.
    + repeat (apply in_app_or in H; destruct H as [H | H]);
        try exact H;
        try (exfalso; revert H; apply Hotro; discriminate);
        exfalso; revert H; apply Hfin; discriminate.
    + apply in_or_app. right. apply in_or_app. right.
      apply in_or_app. left. exact H.
  - rewrite <- (sentencias_de_una_palabra (lit "OPEN CURSOR") (lit "OPEN") u);
      [| apply Hmay; simpl; tauto | exact Hu].
    fold RoadMap.patron_open.
    split; intros (o & H); exists o.
    + repeat (apply in_app_or in H; destruct H as [H | H]);
        try exact H;
        try (exfalso; revert H; apply Hotro; discriminate);
        exfalso; revert H; apply Hfin; discriminate.
    + do 4 (apply in_or_app; right). apply in_or_app. left. exact H.
  - rewrite <- (sentencias_de_una_palabra (lit "CLOSE CURSOR") (lit "CLOSE") u);
      [| apply Hmay; simpl; tauto | exact Hu].
    fold RoadMap.patron_close.
    split; intros (o & H); exists o.
    + repeat (apply in_app_or in H; destruct H as [H | H]);
        try exact H;
        try (exfalso; revert H; apply Hotro; discriminate);
        exfalso; revert H; apply Hfin; discriminate.
    + do 5 (apply in_or_app; right). apply in_or_app. left. exact H.
  - rewrite <- (sentencias_de_una_palabra (lit "FETCH CURSOR") (lit "FETCH") u);
      [| apply Hmay; simpl; tauto | exact Hu].
    fold RoadMap.patron_fetch.
    split; intros (o & H); exists o.
    + repeat (apply in_app_or in H; destruct H as [H | H]);
        try exact H;
        try (exfalso; revert H; apply Hotro; discriminate);
        exfalso; revert H; apply Hfin; discriminate.
    + do 6 (apply in_or_app; right). apply in_or_app. left. exact H.
Qed.

Lemma extraer_sentencias_sql_una_palabra_testigo :
  let bloque := lit "select a from t for update of a" in
  In (lit "UPDATE", lit "UPDATE") ordenes_de_una_palabra /\
  orden_sql_en (lit "UPDATE") (upper bloque) /\
  exists objeto,
    In (lit "UPDATE", objeto) (RoadMap.extraer_sentencias_sql bloque).
Proof.
  intros bloque.
  assert (Hin : In (lit "UPDATE", lit "UPDATE") ordenes_de_una_palabra)
    by (left; reflexivity).
  assert (Ho : orden_sql_en (lit "UPDATE") (upper bloque)).
  { exists (lit "SELECT A FROM T FOR "), (lit " "), 79%N, (lit "F A").
    split; [vm_compute; reflexivity |].
    split; [split; [discriminate | repeat constructor] | reflexivity]. }
  split; [exact Hin |]. split; [exact Ho |].
  apply (extraer_sentencias_sql_una_palabra bloque (lit "UPDATE")
           (lit "UPDATE") Hin).
  exact Ho.
Defined.

(** ** The scan and the block reader share the file *)

(** X28: after a line that is not ignorable and holds EXEC SQL, the scan
    with the SQL analysis on goes on after the first later line that
    holds END-EXEC: the lines in between are read as SQL text only, never
    as paragraphs or PERFORMs, the text of the EXEC SQL line itself is no
    part of the block, and the block counts once. *)
Theorem recorrer_archivo_salta_el_bloque (linea : str) (antes : list str)
    (fin : str) (resto : list str) (fuel : nat) (e : RoadMap.estado) :
  RoadMap.es_linea_ignorable (upper linea) = false ->
  contiene (lit "EXEC SQL") (upper linea) = true ->
  Forall (fun l => cierra_bloque l = false) antes ->
  cierra_bloque fin = true ->
  RoadMap.recorrer_archivo (S fuel) true (linea :: antes ++ fin :: resto) e
  = RoadMap.recorrer_archivo fuel true resto
      (RoadMap.Estado (RoadMap.llamadas e)
         (RoadMap.anotar (RoadMap.parrafo_actual e)
            (RoadMap.extraer_sentencias_sql (bloque_de (antes ++ [fin])))
            (RoadMap.selects_por_parrafo e))
         (RoadMap.en_procedure_division e)
         (RoadMap.esperar_punto_despues_de_proc e)
         (RoadMap.parrafo_actual e)
         (S (RoadMap.bloque_sql_count e))).
Proof.
  intros Hi Hs Ha Hf. cbn [RoadMap.recorrer_archivo]. cbv zeta.
  rewrite Hi, upper_upper, Hs. cbn [andb].
  unfold RoadMap.procesar_bloque_sql.
  rewrite (leer_bloque_hasta antes fin resto [] Ha Hf). reflexivity.
Qed.

Lemma recorrer_archivo_salta_el_bloque_testigo :
  let linea := lit "           EXEC SQL SELECT A FROM T END-EXEC." in
  let antes := [lit "       P2."; lit "           PERFORM P3."] in
  let fin := lit "           EXEC SQL COMMIT END-EXEC." in
  RoadMap.es_linea_ignorable (upper linea) = false /\
  contiene (lit "EXEC SQL") (upper linea) = true /\
  Forall (fun l => cierra_bloque l = false) antes /\
  cierra_bloque fin = true /\
  RoadMap.analizar_cobol
    (Some ([lit "       PROCEDURE DIVISION."; lit "       P1."]
           ++ linea :: antes ++ fin :: [lit "           PERFORM P4."]))
    None true
  = Some ([(lit "P1", [lit "P4"])], 1,
          [(lit "P1", [lit "COMMIT ... "])]).
Proof.
  intros linea antes fin.
  assert (Hi : RoadMap.es_linea_ignorable (upper linea) = false)
    by reflexivity.
  assert (Hs : contiene (lit "EXEC SQL") (upper linea) = true)
    by reflexivity.
  assert (Ha : Forall (fun l => cierra_bloque l = false) antes)
    by (repeat constructor).
  assert (Hf : cierra_bloque fin = true) by reflexivity.
  split; [exact Hi |]. split; [exact Hs |]. split; [exact Ha |].
  split; [exact Hf |].
  unfold RoadMap.analizar_cobol.
  change (RoadMap.recorrer_archivo _ true _ RoadMap.estado_inicial)
    with (RoadMap.recorrer_archivo 5 true
            (linea :: antes ++ fin :: [lit "           PERFORM P4."])
            (RoadMap.Estado [(lit "P1", [])] [] true (Some false)
               (lit "P1") 0)).
  rewrite (recorrer_archivo_salta_el_bloque linea antes fin
             [lit "           PERFORM P4."] 4 _ Hi Hs Ha Hf).
  vm_compute. reflexivity.
Defined.

(** ** The SQL block of one line *)

(** C6, at a source that holds the block on one line inside paragraph P1,
    scanned with the SQL analysis on: the extractor, given the block,
    finds the one statement (SELECT, CUSTOMERS); the scan counts the block
    but hands to the aggregator the lines after it, whatever they are, so
    that P1 gets no annotation and the PERFORM and the paragraph that
    follow are read as SQL text and lost to the graph. *)
Theorem bloque_en_una_linea_se_pierde :
  RoadMap.extraer_sentencias_sql bloque_customers
  = [(lit "SELECT", lit "CUSTOMERS")] /\
  (forall resto fuel e,
     RoadMap.recorrer_archivo (S fuel) true
       ((lit "           " ++ bloque_customers) :: resto) e
     = RoadMap.recorrer_archivo fuel true
         (fst (RoadMap.procesar_bloque_sql resto (RoadMap.parrafo_actual e)
                 (RoadMap.selects_por_parrafo e)))
         (RoadMap.Estado (RoadMap.llamadas e)
            (snd (RoadMap.procesar_bloque_sql resto
                    (RoadMap.parrafo_actual e)
                    (RoadMap.selects_por_parrafo e)))
            (RoadMap.en_procedure_division e)
            (RoadMap.esperar_punto_despues_de_proc e)
            (RoadMap.parrafo_actual e)
            (S (RoadMap.bloque_sql_count e)))) /\
  RoadMap.analizar_cobol (Some fuente_con_bloque_en_una_linea) None true
  = Some ([(lit "P1", [])], 1, []) /\
  RoadMap.analizar_cobol (Some fuente_sin_bloque) None true
  = Some ([(lit "P1", [lit "P2"]); (lit "P2", [lit "P3"])], 0, []).
Proof.
  split; [vm_compute; reflexivity |].
  split; [| split; vm_compute; reflexivity].
  intros resto fuel e. cbn [RoadMap.recorrer_archivo]. cbv zeta.
  assert (Hi : RoadMap.es_linea_ignorable
                 (upper (lit "           " ++ bloque_customers)) = false)
    by (vm_compute; reflexivity).
  assert (Hs : contiene (lit "EXEC SQL")
                 (upper (upper (lit "           " ++ bloque_customers)))
               = true) by (vm_compute; reflexivity).
  rewrite Hi, Hs. cbn [andb].
  destruct (RoadMap.procesar_bloque_sql resto (RoadMap.parrafo_actual e)
              (RoadMap.selects_por_parrafo e)) as [r s].
  reflexivity.
Qed.

(** ** The key of the external-call analyzer *)




Lemma hay_otro_que_punto (l : str) :
  Exists (fun c => c <> 46%N) l ->
  existsb (fun x => negb (x =? 46)%N) l = true.
Proof.
  intros Hx. apply existsb_exists. apply Exists_exists in Hx.
  destruct Hx as (x & Hin & Hx). exists x. split; [exact Hin |].
  apply negb_true_iff, N.eqb_neq. exact Hx.
Qed.

Lemma solo_puntos (l : str) :
  Forall (fun c => c = 46%N) l ->
  existsb (fun x => negb (x =? 46)%N) l = false.
Proof.
  intros Ha. destruct (existsb (fun x => negb (x =? 46)%N) l) eqn:E;
    [| reflexivity].
  apply existsb_exists in E. destruct E as (x & Hin & Hx).
  rewrite Forall_forall in Ha. rewrite (Ha x Hin) in Hx. discriminate Hx.
Qed.

Lemma sin_barra_con_punto (a b : str) :
  ~ In 47%N a -> ~ In 47%N b -> ~ In 47%N (a ++ 46%N :: b).
Proof.
  intros Ha Hb H. apply in_app_or in H. destruct H as [H | [H | H]];
    [apply Ha; exact H | discriminate H | apply Hb; exact H].
Qed.


Lemma parte_final (c : char) (s : str) :
  ~ In c s \/ exists a b, s = a ++ c :: b /\ ~ In c b.
Proof.
  induction s as [|x s IH]; [left; intros [] |].
  destruct IH as [Hn | (a & b & -> & Hb)].
  - destruct (N.eq_dec x c) as [-> | Hne].
    + right. exists [], s. auto.
    + left. intros [H | H]; [exact (Hne H) | exact (Hn H)].
  - right. exists (x :: a), b. auto.
Qed.

(** Every path has a base name without extension. *)
Lemma nombre_base_total (ruta : str) : exists nombre, nombre_base ruta nombre.
Proof.
  assert (Hd : exists prefijo f,
             ruta = prefijo ++ f /\ prefijo_de_ruta prefijo /\ ~ In 47%N f).
  { destruct (parte_final 47%N ruta) as [Hn | (a & b & -> & Hb)].
    - exists [], ruta. split; [reflexivity |]. split; [left; reflexivity |].
      exact Hn.
    - exists (a ++ [47%N]), b. rewrite <- app_assoc.
      split; [reflexivity |]. split; [right; exists a; reflexivity | exact Hb]. }
  destruct Hd as (prefijo & f & -> & Hp & Hs).
  destruct (parte_final 46%N f) as [Hn | (a & b & -> & Hb)].
  - exists f. apply (nombre_sin_extension _ _ prefijo [] f); auto.
  - assert (Ha : ~ In 47%N a).
    { intros F. apply Hs. apply in_or_app. left. exact F. }
    assert (Hb7 : ~ In 47%N b).
    { intros F. apply Hs. apply in_or_app. right. right. exact F. }
    destruct (Forall_Exists_dec (fun c => c = 46%N)
                (fun c => N.eq_dec c 46%N) a) as [Hall | Hex].
    + exists (a ++ 46%N :: b).
      apply (nombre_sin_extension _ _ prefijo (a ++ [46%N]) b); auto.
      * rewrite <- app_assoc. reflexivity.
      * apply Forall_app. split; [exact Hall | repeat constructor].
    + exists a. apply (nombre_con_extension _ _ prefijo b); auto.
Qed.



(** X20: for a path of Latin-1 characters, the key under which the
    analyzer files the targets of a source is the file name in upper case,
    without its directories and without what follows its last period; a
    name made of periods only keeps the extension. *)
Theorem origen_de_nombre (prefijo nombre ext : str) :
  latin1 (ruta_de prefijo nombre ext) ->
  prefijo = [] \/ (exists dir, prefijo = dir ++ [47%N]) ->
  ~ In 47%N nombre -> ~ In 47%N ext -> ~ In 46%N ext ->
  (Exists (fun c => c <> 46%N) nombre ->
   RoadMapCalls.origen_de (ruta_de prefijo nombre ext) = upper nombre) /\
  (Forall (fun c => c = 46%N) nombre ->
   RoadMapCalls.origen_de (ruta_de prefijo nombre ext)
   = upper (nombre ++ [46%N] ++ ext)).
Proof.
  intros _ Hp Hn He Hd. unfold RoadMapCalls.origen_de.
  rewrite (basename_ruta_de prefijo nombre ext Hp Hn He).
  pose proof (sin_barra_con_punto nombre ext Hn He) as Hs.
  change (nombre ++ [46%N] ++ ext) with (nombre ++ 46%N :: ext).
  rewrite (splitext_punto nombre ext Hs Hd).
  split.
  - intros Hx. rewrite (hay_otro_que_punto nombre Hx). reflexivity.
  - intros Ha. rewrite (solo_puntos nombre Ha). reflexivity.
Qed.

Lemma origen_de_nombre_testigo :
  let prefijo := lit "/src/cobol/" in
  let nombre := lit "nomina.v2" in
  let ext := lit "cbl" in
  latin1 (ruta_de prefijo nombre ext) /\
  (prefijo = [] \/ (exists dir, prefijo = dir ++ [47%N])) /\
  Exists (fun c => c <> 46%N) nombre /\
  RoadMapCalls.origen_de (lit "/src/cobol/nomina.v2.cbl") = lit "NOMINA.V2".
Proof.
  intros prefijo nombre ext.
  assert (Hl : latin1 (ruta_de prefijo nombre ext)) by (repeat constructor).
  assert (Hp : prefijo = [] \/ (exists dir, prefijo = dir ++ [47%N])).
  { right. exists (lit "/src/cobol"). reflexivity. }
  assert (Hx : Exists (fun c => c <> 46%N) nombre).
  { left. discriminate. }
  assert (Hn : ~ In 47%N nombre).
  { intros H. repeat (destruct H as [H | H]; [discriminate H |]). exact H. }
  assert (He : ~ In 47%N ext).
  { intros H. repeat (destruct H as [H | H]; [discriminate H |]). exact H. }
  assert (Hd : ~ In 46%N ext).
  { intros H. repeat (destruct H as [H | H]; [discriminate H |]). exact H. }
  split; [exact Hl |]. split; [exact Hp |]. split; [exact Hx |].
  exact (proj1 (origen_de_nombre prefijo nombre ext Hl Hp Hn He Hd) Hx).
Defined.

(** ** The arguments of the main program *)

Lemma upper_char_mayuscula (x y : char) (r : str) :
  upper_char x = y :: r -> entre 65 90 y = true ->
  (r = [] /\ (x = y \/ x = (y + 32)%N)) \/
  (x = 223%N /\ y = 83%N /\ r = [83%N]).
Proof.
  unfold upper_char. intros H Hy.
  destruct (entre 97 122 x) eqn:E1.
  { injection H as <- <-. left. split; [reflexivity |]. right.
    unfold entre in E1. apply andb_true_iff in E1. destruct E1 as [E1 _].
    apply N.leb_le in E1. lia. }
  destruct (N.eqb_spec x 181).
  { injection H as <- _. discriminate Hy. }
  destruct (N.eqb_spec x 223).
  { injection H as <- <-. right. auto. }
  destruct (entre 224 254 x && negb (x =? 247)%N) eqn:E2.
  { injection H as <- _. exfalso.
    apply andb_true_iff in E2. destruct E2 as [E2 _].
    unfold entre in E2, Hy. apply andb_true_iff in E2, Hy.
    destruct E2 as [E2 _]. destruct Hy as [_ Hy].
    apply N.leb_le in E2, Hy. lia. }
  destruct (N.eqb_spec x 255).
  { injection H as <- _. discriminate Hy. }
  injection H as <- <-. left. auto.
Qed.

Lemma upper_vacia (s : str) : upper s = [] -> s = [].
Proof.
  destruct s as [|c s]; [reflexivity |].
  change (upper (c :: s)) with (upper_char c ++ upper s). intros H.
  apply app_eq_nil in H. destruct H as [H _].
  destruct (upper_char_no_vacio c H).
Qed.

Lemma upper_primera (x : char) (s : str) (y : char) (t : str) :
  upper (x :: s) = y :: t -> entre 65 90 y = true -> y <> 83%N ->
  (x = y \/ x = (y + 32)%N) /\ upper s = t.
Proof.
  change (upper (x :: s)) with (upper_char x ++ upper s). intros H Hy Hs.
  destruct (upper_char x) as [|y0 r] eqn:E;
    [destruct (upper_char_no_vacio x E) |].
  simpl in H. injection H as -> H.
  destruct (upper_char_mayuscula x y r E Hy) as [[-> Hx] | (_ & F & _)];
    [| contradiction].
  split; [exact Hx | exact H].
Qed.

(** The test of the main program, read on the argument. *)
Lemma pide_sql_lee_sql (arg : str) : pide_sql arg = true <-> lee_sql arg.
Proof.
  unfold pide_sql. rewrite str_eqb_eq. split.
  - intros H. destruct arg as [|x a1]; [discriminate H |].
    change (upper (x :: a1)) with (upper_char x ++ upper a1) in H.
    destruct (upper_char x) as [|y0 r] eqn:E;
      [destruct (upper_char_no_vacio x E) |].
    simpl in H. injection H as -> H.
    destruct (upper_char_mayuscula x 83%N r E eq_refl)
      as [[-> Hx] | (_ & _ & ->)]; [| discriminate H].
    simpl in H. destruct a1 as [|x2 a2]; [discriminate H |].
    apply upper_primera in H; [| reflexivity | discriminate].
    destruct H as [Hx2 H]. destruct a2 as [|x3 a3]; [discriminate H |].
    apply upper_primera in H; [| reflexivity | discriminate].
    destruct H as [Hx3 H]. apply upper_vacia in H. subst a3.
    exists x, x2, x3. auto.
  - intros (x & y & z & -> & [-> | ->] & [-> | ->] & [-> | ->]); reflexivity.
Qed.

Lemma ultimo_que_cumple (A : Type) (p : A -> bool) (l : list A) (i : A) :
  hd_error (rev (filter p l)) = Some i <->
  exists antes despues,
    l = antes ++ i :: despues /\ p i = true /\
    Forall (fun x => p x = false) despues.
Proof.
  induction l as [|x l IH] using rev_ind.
  - simpl. split; [discriminate |].
    intros (a & d & H & _). destruct a; discriminate H.
  - rewrite filter_app, rev_app_distr. simpl. destruct (p x) eqn:E.
    + simpl. split.
      * intros H. injection H as <-. exists l, []. auto.
      * intros (a & d & H & Hi & Hd).
        destruct d as [|y d] using rev_ind.
        -- apply app_inj_tail in H. destruct H as [_ ->]. reflexivity.
        -- clear IHd. change (a ++ i :: d ++ [y]) with (a ++ (i :: d) ++ [y]) in H.
           rewrite app_assoc in H. apply app_inj_tail in H.
           destruct H as [_ ->].
           apply Forall_app in Hd. destruct Hd as [_ Hd].
           inversion Hd as [|? ? Hy _]. congruence.
    + simpl. rewrite IH. split.
      * intros (a & d & -> & Hi & Hd). exists a, (d ++ [x]).
        rewrite <- app_assoc. split; [reflexivity |]. split; [exact Hi |].
        apply Forall_app. split; [exact Hd | repeat constructor; exact E].
      * intros (a & d & H & Hi & Hd).
        destruct d as [|y d] using rev_ind.
        -- apply app_inj_tail in H. destruct H as [_ ->]. congruence.
        -- clear IHd. change (a ++ i :: d ++ [y]) with (a ++ (i :: d) ++ [y]) in H.
           rewrite app_assoc in H. apply app_inj_tail in H.
           destruct H as [-> _].
           apply Forall_app in Hd. destruct Hd as [Hd _].
           exists a, d. auto.
Qed.

(** X22: of the arguments after the path, taken as Latin-1 text, the main
    program turns the SQL analysis on exactly when one of them reads SQL
    in some letter case, and takes as start paragraph the last of the
    others, none when there is no other; a paragraph whose name reads SQL
    cannot be asked for. *)
Theorem leer_argumentos_forma (argumentos : list str) :
  Forall latin1 argumentos ->
  (fst (RoadMap.leer_argumentos argumentos) = true
   <-> Exists lee_sql argumentos) /\
  (forall inicio,
     snd (RoadMap.leer_argumentos argumentos) = Some inicio <->
     exists antes despues,
       argumentos = antes ++ inicio :: despues /\
       ~ lee_sql inicio /\ Forall lee_sql despues) /\
  (snd (RoadMap.leer_argumentos argumentos) = None
   <-> Forall lee_sql argumentos).
Proof.
  intros _.
  destruct (leer_argumentos_cerrado argumentos) as [E _]. rewrite E.
  cbn [fst snd].
  assert (Hno : forall a, negb (pide_sql a) = true <-> ~ lee_sql a).
  { intros a. rewrite negb_true_iff, <- pide_sql_lee_sql.
    destruct (pide_sql a); split; congruence. }
  assert (Hsi : forall a, negb (pide_sql a) = false <-> lee_sql a).
  { intros a. rewrite negb_false_iff. apply pide_sql_lee_sql. }
  split; [| split].
  - rewrite existsb_exists, Exists_exists.
    split; intros (a & Ha & H); exists a; (split; [exact Ha |]);
      apply pide_sql_lee_sql; exact H.
  - intros inicio. rewrite ultimo_que_cumple.
    split; intros (a & d & H & Hi & Hd); exists a, d;
      (split; [exact H |]); (split; [apply Hno; exact Hi |]);
      apply (Forall_impl _ (fun x => proj1 (Hsi x))) in Hd
      || apply (Forall_impl _ (fun x => proj2 (Hsi x))) in Hd; exact Hd.
  - split.
    + intros H. apply Forall_forall. intros a Ha.
      destruct (pide_sql a) eqn:Ep; [apply pide_sql_lee_sql; exact Ep |].
      exfalso.
      assert (Hin : In a (filter (fun a => negb (pide_sql a)) argumentos)).
      { apply filter_In. split; [exact Ha |]. rewrite Ep. reflexivity. }
      apply in_rev in Hin.
      destruct (rev (filter (fun a => negb (pide_sql a)) argumentos));
        [destruct Hin | discriminate H].
    + intros H.
      assert (Hf : filter (fun a => negb (pide_sql a)) argumentos = []).
      { clear E. induction H as [|a l Ha _ IH]; [reflexivity |].
        simpl. apply pide_sql_lee_sql in Ha. rewrite Ha. exact IH. }
      rewrite Hf. reflexivity.
Qed.

Lemma leer_argumentos_forma_testigo :
  let argumentos := [lit "P1"; lit "sQl"; lit "p2"; lit "SQL"] in
  Forall latin1 argumentos /\
  RoadMap.leer_argumentos argumentos = (true, Some (lit "p2")).
Proof.
  intros argumentos.
  assert (Hl : Forall latin1 argumentos) by (repeat constructor).
  split; [exact Hl |].
  destruct (leer_argumentos_forma argumentos Hl) as (H1 & H2 & _).
  assert (E1 : fst (RoadMap.leer_argumentos argumentos) = true).
  { apply H1. right. left. exists 115%N, 81%N, 108%N. auto 8. }
  assert (E2 : snd (RoadMap.leer_argumentos argumentos) = Some (lit "p2")).
  { apply H2. exists [lit "P1"; lit "sQl"], [lit "SQL"].
    split; [reflexivity |]. split.
    - intros (x & y & z & H & _). discriminate H.
    - repeat constructor. exists 83%N, 81%N, 76%N. auto 8. }
  destruct (RoadMap.leer_argumentos argumentos) as [sql inicio].
  simpl in E1, E2. rewrite E1, E2. reflexivity.
Defined.
